(** * SVG-to-editable-map: region binding, rename, tooltip geometry, export

    A shallow embedding of the interactive core of the map editor:
    - [App.tsx] ([adjustColorShade], [handleRegionIdChange], [handleDataChange],
      [handleFileLoad], [handleRegionSelect]);
    - [components/MapDisplay.tsx] (region indexing, the rename layout effect,
      the tooltip positioning layout effect, the styling effect);
    - [components/CustomizationPanel.tsx] (the initialisation effect);
    - [services/exportService.ts] (the escaping of the SVG text and the script
      of the exported document: indexing, styling gate, click and hover
      placement).

    Conventions.
    - A JavaScript string is a [string]: a sequence of code units below 256.
    - A JavaScript number is a binary64 number ([float]) in [Geometry64], the
      click placement of the live editor.  Where two placements are compared
      or bounded ([Geometry]) a number is a [num]: an exact rational or one
      of the three IEEE special values (+Infinity, -Infinity, NaN), without
      rounding and with an unsigned zero.
    - The [Record<string, RegionData>] of the editor is a [Store]: the own
      properties of the JavaScript object and its prototype, read through
      the prototype chain of [Object.prototype].
    - The elements of the loaded SVG are kept as the sequence in which
      [querySelectorAll] and [querySelector] enumerate them (document order). *)

From Stdlib Require Import ZArith QArith Qround Lqa Lia String Ascii List.
From Stdlib Require DecimalString PrimFloat.
From stdpp Require Import base option list gmap strings.

Set Default Proof Using "Type".

(* ===================================================================== *)
(** * Part I: the embedding *)
(* ===================================================================== *)

(** ** JavaScript numbers *)

Module JsNum.

Inductive num : Type :=
| Fin (q : Q)
| PInf
| NInf
| NaN.

Definition Qltb (a b : Q) : bool := negb (Qle_bool b a).

Definition neg (a : num) : num :=
  match a with
  | Fin q => Fin (- q)
  | PInf => NInf
  | NInf => PInf
  | NaN => NaN
  end.

Definition add (a b : num) : num :=
  match a, b with
  | NaN, _ | _, NaN => NaN
  | Fin x, Fin y => Fin (x + y)
  | PInf, NInf | NInf, PInf => NaN
  | PInf, _ | _, PInf => PInf
  | NInf, _ | _, NInf => NInf
  end.

Definition sub (a b : num) : num := add a (neg b).

(** The sign of an infinity after multiplication or division by a finite
    non-zero factor. *)
Definition signed (positive : bool) : num := if positive then PInf else NInf.

Definition mul (a b : num) : num :=
  match a, b with
  | NaN, _ | _, NaN => NaN
  | Fin x, Fin y => Fin (x * y)
  | Fin x, PInf | PInf, Fin x =>
      if Qeq_bool x 0 then NaN else signed (Qltb 0 x)
  | Fin x, NInf | NInf, Fin x =>
      if Qeq_bool x 0 then NaN else signed (Qltb x 0)
  | PInf, PInf | NInf, NInf => PInf
  | PInf, NInf | NInf, PInf => NInf
  end.

Definition div (a b : num) : num :=
  match a, b with
  | NaN, _ | _, NaN => NaN
  | Fin x, Fin y =>
      if Qeq_bool y 0
      then (if Qeq_bool x 0 then NaN else signed (Qltb 0 x))
      else Fin (x / y)
  | Fin _, _ => Fin 0
  | PInf, Fin y => signed (Qle_bool 0 y)
  | NInf, Fin y => signed (Qltb y 0)
  | _, _ => NaN
  end.

(** [a < b] and [a > b]: false as soon as one side is NaN. *)
Definition lt (a b : num) : bool :=
  match a, b with
  | NaN, _ | _, NaN => false
  | Fin x, Fin y => Qltb x y
  | NInf, NInf | PInf, _ => false
  | NInf, _ => true
  | Fin _, PInf => true
  | Fin _, NInf => false
  end.

Definition gt (a b : num) : bool := lt b a.

(** Numbers up to the value of their rational part. *)
Definition num_eq (a b : num) : Prop :=
  match a, b with
  | Fin x, Fin y => x == y
  | PInf, PInf | NInf, NInf | NaN, NaN => True
  | _, _ => False
  end.

Definition pos_eq (p q : num * num) : Prop :=
  num_eq (fst p) (fst q) /\ num_eq (snd p) (snd q).

End JsNum.

Declare Scope num_scope.
Delimit Scope num_scope with num.
Bind Scope num_scope with JsNum.num.
Infix "+" := JsNum.add : num_scope.
Infix "-" := JsNum.sub : num_scope.
Infix "*" := JsNum.mul : num_scope.
Infix "/" := JsNum.div : num_scope.
Infix "<?" := JsNum.lt : num_scope.
Infix ">?" := JsNum.gt : num_scope.
Coercion JsNum.Fin : Q >-> JsNum.num.

(** ** Tooltip geometry *)

Module Geometry.
Import JsNum.

(** [getBoundingClientRect()]. *)
Record DOMRect : Type := mkDOMRect {
  left : Q;
  top : Q;
  width : Q;
  height : Q
}.

(** [getBBox()], in SVG user space. *)
Record SVGRect : Type := mkSVGRect {
  bx : Q;
  by_ : Q;
  bwidth : Q;
  bheight : Q
}.

(** [svg.viewBox.baseVal]; an SVG without a [viewBox] attribute has width and
    height 0. *)
Record ViewBox : Type := mkViewBox {
  vwidth : Q;
  vheight : Q
}.

(** What a click placement reads from the document: the region's box, the
    SVG's screen rectangle and its view box. *)
Record RegionGeom : Type := mkRegionGeom {
  bbox : SVGRect;
  svgRect : DOMRect;
  viewBox : ViewBox
}.

Inductive Trigger : Type := hover | click.

(** [activeTooltip]: the region and, for a hover tooltip, the pointer's
    [clientX] and [clientY]. *)
Record ActiveTooltip : Type := mkActive {
  at_id : string;
  at_event : option (Q * Q)
}.

(** *** The live editor: the positioning layout effect of MapDisplay *)

(** The hover branch. *)
Definition live_hover (clientX clientY : Q) (tooltipRect containerRect : DOMRect)
    (innerWidth innerHeight : Q) : num * num :=
  let offsetX := Fin 15 in
  let left_ := (clientX + offsetX)%num in
  let left_ :=
    if (left_ + width tooltipRect >? innerWidth)%num
    then (clientX - width tooltipRect - offsetX)%num else left_ in
  let top_ := (clientY + offsetX)%num in
  let top_ :=
    if (top_ + height tooltipRect >? innerHeight)%num
    then (clientY - height tooltipRect - offsetX)%num else top_ in
  let left_ := (left_ - left containerRect)%num in
  let top_ := (top_ - top containerRect)%num in
  (left_, top_).

(** The click branch, once [element && svg] holds. *)
Definition live_click (g : RegionGeom) (tooltipRect containerRect : DOMRect)
    : num * num :=
  if (vwidth (viewBox g) >? Fin 0)%num then
    let scaleX := (width (svgRect g) / vwidth (viewBox g))%num in
    let scaleY := (height (svgRect g) / vheight (viewBox g))%num in
    let elementCenterX :=
      ((left (svgRect g) - left containerRect)
       + (bx (bbox g) + bwidth (bbox g) / Fin 2) * scaleX)%num in
    let elementTopY :=
      ((top (svgRect g) - top containerRect) + by_ (bbox g) * scaleY)%num in
    let elementBottomY :=
      ((top (svgRect g) - top containerRect)
       + (by_ (bbox g) + bheight (bbox g)) * scaleY)%num in
    let offset := Fin 10 in
    let top_ := (elementTopY - height tooltipRect - offset)%num in
    let top_ := if (top_ <? Fin 0)%num then (elementBottomY + offset)%num else top_ in
    let left_ := (elementCenterX - width tooltipRect / Fin 2)%num in
    let left_ := if (left_ <? Fin 0)%num then offset else left_ in
    let left_ :=
      if (left_ + width tooltipRect >? width containerRect)%num
      then (width containerRect - width tooltipRect - offset)%num else left_ in
    (left_, top_)
  else (Fin 0, Fin 0).

(** The whole effect.  [tooltipEl] is the measured rectangle of the tooltip
    element, when it is mounted; [region] is the outcome of the two
    [querySelector] calls of the click branch.  [None]: no active tooltip or
    no tooltip element, nothing is written.  [Some (left, top)]: the values
    written to [style.left] and [style.top] before the tooltip is made
    opaque; they keep their initial value 0 when no branch computes them. *)
Definition live_position (trigger : Trigger) (activeTooltip : option ActiveTooltip)
    (tooltipEl : option DOMRect) (region : option RegionGeom)
    (containerRect : DOMRect) (innerWidth innerHeight : Q)
    : option (num * num) :=
  match activeTooltip, tooltipEl with
  | Some active, Some tooltipRect =>
      match trigger, at_event active with
      | hover, Some (clientX, clientY) =>
          Some (live_hover clientX clientY tooltipRect containerRect
                  innerWidth innerHeight)
      | hover, None => Some (Fin 0, Fin 0)
      | click, _ =>
          match region with
          | Some g => Some (live_click g tooltipRect containerRect)
          | None => Some (Fin 0, Fin 0)
          end
      end
  | _, _ => None
  end.

(** *** The exported script (exportService.ts) *)

(** The click listener's placement; the tooltip is displayed before it is
    measured ([offsetWidth], [offsetHeight]). *)
Definition export_click (g : RegionGeom) (containerRect : DOMRect)
    (offsetWidth offsetHeight : Q) : num * num :=
  let scaleX := (width (svgRect g) / vwidth (viewBox g))%num in
  let scaleY := (height (svgRect g) / vheight (viewBox g))%num in
  let x := (left (svgRect g) - left containerRect
            + (bx (bbox g) + bwidth (bbox g) / Fin 2) * scaleX)%num in
  let y := (top (svgRect g) - top containerRect
            + (by_ (bbox g) + bheight (bbox g) / Fin 2) * scaleY)%num in
  let left_ := (x - offsetWidth / Fin 2)%num in
  let top_ := (y - offsetHeight - Fin 10)%num in
  let top_ :=
    if (top_ <? top containerRect)%num
    then (y + bheight (bbox g) / Fin 2 * scaleY + Fin 10)%num else top_ in
  let left_ := if (left_ <? Fin 0)%num then Fin 10 else left_ in
  let left_ :=
    if (left_ + offsetWidth >? width containerRect)%num
    then (width containerRect - offsetWidth - Fin 10)%num else left_ in
  (left_, top_).

(** The mousemove listener's placement. *)
Definition export_hover (pageX pageY : Q) (containerRect : DOMRect)
    (offsetWidth offsetHeight : Q) : num * num :=
  let left_ := (pageX - left containerRect + Fin 15)%num in
  let top_ := (pageY - top containerRect + Fin 15)%num in
  let left_ :=
    if (left_ + offsetWidth >? width containerRect)%num
    then (pageX - left containerRect - offsetWidth - Fin 15)%num else left_ in
  let top_ :=
    if (top_ + offsetHeight >? height containerRect)%num
    then (pageY - top containerRect - offsetHeight - Fin 15)%num else top_ in
  (left_, top_).

(** *** One scene for both engines

    The inputs the two engines share when they render the same region: the
    measurements, the tooltip's size and the pointer.  The page is scrolled by
    [scrollX], [scrollY], so that [pageX = clientX + scrollX]. *)
Record Scene : Type := mkScene {
  geom : RegionGeom;
  container : DOMRect;
  tipWidth : Q;
  tipHeight : Q;
  pointerX : Q;
  pointerY : Q;
  scrollX : Q;
  scrollY : Q;
  winWidth : Q;
  winHeight : Q
}.

Definition tooltipRect_of (s : Scene) : DOMRect :=
  mkDOMRect 0 0 (tipWidth s) (tipHeight s).

Definition live_placement (t : Trigger) (s : Scene) : num * num :=
  match t with
  | hover =>
      live_hover (pointerX s) (pointerY s) (tooltipRect_of s) (container s)
        (winWidth s) (winHeight s)
  | click => live_click (geom s) (tooltipRect_of s) (container s)
  end.

Definition export_placement (t : Trigger) (s : Scene) : num * num :=
  match t with
  | hover =>
      export_hover (pointerX s + scrollX s) (pointerY s + scrollY s)
        (container s) (tipWidth s) (tipHeight s)
  | click => export_click (geom s) (container s) (tipWidth s) (tipHeight s)
  end.

(** The click placement as the specification words it: the region's centre,
    top and bottom in container coordinates through
    [scale = svgScreenRect / viewBox], the tooltip above the region unless
    that is above the container's top edge, the left centred and then
    clamped by the two rules in turn. *)
Definition spec_click (g : RegionGeom) (tipW tipH : Q) (c : DOMRect) : Q * Q :=
  let scaleX := (width (svgRect g) / vwidth (viewBox g))%Q in
  let scaleY := (height (svgRect g) / vheight (viewBox g))%Q in
  let centerX :=
    (left (svgRect g) - left c + (bx (bbox g) + bwidth (bbox g) / 2) * scaleX)%Q in
  let regionTopY := (top (svgRect g) - top c + by_ (bbox g) * scaleY)%Q in
  let regionBottomY :=
    (top (svgRect g) - top c + (by_ (bbox g) + bheight (bbox g)) * scaleY)%Q in
  let preferred := (regionTopY - tipH - 10)%Q in
  let top_ := if Qltb preferred 0 then (regionBottomY + 10)%Q else preferred in
  let centred := (centerX - tipW / 2)%Q in
  let pinned := if Qltb centred 0 then 10%Q else centred in
  let left_ :=
    if Qltb (width c) (pinned + tipW) then (width c - tipW - 10)%Q else pinned in
  (left_, top_).

(** *** Sample scenes *)

(** A 100 x 100 region at (0, 100) of a 400 x 400 map shown at scale 1 in a
    container at the viewport's origin; a 100 x 40 tooltip. *)
Definition scene_click : Scene :=
  mkScene
    (mkRegionGeom (mkSVGRect 0 100 100 100) (mkDOMRect 0 0 400 400)
       (mkViewBox 400 400))
    (mkDOMRect 0 0 400 400) 100 40 0 0 0 0 1000 800.

(** The pointer at (450, 100) of an unscrolled 1000 x 800 viewport, over a
    400 x 300 container whose top-left corner is at (100, 50). *)
Definition scene_hover : Scene :=
  mkScene
    (mkRegionGeom (mkSVGRect 0 0 10 10) (mkDOMRect 100 50 400 300)
       (mkViewBox 400 300))
    (mkDOMRect 100 50 400 300) 100 40 450 100 0 0 1000 800.

(** An SVG without a [viewBox] attribute, shown as 400 x 300 in a container
    of the same size; a 50 x 50 region at (10, 10); a 100 x 40 tooltip. *)
Definition geom_no_viewBox : RegionGeom :=
  mkRegionGeom (mkSVGRect 10 10 50 50) (mkDOMRect 0 0 400 300) (mkViewBox 0 0).

End Geometry.


(** ** Tooltip geometry in binary64: the click placement of the live editor

    The same measurements as in [Geometry], held as binary64 numbers, and the
    click branch with the arithmetic of JavaScript: every operation rounds to
    the nearest binary64 number, a comparison with NaN is false. *)

Module Geometry64.
Import PrimFloat.

Local Open Scope float_scope.

(** [getBoundingClientRect()]. *)
Record DOMRect : Type := mkDOMRect {
  left : float;
  top : float;
  width : float;
  height : float
}.

(** [getBBox()], in SVG user space. *)
Record SVGRect : Type := mkSVGRect {
  bx : float;
  by_ : float;
  bwidth : float;
  bheight : float
}.

(** [svg.viewBox.baseVal]; an SVG without a [viewBox] attribute has width and
    height 0. *)
Record ViewBox : Type := mkViewBox {
  vwidth : float;
  vheight : float
}.

Record RegionGeom : Type := mkRegionGeom {
  bbox : SVGRect;
  svgRect : DOMRect;
  viewBox : ViewBox
}.

(** [a > b]. *)
Definition gtb (a b : float) : bool := b <? a.

(** The click branch of the positioning layout effect of MapDisplay, once
    [element && svg] holds; [top] and [left] keep their initial value 0 when
    the view box has no positive width. *)
Definition live_click (g : RegionGeom) (tooltipRect containerRect : DOMRect)
    : float * float :=
  if gtb (vwidth (viewBox g)) 0 then
    let scaleX := width (svgRect g) / vwidth (viewBox g) in
    let scaleY := height (svgRect g) / vheight (viewBox g) in
    let elementCenterX :=
      (left (svgRect g) - left containerRect)
      + (bx (bbox g) + bwidth (bbox g) / 2) * scaleX in
    let elementTopY :=
      (top (svgRect g) - top containerRect) + by_ (bbox g) * scaleY in
    let elementBottomY :=
      (top (svgRect g) - top containerRect)
      + (by_ (bbox g) + bheight (bbox g)) * scaleY in
    let offset := 10 in
    let top_ := elementTopY - height tooltipRect - offset in
    let top_ := if top_ <? 0 then elementBottomY + offset else top_ in
    let left_ := elementCenterX - width tooltipRect / 2 in
    let left_ := if left_ <? 0 then offset else left_ in
    let left_ :=
      if gtb (left_ + width tooltipRect) (width containerRect)
      then width containerRect - width tooltipRect - offset else left_ in
    (left_, top_)
  else (0, 0).

(** A map with a view box of 100 x 100 shown as 200 x 205 px at the origin of
    its container: the vertical scale is the binary64 number nearest to
    2.05.  The region is 20 units high, its top at 60. *)
Definition geom_scaled : RegionGeom :=
  mkRegionGeom (mkSVGRect 10 60 30 20) (mkDOMRect 0 0 200 205)
    (mkViewBox 100 100).

End Geometry64.

(** ** JavaScript strings *)

Module Js.

Local Open Scope string_scope.

Definition code (c : ascii) : nat := nat_of_ascii c.

(** The code units that [String.prototype.trim] strips and that [\s] matches
    (WhiteSpace and LineTerminator), below 256: TAB, LF, VT, FF, CR, SP and
    NBSP. *)
Definition is_space (c : ascii) : bool :=
  let n := code c in
  (((9 <=? n) && (n <=? 13)) || (n =? 32) || (n =? 160))%nat.

Fixpoint trimStart (s : string) : string :=
  match s with
  | String c s' => if is_space c then trimStart s' else s
  | EmptyString => EmptyString
  end.

(** [trimEnd]: a character is dropped when it is white space and nothing but
    white space follows it. *)
Fixpoint trimEnd (s : string) : string :=
  match s with
  | String c s' =>
      match trimEnd s' with
      | EmptyString => if is_space c then EmptyString else String c EmptyString
      | t => String c t
      end
  | EmptyString => EmptyString
  end.

(** [s.trim()]. *)
Definition trim (s : string) : string := trimEnd (trimStart s).

(** [/\s/.test(s)]. *)
Fixpoint has_space (s : string) : bool :=
  match s with
  | String c s' => is_space c || has_space s'
  | EmptyString => false
  end.

(** [!s] for a string: only the empty string is falsy. *)
Definition falsy (s : string) : bool :=
  match s with EmptyString => true | _ => false end.

Definition lower (c : ascii) : ascii :=
  let n := code c in
  if ((65 <=? n) && (n <=? 90))%nat then ascii_of_nat (n + 32) else c.

(** [s] starts with [pat]; with [ci], up to the case of ASCII letters (the
    regular expression flag [i]). *)
Fixpoint starts_with (ci : bool) (pat s : string) : bool :=
  match pat, s with
  | EmptyString, _ => true
  | String p pat', String c s' =>
      (if ci then Ascii.eqb (lower p) (lower c) else Ascii.eqb p c)
      && starts_with ci pat' s'
  | String _ _, EmptyString => false
  end.

(** [s.replace(/pat/g, rep)] for a non-empty literal pattern: matches are
    taken from left to right and do not overlap.  [skip] counts the characters
    of the current match that are still to be passed over. *)
Fixpoint replace_from (ci : bool) (pat rep : string) (skip : nat) (s : string)
    : string :=
  match s with
  | EmptyString => EmptyString
  | String c s' =>
      match skip with
      | S k => replace_from ci pat rep k s'
      | O =>
          if starts_with ci pat s
          then rep ++ replace_from ci pat rep (String.length pat - 1) s'
          else String c (replace_from ci pat rep 0 s')
      end
  end.

Definition replace_all (ci : bool) (pat rep s : string) : string :=
  replace_from ci pat rep 0 s.

(** [s.split('').map(f).join('')]. *)
Fixpoint map_chars (f : ascii -> string) (s : string) : string :=
  match s with
  | EmptyString => EmptyString
  | String c s' => f c ++ map_chars f s'
  end.

(** [String(n)] for a natural number below 10^21: its decimal digits (from
    10^21 on JavaScript writes an exponent). *)
Definition of_nat (n : nat) : string :=
  DecimalString.NilZero.string_of_uint (Nat.to_uint n).

(** One-character strings that cannot be written inside a literal here. *)
Definition backslash : string := String (ascii_of_nat 92) EmptyString.
Definition backtick : string := String (ascii_of_nat 96) EmptyString.

End Js.

(** ** The SVG document *)

Module Dom.
Import Js.

Local Open Scope string_scope.

(** The inline style properties the editor and the export write; the empty
    string is an unset property. *)
Record Style : Type := mkStyle {
  fill : string;
  stroke : string;
  strokeWidth : string;
  cursor : string
}.

Inductive EventType : Type :=
| ev_click
| ev_mousemove
| ev_mouseleave
| ev_mouseenter.

(** The listeners the two programs attach, named after their closures. *)
Inductive Listener : Type :=
| L_handleClick            (* MapDisplay: select, or toggle the click tooltip *)
| L_handleMouseMove        (* MapDisplay: hover tooltip *)
| L_handleMouseLeave       (* MapDisplay: hide the hover tooltip *)
| L_applyHover             (* MapDisplay: fill := defaultRegionHoverColor *)
| L_removeHover            (* MapDisplay: fill := defaultRegionColor *)
| L_export_click_tooltip   (* export, click trigger: show and place the tooltip *)
| L_export_hover_tooltip   (* export, hover trigger: show and place the tooltip *)
| L_export_hover_hide      (* export, hover trigger: hide the tooltip *)
| L_export_open_link       (* export, hover trigger: open the record's link *)
| L_export_enter_fill      (* export: fill := defaultRegionHoverColor *)
| L_export_leave_fill.     (* export: fill := defaultRegionColor *)

(** An element as far as the two programs read and write it.  [id] is the
    empty string when the element has no identifier; [originalStroke] is the
    expando property set by the styling effect. *)
Record Element : Type := mkElement {
  tag : string;
  id : string;
  strokeAttr : option string;
  style : Style;
  originalStroke : option string;
  classList : list string;
  listeners : list (EventType * Listener)
}.

Definition set_id (v : string) (e : Element) : Element :=
  mkElement (tag e) v (strokeAttr e) (style e) (originalStroke e) (classList e)
    (listeners e).

Definition set_style (v : Style) (e : Element) : Element :=
  mkElement (tag e) (id e) (strokeAttr e) v (originalStroke e) (classList e)
    (listeners e).

Definition set_originalStroke (v : string) (e : Element) : Element :=
  mkElement (tag e) (id e) (strokeAttr e) (style e) (Some v) (classList e)
    (listeners e).

Definition add_class (v : string) (e : Element) : Element :=
  mkElement (tag e) (id e) (strokeAttr e) (style e) (originalStroke e)
    (classList e ++ [v])%list (listeners e).

Definition addEventListener (t : EventType) (l : Listener) (e : Element)
    : Element :=
  mkElement (tag e) (id e) (strokeAttr e) (style e) (originalStroke e)
    (classList e) (listeners e ++ [(t, l)])%list.

(** A plain element: a tag and an identifier, nothing styled or attached. *)
Definition plain (t i : string) : Element :=
  mkElement t i None (mkStyle "" "" "" "") None [] [].

(** The elements of the loaded SVG, in document order. *)
Abbreviation Document := (list Element) (only parsing).

Definition CLICKABLE_ELEMENTS : list string :=
  ["path"; "g"; "rect"; "circle"; "polygon"; "ellipse"].

(** An element that [querySelectorAll(CLICKABLE_ELEMENTS.join(', '))] selects. *)
Definition clickable (e : Element) : bool :=
  existsb (String.eqb (tag e)) CLICKABLE_ELEMENTS.

(** *** Region indexing *)

(** The [forEach] of the setup effect of MapDisplay over the selected
    elements: [if (!element.id) element.id = `map-region-${idCounter++}`].
    Elements that the selector does not match are passed over. *)
Fixpoint assign_ids (idCounter : nat) (doc : Document) : Document :=
  match doc with
  | [] => []
  | e :: rest =>
      if clickable e then
        if falsy (id e)
        then set_id ("map-region-" ++ of_nat idCounter) e
               :: assign_ids (S idCounter) rest
        else e :: assign_ids idCounter rest
      else e :: assign_ids idCounter rest
  end.

(** [let idCounter = 0; elements.forEach(...)]. *)
Definition indexRegions (doc : Document) : Document := assign_ids 0 doc.

(** A shape without an identifier: one of the addressable kinds whose
    identifier is absent; and the number of such shapes before position [i],
    in document order. *)
Definition lacks_id (e : Element) : bool := clickable e && falsy (id e).

Definition assigned_before (doc : Document) (i : nat) : nat :=
  length (filter (fun e => lacks_id e = true) (take i doc)).

(** *** Identifier selectors *)

(** The character class of the regular expression with which MapDisplay
    escapes an identifier before a lookup: the ASCII punctuation (codes 33 to
    47, 58 to 64, 91 to 96 and 123 to 126) apart from [-] (45) and [_] (95). *)
Definition needs_escape (c : ascii) : bool :=
  let n := code c in
  (((33 <=? n) && (n <=? 44)) || ((46 <=? n) && (n <=? 47))
   || ((58 <=? n) && (n <=? 64)) || ((91 <=? n) && (n <=? 94))
   || (n =? 96) || ((123 <=? n) && (n <=? 126)))%nat.

(** The replacement: a backslash before each character of the class. *)
Definition escapeId (s : string) : string :=
  map_chars (fun c => if needs_escape c
                      then backslash ++ String c EmptyString
                      else String c EmptyString) s.

(** CSS syntax, as far as identifier selectors need it. *)
Definition is_digit (c : ascii) : bool :=
  let n := code c in ((48 <=? n) && (n <=? 57))%nat.

Definition is_letter (c : ascii) : bool :=
  let n := code c in
  (((65 <=? n) && (n <=? 90)) || ((97 <=? n) && (n <=? 122)))%nat.

Definition is_hex_digit (c : ascii) : bool :=
  let n := code c in
  (((48 <=? n) && (n <=? 57)) || ((65 <=? n) && (n <=? 70))
   || ((97 <=? n) && (n <=? 102)))%nat.

Definition name_start (c : ascii) : bool :=
  (is_letter c || (code c =? 95) || (128 <=? code c))%nat.

Definition name_char (c : ascii) : bool :=
  (name_start c || is_digit c || (code c =? 45))%nat.

Definition css_newline (c : ascii) : bool :=
  let n := code c in ((n =? 10) || (n =? 12) || (n =? 13))%nat.

(** Consumes a name: name characters and escapes [\c], where [c] is neither
    a newline nor a hexadecimal digit.  [None] when something else is met
    before the end of the input. *)
Fixpoint css_name (s : string) : option string :=
  match s with
  | EmptyString => Some EmptyString
  | String c s' =>
      if Ascii.eqb c (ascii_of_nat 92) then
        match s' with
        | String d s'' =>
            if css_newline d || is_hex_digit d then None
            else option_map (String d) (css_name s'')
        | EmptyString => None
        end
      else if name_char c then option_map (String c) (css_name s')
      else None
  end.

(** The first characters of the input start an identifier. *)
Definition starts_ident (s : string) : bool :=
  match s with
  | String c s' =>
      if Ascii.eqb c (ascii_of_nat 92) then
        match s' with String d _ => negb (css_newline d) | _ => false end
      else if Ascii.eqb c (ascii_of_nat 45) then
        match s' with
        | String d s'' =>
            if Ascii.eqb d (ascii_of_nat 92) then
              match s'' with String f _ => negb (css_newline f) | _ => false end
            else name_start d || Ascii.eqb d (ascii_of_nat 45)
        | EmptyString => false
        end
      else name_start c
  | EmptyString => false
  end.

(** The identifier that a selector of the form [#ident] names.  This is the
    fragment of the selector grammar modelled here: [None] stands for a
    selector that is not of this form (the browser raises a [SyntaxError], or
    reads it as a selector of another kind). *)
Definition parse_id_selector (sel : string) : option string :=
  match sel with
  | String c rest =>
      if Ascii.eqb c (ascii_of_nat 35) && starts_ident rest
      then css_name rest else None
  | EmptyString => None
  end.

(** The position of the first element with identifier [name]. *)
Fixpoint find_id (name : string) (doc : Document) : option nat :=
  match doc with
  | [] => None
  | e :: rest =>
      if String.eqb (id e) name then Some 0
      else option_map S (find_id name rest)
  end.

(** [container.querySelector(sel)] for an identifier selector; [None] is
    [null] or an exception. *)
Definition querySelector (sel : string) (doc : Document) : option nat :=
  match parse_id_selector sel with
  | Some name => find_id name doc
  | None => None
  end.

(** An identifier that the escaped lookup resolves: not empty, made of name
    characters and of the punctuation the regular expression escapes, not
    starting with a digit, nor with a hyphen that is alone or followed by a
    digit. *)
Fixpoint safe_chars (s : string) : bool :=
  match s with
  | EmptyString => true
  | String c s' => (name_char c || needs_escape c) && safe_chars s'
  end.

Definition selector_safe (s : string) : bool :=
  safe_chars s &&
  match s with
  | EmptyString => false
  | String c s' =>
      negb (is_digit c) &&
      (if Ascii.eqb c (ascii_of_nat 45)
       then match s' with String d _ => negb (is_digit d) | _ => false end
       else true)
  end.

End Dom.

(** ** The application state: annotation store, selection, rename *)

Module App.
Import Js Dom.

Local Open Scope string_scope.

(** [RegionData] of types.ts; [tooltipImageSrc] is optional. *)
Record RegionData : Type := mkRegionData {
  title : string;
  description : string;
  link : string;
  tooltipImageSrc : option string
}.

Record IdChangeOp : Type := mkIdChangeOp {
  oldId : string;
  newId : string
}.

(** *** The annotation store as a JavaScript object

    [customizationData] is an ordinary object.  [App] reads it with
    [customizationData[id]], tests it with
    [customizationData.hasOwnProperty(id)], copies it with a spread
    expression and writes it with a computed key, an assignment and
    [delete].  A read and a method call follow the prototype chain, and an
    assignment to [__proto__] replaces the prototype, so the store is modelled
    with its own properties and its prototype. *)

(** The property names of [Object.prototype] (ECMAScript 2023, 20.1.3 and
    B.2.2). *)
Definition OBJECT_PROTOTYPE : list string :=
  ["constructor"; "hasOwnProperty"; "isPrototypeOf"; "propertyIsEnumerable";
   "toLocaleString"; "toString"; "valueOf"; "__proto__";
   "__defineGetter__"; "__defineSetter__"; "__lookupGetter__";
   "__lookupSetter__"].

(** [k in Object.prototype]. *)
Definition inherited (k : string) : bool :=
  existsb (String.eqb k) OBJECT_PROTOTYPE.

(** What a read of the store yields.
    - [Rec d]: an annotation object with the properties of [d]
      ([tooltipImageSrc] when it is defined).
    - [Builtin name]: the value of [Object.prototype[name]], a built-in
      function; for [__proto__], the object [Object.prototype] itself.
    - [Other truthy]: any other value (a string held by an annotation, a
      property of a built-in function).  The editor tests such a value and
      reads [title], [description] and [tooltipImageSrc] from it, which it
      does not have. *)
Inductive Value : Type :=
| Rec (d : RegionData)
| Builtin (name : string)
| Other (truthy : bool).

(** [!!v]; [None] is [undefined]. *)
Definition truthy (v : option Value) : bool :=
  match v with
  | Some (Rec _) | Some (Builtin _) => true
  | Some (Other b) => b
  | None => false
  end.

(** The annotation that the value is, if it is one. *)
Definition as_record (v : option Value) : option RegionData :=
  match v with
  | Some (Rec d) => Some d
  | _ => None
  end.

(** The store: its own properties (all enumerable) and its prototype, [None]
    standing for [Object.prototype]. *)
Record Store : Type := mkStore {
  own : gmap string Value;
  proto : option Value
}.

(** [{}]. *)
Definition empty_store : Store := mkStore ∅ None.

(** A store that holds the given annotations and nothing else. *)
Definition store_of (records : gmap string RegionData) : Store :=
  mkStore (Rec <$> records) None.

(** The own properties of an annotation object. *)
Definition record_field (d : RegionData) (k : string) : option string :=
  if String.eqb k "title" then Some (title d)
  else if String.eqb k "description" then Some (description d)
  else if String.eqb k "link" then Some (link d)
  else if String.eqb k "tooltipImageSrc" then tooltipImageSrc d
  else None.

(** [f.length] for the functions of [Object.prototype]. *)
Definition builtin_length (f : string) : nat :=
  if existsb (String.eqb f) ["toLocaleString"; "toString"; "valueOf"] then 0
  else if existsb (String.eqb f) ["__defineGetter__"; "__defineSetter__"]
  then 2 else 1.

(** The properties of the constructor [Object], apart from [length] and
    [name] (ECMAScript 2023, 20.1.2). *)
Definition OBJECT_STATICS : list string :=
  ["prototype"; "assign"; "create"; "defineProperties"; "defineProperty";
   "entries"; "freeze"; "fromEntries"; "getOwnPropertyDescriptor";
   "getOwnPropertyDescriptors"; "getOwnPropertyNames";
   "getOwnPropertySymbols"; "getPrototypeOf"; "hasOwn"; "is"; "isExtensible";
   "isFrozen"; "isSealed"; "keys"; "preventExtensions"; "seal";
   "setPrototypeOf"; "values"].

(** The data properties of [Function.prototype] that a function does not
    have itself. *)
Definition FUNCTION_PROTOTYPE : list string :=
  ["apply"; "bind"; "call"; "constructor"; "toString"].

(** The accessor properties of [Function.prototype]; their getter and their
    setter throw a [TypeError]. *)
Definition RESTRICTED : list string := ["caller"; "arguments"].

(** The property [k] of the built-in function [Object.prototype[f]], found
    on the function or on [Function.prototype].  The read of a restricted
    property throws; the render in which that happens writes nothing, and
    what React does with the failure is outside this model. *)
Definition function_property (f k : string) : option Value :=
  if String.eqb k "length" then Some (Other (negb (builtin_length f =? 0)%nat))
  else if String.eqb k "name" then Some (Other true)
  else if String.eqb f "constructor" && existsb (String.eqb k) OBJECT_STATICS
  then Some (Other true)
  else if existsb (String.eqb k) FUNCTION_PROTOTYPE then Some (Other true)
  else if existsb (String.eqb k) RESTRICTED then Some (Other true)
  else None.

(** The end of every chain: [Object.prototype[k]]. *)
Definition from_object_prototype (k : string) : option Value :=
  if inherited k then Some (Builtin k) else None.

(** [store[k]].  An own property is returned as it is.  Otherwise the chain
    is followed: an annotation that has become the prototype answers with its
    strings, a built-in function with its properties, and [__proto__] is read
    through the accessor of [Object.prototype], which returns the prototype
    of the store. *)
Definition read (store : Store) (k : string) : option Value :=
  match own store !! k with
  | Some v => Some v
  | None =>
      match proto store with
      | Some (Rec d) =>
          match record_field d k with
          | Some text => Some (Other (negb (falsy text)))
          | None =>
              if String.eqb k "__proto__" then Some (Rec d)
              else from_object_prototype k
          end
      | Some (Builtin f) =>
          if String.eqb k "__proto__" then Some (Builtin f)
          else
            match function_property f k with
            | Some v => Some v
            | None => from_object_prototype k
            end
      | _ => from_object_prototype k
      end
  end.

(** How a call ends: it returns a value, of which the caller only tests the
    truth, or it throws. *)
Inductive Completion : Type :=
| Return (b : bool)
| Throw.

Coercion Return : bool >-> Completion.

(** [ToPropertyKey] of the first argument; a missing argument is
    [undefined]. *)
Definition key_of (arg : option string) : string := default "undefined" arg.

(** [k] is first found on the chain of [store] as an accessor property:
    what [__lookupGetter__] and [__lookupSetter__] return is then a
    function, and otherwise [undefined]. *)
Definition accessor_found (store : Store) (k : string) : bool :=
  match own store !! k with
  | Some _ => false
  | None =>
      match proto store with
      | Some (Rec d) =>
          match record_field d k with
          | Some _ => false
          | None => String.eqb k "__proto__"
          end
      | Some (Builtin f) =>
          if String.eqb k "length" || String.eqb k "name"
             || (String.eqb f "constructor"
                 && existsb (String.eqb k) OBJECT_STATICS)
             || existsb (String.eqb k) FUNCTION_PROTOTYPE
          then false
          else existsb (String.eqb k) RESTRICTED || String.eqb k "__proto__"
      | _ => String.eqb k "__proto__"
      end
  end.

(** The built-in function [Object.prototype[f]] called on the store with one
    argument, [toLocaleString] apart (ECMAScript 2023, 20.1.3 and B.2.2):
    - [hasOwnProperty] and [propertyIsEnumerable] test the own properties;
    - [isPrototypeOf] returns [false] for an argument that is not an object;
    - [valueOf] returns the store, [constructor] an object, [toString] a
      string that is not empty;
    - [__lookupGetter__] and [__lookupSetter__] return the accessor found;
    - [__defineGetter__] and [__defineSetter__] throw, their second argument
      being [undefined]; [Object.prototype] itself is not a function. *)
Definition call_plain (f : string) (store : Store) (arg : option string)
    : Completion :=
  if String.eqb f "hasOwnProperty" || String.eqb f "propertyIsEnumerable"
  then Return (bool_decide (is_Some (own store !! key_of arg)))
  else if String.eqb f "isPrototypeOf" then Return false
  else if String.eqb f "valueOf" || String.eqb f "constructor"
          || String.eqb f "toString"
  then Return true
  else if String.eqb f "__lookupGetter__" || String.eqb f "__lookupSetter__"
  then Return (accessor_found store (key_of arg))
  else Throw.

(** [v.call(store, arg)].  [toLocaleString] calls [store.toString()]; when
    that is [toLocaleString] again the recursion ends in a [RangeError].  A
    value that is not a function of [Object.prototype] is not callable, or
    is [Function.prototype.toString], which throws on a receiver that is not
    a function. *)
Definition call (v : option Value) (store : Store) (arg : option string)
    : Completion :=
  match v with
  | Some (Builtin f) =>
      if String.eqb f "toLocaleString" then
        match read store "toString" with
        | Some (Builtin g) =>
            if String.eqb g "toLocaleString" then Throw
            else call_plain g store None
        | _ => Throw
        end
      else call_plain f store arg
  | _ => Throw
  end.

(** [store.hasOwnProperty(k)]. *)
Definition hasOwnProperty (store : Store) (k : string) : Completion :=
  call (read store "hasOwnProperty") store (Some k).

(** [{ ...prev }]: the own properties, on a new object. *)
Definition spread (prev : Store) : Store := mkStore (own prev) None.

(** [newData[k] = v] on an object whose prototype is [Object.prototype].  An
    own property is overwritten.  Otherwise [__proto__] reaches the setter of
    [Object.prototype], which makes an object the prototype and ignores any
    other value; every other name becomes an own property. *)
Definition assign (newData : Store) (k : string) (v : Value) : Store :=
  if bool_decide (is_Some (own newData !! k))
  then mkStore (<[k := v]> (own newData)) (proto newData)
  else if String.eqb k "__proto__" then
    match v with
    | Rec _ => mkStore (own newData) (Some v)
    | Builtin f =>
        if String.eqb f "__proto__" then newData
        else mkStore (own newData) (Some v)
    | Other _ => newData
    end
  else mkStore (<[k := v]> (own newData)) (proto newData).

(** The state of [App] that the core reads and writes, together with the
    elements that MapDisplay keeps in its container. *)
Record AppState : Type := mkApp {
  dom : Document;
  customizationData : Store;
  selectedRegionId : option string
}.

Definition initial : AppState := mkApp [] empty_store None.

(** [handleDataChange]: [{ ...prev, [id]: data }]. *)
Definition handleDataChange (id : string) (data : RegionData) (st : AppState)
    : AppState :=
  mkApp (dom st)
    (mkStore (<[id := Rec data]> (own (spread (customizationData st)))) None)
    (selectedRegionId st).

(** [handleRegionSelect]. *)
Definition handleRegionSelect (id : option string) (st : AppState) : AppState :=
  mkApp (dom st) (customizationData st) id.

(** [handleFileLoad], followed by the setup effect of MapDisplay on the new
    content: the parsed elements are indexed. *)
Definition handleFileLoad (content : Document) (st : AppState) : AppState :=
  mkApp (indexRegions content) empty_store None.

(** The state update of [setCustomizationData] in [handleRegionIdChange]. *)
Definition move_record (oldId trimmedNewId : string) (prev : Store) : Store :=
  let newData := spread prev in
  let regionInfo := read newData oldId in
  let newData := mkStore (delete oldId (own newData)) (proto newData) in
  match regionInfo with
  | Some info =>
      if truthy regionInfo then assign newData trimmedNewId info else newData
  | None => newData
  end.

(** [handleRegionIdChange]: how the call ends, the operation handed to
    MapDisplay (if any) and the new state of [App].  When the call throws,
    no state has been set. *)
Definition handleRegionIdChange (oldId newId : string) (st : AppState)
    : Completion * option IdChangeOp * AppState :=
  let trimmedNewId := trim newId in
  if String.eqb oldId trimmedNewId then (Return true, None, st)
  else if falsy trimmedNewId || has_space trimmedNewId
  then (Return false, None, st)
  else
    match hasOwnProperty (customizationData st) trimmedNewId with
    | Throw => (Throw, None, st)
    | Return true => (Return false, None, st)
    | Return false =>
        (Return true, Some (mkIdChangeOp oldId trimmedNewId),
         mkApp (dom st)
           (move_record oldId trimmedNewId (customizationData st))
           (Some trimmedNewId))
    end.

(** The layout effect of MapDisplay on [idChangeOp]: the element found by the
    escaped selector receives the new identifier; nothing happens when the
    lookup returns [null] or raises. *)
Definition idChangeEffect (op : IdChangeOp) (doc : Document) : Document :=
  let escapedOldId := escapeId (oldId op) in
  match querySelector ("#" ++ escapedOldId) doc with
  | Some i =>
      match doc !! i with
      | Some element => <[i := set_id (newId op) element]> doc
      | None => doc
      end
  | None => doc
  end.

(** [renameRegion]: the handler and the layout effect it triggers. *)
Definition renameRegion (oldId newId : string) (st : AppState)
    : Completion * AppState :=
  match handleRegionIdChange oldId newId st with
  | (ok, Some op, st') =>
      (ok, mkApp (idChangeEffect op (dom st')) (customizationData st')
             (selectedRegionId st'))
  | (ok, None, st') => (ok, st')
  end.

(** *** The customization panel *)

Definition defaultData : RegionData := mkRegionData "" "" "" (Some "").

(** [{ ...defaultData, ...regionData }]. *)
Definition merge_default (regionData : RegionData) : RegionData :=
  mkRegionData (title regionData) (description regionData) (link regionData)
    (match tooltipImageSrc regionData with
     | Some src => Some src
     | None => tooltipImageSrc defaultData
     end).

(** [selectedData] of [App]: [customizationData[selectedRegionId]]. *)
Definition selectedData (st : AppState) (selectedRegionId : string)
    : option Value :=
  read (customizationData st) selectedRegionId.

(** The initialisation effect of CustomizationPanel.  The panel is mounted
    when [selectedRegionId] is truthy, with [regionData = selectedData]; when
    that is falsy the effect reports the default record. *)
Definition panel_effect (st : AppState) : AppState :=
  match selectedRegionId st with
  | Some id =>
      if falsy id then st
      else
        let regionData := selectedData st id in
        if truthy regionData then st
        else handleDataChange id defaultData st
  | None => st
  end.

(** [handleIdInputChange]: the error shown for the typed identifier. *)
Definition idError (existingIds : list string) (selected newId : string) : bool :=
  falsy (trim newId) || has_space newId
  || (bool_decide (newId ∈ existingIds) && negb (String.eqb newId selected)).

(** [Object.keys(customizationData)]. *)
Definition existingIds (st : AppState) : list string :=
  map fst (map_to_list (own (customizationData st))).

(** The user's actions on the editor (edit mode). *)
Inductive Action : Type :=
| LoadFile (content : Document)
| ClickRegion (i : nat)
| ClickBackground
| EditData (data : RegionData)
| RenameSelected (typed : string).

(** What each action calls.
    - A click on the [i]-th element reaches [handleClick] when that element is
      one of the addressable kinds: [onRegionSelect(target.id)].
    - A click on the background or on the tooltip's close button:
      [onRegionSelect(null)].
    - An edit in the panel: [onDataChange(selectedRegionId, newData)].
    - An identifier typed and left ([handleIdInputChange], then
      [handleIdInputBlur]): [onIdChange(selectedRegionId, currentId.trim())]
      unless an error is shown or the identifier is the selected one. *)
Definition handle (a : Action) (st : AppState) : AppState :=
  match a with
  | LoadFile content => handleFileLoad content st
  | ClickRegion i =>
      match dom st !! i with
      | Some target =>
          if clickable target then handleRegionSelect (Some (id target)) st
          else st
      | None => st
      end
  | ClickBackground => handleRegionSelect None st
  | EditData data =>
      match selectedRegionId st with
      | Some sel => if falsy sel then st else handleDataChange sel data st
      | None => st
      end
  | RenameSelected typed =>
      match selectedRegionId st with
      | Some sel =>
          if falsy sel then st
          else if idError (existingIds st) sel typed || String.eqb typed sel
          then st
          else snd (renameRegion sel (trim typed) st)
      | None => st
      end
  end.

(** One turn of the event loop: the handler, then the panel's effect. *)
Definition step (a : Action) (st : AppState) : AppState :=
  panel_effect (handle a st).

(** The identifiers of the regions selected since the last file was loaded,
    followed through renames. *)
Definition track (a : Action) (before after : AppState) (seen : gset string)
    : gset string :=
  match a with
  | LoadFile _ => ∅
  | RenameSelected _ =>
      match selectedRegionId before, selectedRegionId after with
      | Some old, Some new =>
          if String.eqb old new then seen else {[new]} ∪ (seen ∖ {[old]})
      | _, _ => seen
      end
  | _ =>
      match selectedRegionId after with
      | Some sel => {[sel]} ∪ seen
      | None => seen
      end
  end.

Fixpoint run (acts : list Action) (st : AppState) (seen : gset string)
    : AppState * gset string :=
  match acts with
  | [] => (st, seen)
  | a :: rest => run rest (step a st) (track a st (step a st) seen)
  end.

(** *** Invariants of the event loop *)

(** Every addressable shape has an identifier, and the selected identifier,
    if any, is not empty. *)
Definition named (st : AppState) : Prop :=
  Forall (fun e => clickable e = true -> falsy (id e) = false) (dom st) /\
  (forall sel, selectedRegionId st = Some sel -> falsy sel = false).

(** A store as the editor builds it from identifiers that name no property
    of [Object.prototype]: its prototype is [Object.prototype] and each of
    its own properties holds an annotation under such an identifier. *)
Definition plain_store (store : Store) : Prop :=
  proto store = None /\
  forall k v, own store !! k = Some v ->
              inherited k = false /\ exists d, v = Rec d.

(** An action that brings in no identifier naming a property of
    [Object.prototype]: no element of a loaded file carries one, and none is
    typed as a new identifier. *)
Definition ordinary_action (a : Action) : Prop :=
  match a with
  | LoadFile content => Forall (fun e => inherited (id e) = false) content
  | RenameSelected typed => inherited (trim typed) = false
  | _ => True
  end.

(** What holds between two turns of the event loop when every action is
    ordinary: the store is plain, no element carries an inherited name, the
    selected identifier has a record, and so has every identifier selected
    since the last load. *)
Record invariant (st : AppState) (seen : gset string) : Prop := mkInvariant {
  inv_named : named st;
  inv_plain : plain_store (customizationData st);
  inv_ids : Forall (fun e => inherited (id e) = false) (dom st);
  inv_selected :
    forall sel, selectedRegionId st = Some sel ->
                inherited sel = false /\
                is_Some (own (customizationData st) !! sel);
  inv_seen :
    forall k, k ∈ seen -> is_Some (own (customizationData st) !! k)
}.

(** What a handler leaves for the panel's effect to settle. *)
Definition settles (h : AppState) (seen' : gset string) : Prop :=
  named h /\
  plain_store (customizationData h) /\
  Forall (fun e => inherited (id e) = false) (dom h) /\
  (forall sel, selectedRegionId h = Some sel -> inherited sel = false) /\
  (forall k, k ∈ seen' -> is_Some (own (customizationData h) !! k) \/
                          selectedRegionId h = Some k).

(** *** Sample states *)

(** Two regions with a record each; the second one is selected. *)
Definition sample_state : AppState :=
  mkApp [plain "path" "a"; plain "path" "c"]
    (store_of (<["a" := mkRegionData "A" "" "" None]>
                 (<["c" := mkRegionData "C" "" "" None]> ∅)))
    (Some "c").

(** A file whose only shape has the identifier [constructor], just loaded. *)
Definition constructor_map : AppState :=
  handleFileLoad [plain "path" "constructor"] initial.

End App.

(** ** Interaction: styling and listeners *)

Module Interaction.
Import Js Dom App.

Local Open Scope string_scope.

(** [GlobalTooltipSettings] of types.ts. *)
Record GlobalTooltipSettings : Type := mkSettings {
  tooltipTrigger : Geometry.Trigger;
  tooltipBackgroundColor : string;
  tooltipTextColor : string;
  tooltipTitleFontSize : nat;
  tooltipDescriptionFontSize : nat;
  defaultRegionColor : string;
  defaultRegionHoverColor : string
}.

Inductive Mode : Type := edit | preview.

(** The initial settings of [App]. *)
Definition initial_settings : GlobalTooltipSettings :=
  mkSettings Geometry.hover "#111827" "#FFFFFF" 16 14 "#FBBF24" "#e2a60b".

(** [a || b] on strings. *)
Definition or_else (a b : string) : string := if falsy a then b else a.

(** [data?.title || data?.description || data?.tooltipImageSrc]. *)
Definition has_content (data : option RegionData) : bool :=
  match data with
  | Some d =>
      negb (falsy (title d)) || negb (falsy (description d))
      || match tooltipImageSrc d with
         | Some src => negb (falsy src)
         | None => false
         end
  | None => false
  end.

(** *** The live editor *)

(** The body of the [forEach] of the styling effect of MapDisplay.  The
    closures [applyHover] and [removeHover] are new at each run, so the two
    [removeEventListener] calls remove nothing. *)
Definition style_region (settings : GlobalTooltipSettings) (mode : Mode)
    (selectedRegionId : option string) (element : Element) : Element :=
  let element :=
    match originalStroke element with
    | None =>
        set_originalStroke
          (or_else (stroke (style element))
             (or_else (default "" (strokeAttr element)) "none")) element
    | Some _ => element
    end in
  let isSelected :=
    match mode, selectedRegionId with
    | edit, Some sel => String.eqb (id element) sel
    | _, _ => false
    end in
  let element :=
    set_style (mkStyle (defaultRegionColor settings) (stroke (style element))
                 (strokeWidth (style element)) (cursor (style element)))
      element in
  let element := addEventListener ev_mouseenter L_applyHover element in
  let element := addEventListener ev_mouseleave L_removeHover element in
  let element :=
    if isSelected then
      set_style (mkStyle (fill (style element)) "#3b82f6" "2px"
                   (cursor (style element))) element
    else
      set_style (mkStyle (fill (style element))
                   (default "" (originalStroke element)) "1"
                   (cursor (style element))) element in
  set_style (mkStyle (fill (style element)) (stroke (style element))
               (strokeWidth (style element)) "pointer") element.

(** The styling effect: every element of the addressable kinds. *)
Definition style_regions (settings : GlobalTooltipSettings) (mode : Mode)
    (selectedRegionId : option string) (doc : Document) : Document :=
  map (fun el => if clickable el
                 then style_region settings mode selectedRegionId el
                 else el) doc.

(** The listener effect: every element of the addressable kinds. *)
Definition attach_listeners (doc : Document) : Document :=
  map (fun el =>
         if clickable el then
           addEventListener ev_mouseleave L_handleMouseLeave
             (addEventListener ev_mousemove L_handleMouseMove
                (addEventListener ev_click L_handleClick el))
         else el) doc.

(** The handlers of MapDisplay are given the annotations of the store:
    [customizationData !! id] is the annotation object that
    [customizationData[id]] yields, if it yields one.  What else the read of
    an ordinary store can yield, a function of [Object.prototype], has no
    [title], [description], [tooltipImageSrc] or [link]. *)

(** [handleMouseMove]: the next value of [activeTooltip]. *)
Definition handleMouseMove (settings : GlobalTooltipSettings)
    (customizationData : gmap string RegionData) (target : string)
    (clientX clientY : Q) (activeTooltip : option Geometry.ActiveTooltip)
    : option Geometry.ActiveTooltip :=
  match tooltipTrigger settings with
  | Geometry.hover =>
      let data := customizationData !! target in
      if has_content data
      then Some (Geometry.mkActive target (Some (clientX, clientY)))
      else activeTooltip
  | Geometry.click => activeTooltip
  end.

(** [handleMouseLeave]. *)
Definition handleMouseLeave (settings : GlobalTooltipSettings)
    (activeTooltip : option Geometry.ActiveTooltip)
    : option Geometry.ActiveTooltip :=
  match tooltipTrigger settings with
  | Geometry.hover => None
  | Geometry.click => activeTooltip
  end.

(** [handleClick] in preview mode: the next value of [activeTooltip] and the
    link opened, if any.  (In edit mode the handler calls [onRegionSelect].) *)
Definition handleClick_preview (settings : GlobalTooltipSettings)
    (customizationData : gmap string RegionData) (target : string)
    (activeTooltip : option Geometry.ActiveTooltip)
    : option Geometry.ActiveTooltip * option string :=
  let data := customizationData !! target in
  let activeTooltip :=
    match tooltipTrigger settings with
    | Geometry.click =>
        if has_content data then
          match activeTooltip with
          | Some prev =>
              if String.eqb (Geometry.at_id prev) target
                 && negb (bool_decide (is_Some (Geometry.at_event prev)))
              then None
              else Some (Geometry.mkActive target None)
          | None => Some (Geometry.mkActive target None)
          end
        else None
    | Geometry.hover => activeTooltip
    end in
  (activeTooltip,
   match data with
   | Some d => if falsy (link d) then None else Some (link d)
   | None => None
   end).

(** *** The exported script *)

(** The body of [if (data) { ... }] of the export's [forEach]. *)
Definition make_interactive (settings : GlobalTooltipSettings)
    (region : Element) : Element :=
  let region := add_class "map-region" region in
  let region :=
    set_style (mkStyle (or_else (defaultRegionColor settings) "none")
                 (stroke (style region)) (strokeWidth (style region))
                 (cursor (style region))) region in
  let region :=
    match tooltipTrigger settings with
    | Geometry.click => addEventListener ev_click L_export_click_tooltip region
    | Geometry.hover =>
        addEventListener ev_click L_export_open_link
          (addEventListener ev_mouseleave L_export_hover_hide
             (addEventListener ev_mousemove L_export_hover_tooltip region))
    end in
  let region := addEventListener ev_mouseenter L_export_enter_fill region in
  addEventListener ev_mouseleave L_export_leave_fill region.

(** The object that the exported script holds in [customizationData]: the
    object literal that [JSON.stringify] wrote.  Each entry of the store is
    an own property of it, except an entry named [__proto__]: in an object
    literal the member [__proto__] sets the prototype of the object. *)
Definition export_store (customizationData : gmap string RegionData) : Store :=
  mkStore (Rec <$> delete "__proto__" customizationData)
    (Rec <$> customizationData !! "__proto__").

(** [allRegions.forEach(region => ...)] of the exported script: the
    identifier is assigned first, [customizationData[regionId]] is read and
    tested. *)
Fixpoint export_regions (settings : GlobalTooltipSettings)
    (customizationData : gmap string RegionData) (idCounter : nat)
    (doc : Document) : Document :=
  match doc with
  | [] => []
  | region :: rest =>
      if clickable region then
        let '(region, idCounter) :=
          if falsy (id region)
          then (set_id ("map-region-" ++ of_nat idCounter) region, S idCounter)
          else (region, idCounter) in
        let regionId := id region in
        let data := read (export_store customizationData) regionId in
        (if truthy data then make_interactive settings region else region)
          :: export_regions settings customizationData idCounter rest
      else region :: export_regions settings customizationData idCounter rest
  end.

(** What the loop does to a region once it has its identifier: the test
    [if (data)] and its body. *)
Definition data_gate (settings : GlobalTooltipSettings)
    (customizationData : gmap string RegionData) (region : Element) : Element :=
  if clickable region then
    if truthy (read (export_store customizationData) (id region))
    then make_interactive settings region
    else region
  else region.

Definition export_setup (settings : GlobalTooltipSettings)
    (customizationData : gmap string RegionData) (doc : Document) : Document :=
  export_regions settings customizationData 0 doc.

End Interaction.

(** ** The colour shade helper of App *)

Module Color.
Import Js.

Local Open Scope string_scope.
Local Open Scope Z_scope.

(** The value of a hexadecimal digit. *)
Definition hex_value (c : ascii) : option Z :=
  let n := Z.of_nat (code c) in
  if (48 <=? n) && (n <=? 57) then Some (n - 48)
  else if (65 <=? n) && (n <=? 70) then Some (n - 55)
  else if (97 <=? n) && (n <=? 102) then Some (n - 87)
  else None.

(** The longest prefix of hexadecimal digits, read from the left; [None] when
    it is empty. *)
Fixpoint hex_prefix (acc : option Z) (s : string) : option Z :=
  match s with
  | String c s' =>
      match hex_value c with
      | Some d => hex_prefix (Some (16 * default 0 acc + d)) s'
      | None => acc
      end
  | EmptyString => acc
  end.

Definition strip_0x (s : string) : string :=
  match s with
  | String z (String x s') =>
      if Ascii.eqb z "0"%char && (Ascii.eqb x "x"%char || Ascii.eqb x "X"%char)
      then s' else s
  | _ => s
  end.

(** [parseInt(s, 16)]; [None] is NaN.  The digits are read as an exact
    integer, as [parseInt] reads up to thirteen hexadecimal digits (below
    2^53); beyond that the Number that [parseInt] returns is rounded. *)
Definition parseInt16 (s : string) : option Z :=
  let s := trimStart s in
  let '(sign, s) :=
    match s with
    | String c s' =>
        if Ascii.eqb c "-"%char then (-1, s')
        else if Ascii.eqb c "+"%char then (1, s')
        else (1, s)
    | EmptyString => (1, s)
    end in
  option_map (Z.mul sign) (hex_prefix None (strip_0x s)).

(** ToInt32, the conversion that the bit operators apply to their operands;
    NaN becomes 0. *)
Definition to_int32 (n : option Z) : Z :=
  match n with
  | Some n => (n + 2 ^ 31) mod 2 ^ 32 - 2 ^ 31
  | None => 0
  end.

(** [a >> k] and [a & b]. *)
Definition shr (a : option Z) (k : Z) : Z := Z.shiftr (to_int32 a) (k mod 32).
Definition band (a b : Z) : Z := Z.land (to_int32 (Some a)) (to_int32 (Some b)).

(** [Math.round]: the nearest integer, halves towards +Infinity.  The
    argument [2.55 * percent] is taken as the exact product; for [percent =
    -10], the only value the program passes, the binary64 product is exactly
    -25.5 as well. *)
Definition round (q : Q) : Z := Qfloor (q + (1 # 2))%Q.

Definition hex_digit (d : Z) : string :=
  String (ascii_of_nat (Z.to_nat (if d <? 10 then 48 + d else 87 + d)))
    EmptyString.

Fixpoint to_hex (fuel : nat) (n : Z) : string :=
  match fuel with
  | O => EmptyString
  | S fuel' =>
      if n <? 16 then hex_digit n
      else (to_hex fuel' (n / 16) ++ hex_digit (n mod 16))%string
  end.

(** [n.toString(16)] for an integer. *)
Definition toString16 (n : Z) : string :=
  if n <? 0
  then ("-" ++ to_hex (S (Z.to_nat (Z.log2 (- n)))) (- n))%string
  else to_hex (S (Z.to_nat (Z.log2 n))) n.

(** [s.padStart(2, '0')]. *)
Definition padStart2 (s : string) : string :=
  match String.length s with
  | 0%nat => ("00" ++ s)%string
  | 1%nat => ("0" ++ s)%string
  | _ => s
  end.

(** [hex.startsWith('#') ? hex.slice(1) : hex]. *)
Definition strip_hash (hex : string) : string :=
  match hex with
  | String c rest => if Ascii.eqb c "#"%char then rest else hex
  | EmptyString => hex
  end.

(** The three channels that [adjustColorShade] computes. *)
Definition shade_channels (hex : string) (percent : Z) : Z * Z * Z :=
  let color := strip_hash hex in
  let color :=
    if (String.length color =? 3)%nat
    then map_chars (fun char => String char (String char EmptyString)) color
    else color in
  let num := parseInt16 color in
  let amount := round ((255 # 100) * inject_Z percent) in
  let r := Z.max 0 (Z.min 255 (shr num 16 + amount)) in
  let g := Z.max 0 (Z.min 255 (band (shr num 8) 255 + amount)) in
  let b := Z.max 0 (Z.min 255 (band (to_int32 num) 255 + amount)) in
  (r, g, b).

(** [adjustColorShade]. *)
Definition adjustColorShade (hex : string) (percent : Z) : string :=
  let '(r, g, b) := shade_channels hex percent in
  ("#" ++ padStart2 (toString16 r) ++ padStart2 (toString16 g)
       ++ padStart2 (toString16 b))%string.

(** *** The derivation in the specification's words *)

(** A colour of three or six hexadecimal digits, with or without [#]. *)
Definition is_hex_color (hex : string) : bool :=
  let color := strip_hash hex in
  ((String.length color =? 3)%nat || (String.length color =? 6)%nat)
  && forallb (fun c => bool_decide (is_Some (hex_value c)))
       (list_ascii_of_string color).

(** Shorthand expansion by digit doubling. *)
Definition expand (color : string) : string :=
  match color with
  | String a (String b (String c EmptyString)) =>
      String a (String a (String b (String b (String c (String c EmptyString)))))
  | _ => color
  end.

(** The channel written by two digits. *)
Definition channel (hi lo : ascii) : Z :=
  16 * default 0 (hex_value hi) + default 0 (hex_value lo).

Definition clamp (v : Z) : Z := if v <? 0 then 0 else if 255 <? v then 255 else v.

(** Two hexadecimal digits, lower case. *)
Definition hex2 (v : Z) : string := (hex_digit (v / 16) ++ hex_digit (v mod 16))%string.

Definition spec_shade (hex : string) (percent : Z) : string :=
  let shift := round ((255 # 100) * inject_Z percent) in
  match expand (strip_hash hex) with
  | String r1 (String r2 (String g1 (String g2 (String b1 (String b2 EmptyString))))) =>
      ("#" ++ hex2 (clamp (channel r1 r2 + shift))
           ++ hex2 (clamp (channel g1 g2 + shift))
           ++ hex2 (clamp (channel b1 b2 + shift)))%string
  | _ => EmptyString
  end.

End Color.

(** ** The export generator: embedding the SVG text in the script *)

Module ExportService.
Import Js.

Local Open Scope string_scope.

(** The interpolated expression of [generateEmbedCode]: four global
    replacements, in this order: backslashes are doubled, a backslash is put
    before each backtick and before each [${], and each [</script>], in any
    case of its letters, becomes [<\/script>]. *)
Definition escapeSvgContent (svgContent : string) : string :=
  replace_all true "</script>" ("<" ++ backslash ++ "/script>")
    (replace_all false "${" (backslash ++ "${")
       (replace_all false backtick (backslash ++ backtick)
          (replace_all false backslash (backslash ++ backslash) svgContent))).

(** *** How the exported document reads the escaped text *)

Definition LF : ascii := ascii_of_nat 10.
Definition CR : ascii := ascii_of_nat 13.

(** The character that a single-character escape [\c] of a template literal
    stands for; [None] for the numeric escapes ([\x], [\u] and digits), which
    are not modelled. *)
Definition escaped_char (c : ascii) : option ascii :=
  let n := code c in
  if (n =? 110)%nat then Some LF                       (* \n *)
  else if (n =? 116)%nat then Some (ascii_of_nat 9)    (* \t *)
  else if (n =? 114)%nat then Some CR                  (* \r *)
  else if (n =? 98)%nat then Some (ascii_of_nat 8)     (* \b *)
  else if (n =? 102)%nat then Some (ascii_of_nat 12)   (* \f *)
  else if (n =? 118)%nat then Some (ascii_of_nat 11)   (* \v *)
  else if ((n =? 120) || (n =? 117) || ((48 <=? n) && (n <=? 57)))%nat
  then None
  else Some c.

(** The value of a template literal whose body, between the two backticks, is
    [s].  [None]: the body does not reach the end of [s] as one literal part
    (an unescaped backtick closes the literal, an unescaped [${] opens a
    substitution), or it uses an escape that is not modelled.  A line
    terminator after a backslash is a line continuation; CR and CR LF become
    LF. *)
Fixpoint template_value (s : string) : option string :=
  match s with
  | EmptyString => Some EmptyString
  | String c s' =>
      if Ascii.eqb c (ascii_of_nat 92) then
        match s' with
        | String d s'' =>
            if Ascii.eqb d LF then template_value s''
            else if Ascii.eqb d CR then
              match s'' with
              | String e s''' =>
                  if Ascii.eqb e LF then template_value s'''
                  else template_value s''
              | EmptyString => Some EmptyString
              end
            else
              match escaped_char d with
              | Some v => option_map (String v) (template_value s'')
              | None => None
              end
        | EmptyString => None
        end
      else if Ascii.eqb c (ascii_of_nat 96) then None
      else if Ascii.eqb c "$"%char && starts_with false "{" s' then None
      else if Ascii.eqb c CR then
        match s' with
        | String e s'' =>
            if Ascii.eqb e LF then option_map (String LF) (template_value s'')
            else option_map (String LF) (template_value s')
        | EmptyString => Some (String LF EmptyString)
        end
      else option_map (String c) (template_value s')
  end.

Fixpoint drop (n : nat) (s : string) : string :=
  match n, s with
  | S k, String _ s' => drop k s'
  | _, _ => s
  end.

(** The characters after which [</script] is an end tag for the HTML
    tokenizer: TAB, LF, FF, CR (read as LF), SPACE, [/] and [>]. *)
Definition ends_tag_name (c : ascii) : bool :=
  let n := code c in
  ((n =? 9) || (n =? 10) || (n =? 12) || (n =? 13) || (n =? 32) || (n =? 47)
   || (n =? 62))%nat.

(** The text contains [</script], in any case of its letters, followed by a
    character that ends the tag name.  That is where the HTML tokenizer ends
    a script element, unless a comment with a start tag of a script element
    has taken it to the double escaped states; [Tokenizer.ends_script]
    follows the states of the tokenizer, and the two agree on a text without
    such a start tag. *)
Fixpoint closes_script_block (s : string) : bool :=
  match s with
  | EmptyString => false
  | String _ s' =>
      (starts_with true "</script" s
       && match drop 8 s with
          | String d _ => ends_tag_name d
          | EmptyString => false
          end)
      || closes_script_block s'
  end.


(** *** The escaping as one pass (auxiliary definitions) *)

(** The four replacements, read as one pass over the text: a match of
    [</script>] (in any case) is rewritten and passed over; a backslash is
    doubled; a backslash is put before a backtick and before the [$] of
    [${]; every other character is copied. *)
Fixpoint escape_pass (skip : nat) (s : string) : string :=
  match s with
  | EmptyString => EmptyString
  | String c s' =>
      match skip with
      | S k => escape_pass k s'
      | O =>
          if starts_with true "</script>" s
          then "<" ++ backslash ++ "/script>" ++ escape_pass 8 s'
          else if Ascii.eqb c (ascii_of_nat 92)
          then backslash ++ backslash ++ escape_pass 0 s'
          else if Ascii.eqb c (ascii_of_nat 96)
          then backslash ++ backtick ++ escape_pass 0 s'
          else if Ascii.eqb c "$"%char && starts_with false "{" s'
          then backslash ++ "$" ++ escape_pass 0 s'
          else String c (escape_pass 0 s')
      end
  end.

(** A text that the embedding reproduces: it has no carriage return, and
    wherever it has [</script>] up to case, it has it in lower case. *)
Fixpoint plain_text (s : string) : bool :=
  match s with
  | EmptyString => true
  | String c s' =>
      negb (Ascii.eqb c CR)
      && implb (starts_with true "</script>" s) (starts_with false "</script>" s)
      && plain_text s'
  end.

(** The value of the literal that holds the escaped text: the text with
    each [</script>] in lower case and each CR or CR LF read as LF. *)
Fixpoint literal_value (skip : nat) (s : string) : string :=
  match s with
  | EmptyString => EmptyString
  | String c s' =>
      match skip with
      | S k => literal_value k s'
      | O =>
          if starts_with true "</script>" s
          then "</script>" ++ literal_value 8 s'
          else if Ascii.eqb c CR
          then String LF
                 (literal_value
                    (if starts_with false (String LF EmptyString) s'
                     then 1 else 0) s')
          else String c (literal_value 0 s')
      end
  end.

(** Passes 1 and 2 on one character. *)
Definition passes12 (c : ascii) : string :=
  if Ascii.eqb c (ascii_of_nat 92) then backslash ++ backslash
  else if Ascii.eqb c (ascii_of_nat 96) then backslash ++ backtick
  else String c EmptyString.

(** Passes 1 to 3. *)
Fixpoint passes123 (s : string) : string :=
  match s with
  | EmptyString => EmptyString
  | String c s' =>
      if Ascii.eqb c "$"%char && starts_with false "{" s'
      then backslash ++ "$" ++ passes123 s'
      else passes12 c ++ passes123 s'
  end.

(** A character of a pattern that no escaped character matches, whatever the
    case. *)
Definition inert (p : ascii) : bool :=
  negb (Ascii.eqb (lower p) (ascii_of_nat 92))
  && negb (Ascii.eqb (lower p) (ascii_of_nat 96))
  && negb (Ascii.eqb (lower p) "$"%char).

Fixpoint inert_pattern (pat : string) : bool :=
  match pat with
  | EmptyString => true
  | String p pat' => inert p && inert_pattern pat'
  end.

Definition script_close : string := "</script>".
Definition script_close_escaped : string := "<" ++ backslash ++ "/script>".

End ExportService.
(* ===================================================================== *)
(** * Part I, continued: more of the program *)
(* ===================================================================== *)

From Stdlib Require DecimalNat.

(** ** The tooltip as a state machine: editor, preview and exported page *)

Module TooltipState.
Import Js Dom App Interaction.

Local Open Scope string_scope.

#[export] Instance RegionData_eq_dec : EqDecision RegionData.
Proof. solve_decision. Defined.

#[export] Instance Value_eq_dec : EqDecision Value.
Proof. solve_decision. Defined.

#[export] Instance Store_eq_dec : EqDecision Store.
Proof. solve_decision. Defined.

(** *** MapDisplay *)

(** The effect of MapDisplay that translates [selectedRegionId] into
    [activeTooltip]; its dependencies are [selectedRegionId],
    [globalSettings.tooltipTrigger], [customizationData] and [mode]. *)
Definition selection_effect (mode : Mode) (settings : GlobalTooltipSettings)
    (selectedRegionId : option string)
    (customizationData : gmap string RegionData)
    (activeTooltip : option Geometry.ActiveTooltip)
    : option Geometry.ActiveTooltip :=
  match mode, tooltipTrigger settings with
  | edit, Geometry.click =>
      match selectedRegionId with
      | Some sel =>
          if falsy sel then None
          else
            let data := customizationData !! sel in
            if has_content data then Some (Geometry.mkActive sel None)
            else None
      | None => None
      end
  | _, _ =>
      match activeTooltip with
      | Some active =>
          match Geometry.at_event active with
          | Some _ => activeTooltip
          | None => None
          end
      | None => activeTooltip
      end
  end.

(** What the pointer does on the map: a click on an addressable element that
    carries [id], a move over it, the pointer leaving it, a click on the
    background (the container or the svg element itself) and a click on the
    tooltip's close button. *)
Inductive PointerEvent : Type :=
| Click (id : string)
| Move (id : string) (x y : Q)
| Leave (id : string)
| Background
| Close.

(** Preview mode: the handlers of MapDisplay change [activeTooltip] only.
    The close button exists with the click trigger only. *)
Definition preview_event (settings : GlobalTooltipSettings)
    (customizationData : gmap string RegionData) (ev : PointerEvent)
    (activeTooltip : option Geometry.ActiveTooltip)
    : option Geometry.ActiveTooltip :=
  match ev with
  | Click id => fst (handleClick_preview settings customizationData id activeTooltip)
  | Move id x y => handleMouseMove settings customizationData id x y activeTooltip
  | Leave _ => handleMouseLeave settings activeTooltip
  | Background => None
  | Close =>
      match tooltipTrigger settings with
      | Geometry.click => None
      | Geometry.hover => activeTooltip
      end
  end.

Definition preview_run (settings : GlobalTooltipSettings)
    (customizationData : gmap string RegionData) (evs : list PointerEvent)
    (activeTooltip : option Geometry.ActiveTooltip)
    : option Geometry.ActiveTooltip :=
  fold_left (fun active ev => preview_event settings customizationData ev active)
    evs activeTooltip.

(** Edit mode: the state of [App] and the tooltip of MapDisplay. *)
Record MapView : Type := mkView {
  app : AppState;
  active : option Geometry.ActiveTooltip
}.

(** What happens in the editor: an action that [App] handles (a click on a
    region or on the background reaches it through [onRegionSelect]), a click
    on the tooltip's close button ([onRegionSelect(null)]), a move of the
    pointer over the [i]-th element, the pointer leaving an element. *)
Inductive EditorEvent : Type :=
| Do (a : Action)
| CloseTooltip
| PointerMove (i : nat) (x y : Q)
| PointerLeave.

(** The annotations that MapDisplay finds in the [customizationData] of
    [App]: for each identifier, [customizationData[id]] when that is an
    annotation object.  From any other value that a read returns the
    handlers get neither a title, nor a description, nor an image. *)
Definition annotations (store : Store) : gmap string RegionData :=
  let records := omap (fun v => as_record (Some v)) (own store) in
  match proto store with
  | Some (Rec d) =>
      if bool_decide (is_Some (own store !! "__proto__")) then records
      else <["__proto__" := d]> records
  | _ => records
  end.

(** The dependencies of the selection effect that a turn can change. *)
Definition deps (st : AppState) : option string * Store :=
  (selectedRegionId st, customizationData st).

(** The renders that follow a turn of [App]: the selection effect runs when
    one of its dependencies has changed. *)
Definition rerender (settings : GlobalTooltipSettings) (before after : AppState)
    (activeTooltip : option Geometry.ActiveTooltip)
    : option Geometry.ActiveTooltip :=
  if decide (deps before = deps after) then activeTooltip
  else selection_effect edit settings (selectedRegionId after)
         (annotations (customizationData after)) activeTooltip.

Definition editor_event (settings : GlobalTooltipSettings) (ev : EditorEvent)
    (v : MapView) : MapView :=
  match ev with
  | Do a =>
      let st := step a (app v) in
      mkView st (rerender settings (app v) st (active v))
  | CloseTooltip =>
      let st := step ClickBackground (app v) in
      mkView st (rerender settings (app v) st (active v))
  | PointerMove i x y =>
      match dom (app v) !! i with
      | Some target =>
          if clickable target
          then mkView (app v)
                 (handleMouseMove settings
                    (annotations (customizationData (app v)))
                    (id target) x y (active v))
          else v
      | None => v
      end
  | PointerLeave => mkView (app v) (handleMouseLeave settings (active v))
  end.

(** The component is mounted: every effect runs once. *)
Definition mount (settings : GlobalTooltipSettings) (st : AppState) : MapView :=
  mkView st
    (selection_effect edit settings (selectedRegionId st)
       (annotations (customizationData st)) None).

Definition editor_run (settings : GlobalTooltipSettings)
    (evs : list EditorEvent) (v : MapView) : MapView :=
  fold_left (fun v ev => editor_event settings ev v) evs v.

(** *** The exported page *)

Definition dquote : string := String (ascii_of_nat 34) EmptyString.

(** [n || fallback] for a number. *)
Definition nonzero_or (n fallback : nat) : nat :=
  if (n =? 0)%nat then fallback else n.

(** The markup that the listeners of the exported script build for a
    record. *)
Definition contentHTML (settings : GlobalTooltipSettings) (data : RegionData)
    : string :=
  let contentHTML := "" in
  let contentHTML :=
    match tooltipImageSrc data with
    | Some src =>
        if falsy src then contentHTML
        else contentHTML ++ "<img src=" ++ dquote ++ src ++ dquote
               ++ " alt=" ++ dquote ++ or_else (title data) "" ++ dquote ++ ">"
    | None => contentHTML
    end in
  let contentHTML :=
    if falsy (title data) then contentHTML
    else contentHTML ++ "<h3 style=" ++ dquote ++ "font-size:"
           ++ of_nat (nonzero_or (tooltipTitleFontSize settings) 16) ++ "px;"
           ++ dquote ++ ">" ++ title data ++ "</h3>" in
  if falsy (description data) then contentHTML
  else contentHTML ++ "<p style=" ++ dquote ++ "font-size:"
         ++ of_nat (nonzero_or (tooltipDescriptionFontSize settings) 14)
         ++ "px;" ++ dquote ++ ">" ++ description data ++ "</p>".

(** The tooltip of the exported page: whether it is displayed, the variable
    [activeClickRegionId], the class [tooltip-click], whether the close
    button is displayed, the content, the cursor and the link that a click on
    the tooltip opens. *)
Record ExportTip : Type := mkTip {
  display : bool;
  activeClickRegionId : option string;
  tooltip_click : bool;
  closeDisplay : bool;
  innerHTML : string;
  tipCursor : string;
  onclick : option string
}.

(** The page as loaded: the style sheet hides the tooltip and the button. *)
Definition tip_initial : ExportTip := mkTip false None false false "" "" None.

Definition hideTooltip (t : ExportTip) : ExportTip :=
  mkTip false None false (closeDisplay t) (innerHTML t) (tipCursor t)
    (onclick t).

(** The click listener of a region, click trigger. *)
Definition export_click_listener (settings : GlobalTooltipSettings)
    (regionId : string) (data : RegionData) (t : ExportTip) : ExportTip :=
  let contentHTML := contentHTML settings data in
  if falsy (trim contentHTML) then t
  else if bool_decide (activeClickRegionId t = Some regionId) then hideTooltip t
  else
    mkTip true (Some regionId) true true contentHTML
      (if falsy (link data) then "default" else "pointer")
      (if falsy (link data) then None else Some (link data)).

(** [if (activeClickRegionId)]. *)
Definition click_active (t : ExportTip) : bool :=
  match activeClickRegionId t with
  | Some a => negb (falsy a)
  | None => false
  end.

(** The mousemove listener of a region, hover trigger. *)
Definition export_mousemove_listener (settings : GlobalTooltipSettings)
    (data : RegionData) (t : ExportTip) : ExportTip :=
  if click_active t then t
  else
    let contentHTML := contentHTML settings data in
    if falsy (trim contentHTML) then t
    else mkTip true (activeClickRegionId t) false false contentHTML "default"
           None.

(** The first mouseleave listener of a region, hover trigger. *)
Definition export_mouseleave_listener (t : ExportTip) : ExportTip :=
  if click_active t then t
  else mkTip false (activeClickRegionId t) (tooltip_click t) (closeDisplay t)
         (innerHTML t) (tipCursor t) (onclick t).

(** An event on the exported page.  The regions are those of the indexed
    document; a region has listeners when the store has a record for its
    identifier.  A click on a region never reaches [hideTooltip]: the click
    listener of the click trigger stops the propagation, and the listener of
    the svg element acts on clicks whose target is the svg element itself
    ([Background]).  The close button can be clicked when it is displayed
    inside a displayed tooltip. *)
Definition export_event (settings : GlobalTooltipSettings)
    (customizationData : gmap string RegionData) (ev : PointerEvent)
    (t : ExportTip) : ExportTip :=
  match ev with
  | Click regionId =>
      match customizationData !! regionId, tooltipTrigger settings with
      | Some data, Geometry.click =>
          export_click_listener settings regionId data t
      | _, _ => t
      end
  | Move regionId _ _ =>
      match customizationData !! regionId, tooltipTrigger settings with
      | Some data, Geometry.hover => export_mousemove_listener settings data t
      | _, _ => t
      end
  | Leave regionId =>
      match customizationData !! regionId, tooltipTrigger settings with
      | Some data, Geometry.hover => export_mouseleave_listener t
      | _, _ => t
      end
  | Background => hideTooltip t
  | Close => if display t && closeDisplay t then hideTooltip t else t
  end.

Definition export_run (settings : GlobalTooltipSettings)
    (customizationData : gmap string RegionData) (evs : list PointerEvent)
    (t : ExportTip) : ExportTip :=
  fold_left (fun t ev => export_event settings customizationData ev t) evs t.

(** The two pages show the same tooltip: it is displayed on both or on
    neither, and when it is displayed the exported page shows the markup of
    the record of the region that the preview's tooltip belongs to. *)
Definition same_tooltip (settings : GlobalTooltipSettings)
    (customizationData : gmap string RegionData) (t : ExportTip)
    (activeTooltip : option Geometry.ActiveTooltip) : Prop :=
  display t = bool_decide (is_Some activeTooltip) /\
  forall a, activeTooltip = Some a ->
    exists data, customizationData !! Geometry.at_id a = Some data /\
                 has_content (Some data) = true /\
                 innerHTML t = contentHTML settings data.

(** What relates the variables of the two pages beyond what they show. *)
Definition tip_related (settings : GlobalTooltipSettings) (t : ExportTip)
    (activeTooltip : option Geometry.ActiveTooltip) : Prop :=
  match tooltipTrigger settings with
  | Geometry.click =>
      activeClickRegionId t = Geometry.at_id <$> activeTooltip /\
      (display t = true -> closeDisplay t = true) /\
      (forall a, activeTooltip = Some a -> Geometry.at_event a = None)
  | Geometry.hover =>
      activeClickRegionId t = None /\ closeDisplay t = false /\
      (forall a, activeTooltip = Some a -> is_Some (Geometry.at_event a))
  end.

(** Every event of the sequence that happens on a region happens on a region
    whose record has content to show. *)
Definition on_content (customizationData : gmap string RegionData)
    (evs : list PointerEvent) : Prop :=
  Forall (fun ev =>
            match ev with
            | Click id | Move id _ _ | Leave id =>
                has_content (customizationData !! id) = true
            | _ => True
            end) evs.

(** The tooltip of the preview fits the trigger: a click tooltip carries no
    pointer position, a hover tooltip carries one; and its region has
    content. *)
Definition fits_trigger (settings : GlobalTooltipSettings)
    (customizationData : gmap string RegionData)
    (activeTooltip : option Geometry.ActiveTooltip) : Prop :=
  forall a, activeTooltip = Some a ->
    has_content (customizationData !! Geometry.at_id a) = true /\
    match tooltipTrigger settings with
    | Geometry.click => Geometry.at_event a = None
    | Geometry.hover => is_Some (Geometry.at_event a)
    end.

End TooltipState.
(** ** Tooltip geometry: one more scene *)

Module GeometrySamples.
Import Geometry.

(** The map fills an unscrolled window of 1000 x 800; the pointer is at
    (950, 100) and the tooltip measures 100 x 40. *)
Definition scene_aligned : Scene :=
  mkScene
    (mkRegionGeom (mkSVGRect 0 0 10 10) (mkDOMRect 0 0 1000 800)
       (mkViewBox 1000 800))
    (mkDOMRect 0 0 1000 800) 100 40 950 100 0 0 1000 800.

End GeometrySamples.
(** ** Identifiers of the document *)

Module Identifiers.
Import Js Dom.

Local Open Scope string_scope.

(** The identifiers that the elements of a document carry, in document
    order; elements without an identifier contribute nothing. *)
Definition own_ids (doc : Document) : list string :=
  filter (fun i => i <> "") (map id doc).

(** An identifier that could be taken for a generated one. *)
Definition looks_generated (i : string) : bool :=
  starts_with false "map-region-" i.

End Identifiers.
(** ** The export generator: embedding the annotation data *)

Module ExportData.
Import Js Dom App ExportService.

Local Open Scope string_scope.

Definition dquote : string := String (ascii_of_nat 34) EmptyString.
Definition newline : string := String LF EmptyString.

(** A hexadecimal digit, lower case. *)
Definition hex_char (n : nat) : ascii :=
  ascii_of_nat (if (n <? 10)%nat then 48 + n else 87 + n).

(** [JSON.stringify] on one code unit of a string (QuoteJSONString): the
    quote and the backslash take a backslash, the control characters below
    32 take their short escape or [\u00XX], every other code unit below 256
    is copied. *)
Definition json_char (c : ascii) : string :=
  let n := code c in
  if (n =? 8)%nat then backslash ++ "b"
  else if (n =? 9)%nat then backslash ++ "t"
  else if (n =? 10)%nat then backslash ++ "n"
  else if (n =? 12)%nat then backslash ++ "f"
  else if (n =? 13)%nat then backslash ++ "r"
  else if (n =? 34)%nat then backslash ++ dquote
  else if (n =? 92)%nat then backslash ++ backslash
  else if (n <? 32)%nat
  then backslash ++ "u00"
         ++ String (hex_char (n / 16)) (String (hex_char (n mod 16)) EmptyString)
  else String c EmptyString.

(** [JSON.stringify(s)] for a string. *)
Definition json_quote (s : string) : string :=
  dquote ++ map_chars json_char s ++ dquote.

(** [parts.join(sep)]. *)
Fixpoint join (sep : string) (parts : list string) : string :=
  match parts with
  | [] => ""
  | [p] => p
  | p :: rest => p ++ sep ++ join sep rest
  end.

(** [JSON.stringify] on an object whose members are given with their values
    already serialized (SerializeJSONObject with a gap): [indent] is the
    indentation of the members, [stepback] that of the closing brace. *)
Definition json_object (indent stepback : string)
    (members : list (string * string)) : string :=
  match members with
  | [] => "{}"
  | _ =>
      "{" ++ newline ++ indent
        ++ join ("," ++ newline ++ indent)
             (map (fun m => json_quote (fst m) ++ ": " ++ snd m) members)
        ++ newline ++ stepback ++ "}"
  end.

(** The members of a record, in the order in which the panel creates them;
    a property that is [undefined] is left out. *)
Definition region_members (d : RegionData) : list (string * string) :=
  [("title", json_quote (title d));
   ("description", json_quote (description d));
   ("link", json_quote (link d))]
  ++ match tooltipImageSrc d with
     | Some src => [("tooltipImageSrc", json_quote src)]
     | None => []
     end.

(** [JSON.stringify(customizationData, null, 2)], the entries of the store
    being given in the order of its keys. *)
Definition cleanCustomizationData (entries : list (string * RegionData))
    : string :=
  json_object "  " ""
    (map (fun e => (fst e, json_object "    " "  " (region_members (snd e))))
       entries).

(** The line of the exported script that holds the data. *)
Definition data_line (entries : list (string * RegionData)) : string :=
  "            const customizationData = " ++ cleanCustomizationData entries
    ++ ";".

(** The text contains [</script], in any case of its letters, followed by a
    space, a slash or [>]. *)
Fixpoint printable_end_tag (s : string) : bool :=
  match s with
  | EmptyString => false
  | String _ s' =>
      (starts_with true "</script" s
       && match drop 8 s with
          | String d _ =>
              ((code d =? 32) || (code d =? 47) || (code d =? 62))%nat
          | EmptyString => false
          end)
      || printable_end_tag s'
  end.

(** A pattern character that matches only characters that [JSON.stringify]
    copies, and that does not match the quote. *)
Definition json_quiet (p : ascii) : bool :=
  forallb
    (fun n =>
       let c := ascii_of_nat n in
       implb (Ascii.eqb (lower p) (lower c))
         (String.eqb (json_char c) (String c EmptyString)
          && negb (Ascii.eqb c (ascii_of_nat 34))))
    (seq 0 256).

Fixpoint json_quiet_pattern (pat : string) : bool :=
  match pat with
  | EmptyString => true
  | String p pat' => json_quiet p && json_quiet_pattern pat'
  end.

(** The strings of a record. *)
Definition region_strings (d : RegionData) : list string :=
  [title d; description d; link d]
  ++ match tooltipImageSrc d with Some src => [src] | None => [] end.

(** [a] occurs in [b]. *)
Definition occurs_in (a b : string) : Prop :=
  exists pre post : string, b = pre ++ a ++ post.

End ExportData.
(** ** The region labels of the editor *)

Module Labels.
Import Js Dom App Interaction.

Local Open Scope string_scope.

(** The descendants of the svg element as the label effect sees them: the
    elements of the loaded document, each with what its [getBBox()] returns
    ([None] when the call raises), and the text elements that the effect
    creates, with their [x] and [y] attributes and their text content. *)
Inductive Node : Type :=
| Shape (e : Element) (box : option Geometry.SVGRect)
| Label (x y : Q) (textContent : string).

(** The elements that [svg.querySelectorAll('.editor-region-label')]
    selects. *)
Definition is_label (n : Node) : bool :=
  match n with
  | Shape e _ => bool_decide ("editor-region-label" ∈ classList e)
  | Label _ _ _ => true
  end.

(** [data?.title || id]. *)
Definition labelText (customizationData : gmap string RegionData)
    (id : string) : string :=
  match customizationData !! id with
  | Some data => or_else (title data) id
  | None => id
  end.

(** The body of the [forEach]: the text element appended for an element, if
    any. *)
Definition label_of (customizationData : gmap string RegionData) (n : Node)
    : option Node :=
  match n with
  | Shape element box =>
      if clickable element then
        let id := id element in
        if falsy id then None
        else
          let labelText := labelText customizationData id in
          match box with
          | Some bbox =>
              if ((Geometry.bwidth bbox >? JsNum.Fin 0)
                  || (Geometry.bheight bbox >? JsNum.Fin 0))%num
              then Some (Label (Geometry.bx bbox + Geometry.bwidth bbox / 2)
                           (Geometry.by_ bbox + Geometry.bheight bbox / 2)
                           labelText)
              else None
          | None => None
          end
      else None
  | Label _ _ _ => None
  end.

(** The label effect: the existing labels are removed; in edit mode, when
    [showRegionLabels] is set, a label is appended for each addressable
    element, in document order. *)
Definition labels_effect (mode : Mode) (showRegionLabels : bool)
    (customizationData : gmap string RegionData) (svg : list Node)
    : list Node :=
  let svg := filter (fun n => is_label n = false) svg in
  match mode with
  | edit =>
      if showRegionLabels
      then (svg ++ omap (label_of customizationData) svg)%list
      else svg
  | preview => svg
  end.

End Labels.
(** ** The customization panel *)

Module Panel.
Import Js Dom App.

Local Open Scope string_scope.

(** [keyof RegionData]. *)
Inductive Field : Type :=
| f_title
| f_description
| f_link
| f_tooltipImageSrc.

(** [{ ...data, [field]: value }]. *)
Definition set_field (field : Field) (value : string) (data : RegionData)
    : RegionData :=
  match field with
  | f_title =>
      mkRegionData value (description data) (link data) (tooltipImageSrc data)
  | f_description =>
      mkRegionData (title data) value (link data) (tooltipImageSrc data)
  | f_link =>
      mkRegionData (title data) (description data) value (tooltipImageSrc data)
  | f_tooltipImageSrc =>
      mkRegionData (title data) (description data) (link data) (Some value)
  end.

(** The state of the component: [data], [currentId] and [idError]. *)
Record PanelState : Type := mkPanel {
  data : RegionData;
  currentId : string;
  shownError : option string
}.

(** [{ ...defaultData, ...regionData }] for a truthy [regionData].  An
    annotation brings its properties.  A built-in function and
    [Object.prototype] have no enumerable property of their own; the index
    properties that a string brings are no properties of [RegionData] and are
    not kept here. *)
Definition spread_over_default (regionData : option Value) : RegionData :=
  match regionData with
  | Some (Rec d) => merge_default d
  | _ => defaultData
  end.

(** The initialisation effect, run when [regionData] or [selectedRegionId]
    has changed: the new state of the panel and of [App]. *)
Definition panel_init (selectedRegionId : string)
    (regionData : option Value) (st : AppState) : PanelState * AppState :=
  let initialData :=
    if truthy regionData then spread_over_default regionData
    else defaultData in
  (mkPanel initialData selectedRegionId None,
   if truthy regionData then st
   else handleDataChange selectedRegionId initialData st).

(** [handleChange]. *)
Definition handleChange (selectedRegionId : string) (field : Field)
    (value : string) (p : PanelState) (st : AppState) : PanelState * AppState :=
  let newData := set_field field value (data p) in
  (mkPanel newData (currentId p) (shownError p),
   handleDataChange selectedRegionId newData st).

(** An edit of a field: [handleChange], then the render in which [App] hands
    the panel the new [customizationData[selectedRegionId]] and the
    initialisation effect runs. *)
Definition edit_field (selectedRegionId : string) (field : Field)
    (value : string) (p : PanelState) (st : AppState) : PanelState * AppState :=
  let '(_, st) := handleChange selectedRegionId field value p st in
  panel_init selectedRegionId (selectedData st selectedRegionId) st.

(** [handleIdInputChange]. *)
Definition handleIdInputChange (existingIds : list string)
    (selectedRegionId newId : string) (p : PanelState) : PanelState :=
  mkPanel (data p) newId
    (if falsy (trim newId) then Some "ID cannot be empty."
     else if has_space newId then Some "ID cannot contain spaces."
     else if bool_decide (newId ∈ existingIds)
             && negb (String.eqb newId selectedRegionId)
     then Some "This ID is already in use."
     else None).

(** [handleIdInputBlur]: the state of the panel and of [App] after it.  When
    [onIdChange] throws, the handler ends there. *)
Definition handleIdInputBlur (selectedRegionId : string) (p : PanelState)
    (st : AppState) : PanelState * AppState :=
  if bool_decide (is_Some (shownError p))
     || String.eqb (currentId p) selectedRegionId
  then (p, st)
  else
    match renameRegion selectedRegionId (trim (currentId p)) st with
    | (Return true, st') => (p, st')
    | (Return false, st') =>
        (mkPanel (data p) selectedRegionId
           (Some "An error occurred. The ID might already be in use."), st')
    | (Throw, st') => (p, st')
    end.

(** The identifier field: typing, then leaving the field. *)
Definition type_id (selectedRegionId typed : string) (p : PanelState)
    (st : AppState) : PanelState * AppState :=
  handleIdInputBlur selectedRegionId
    (handleIdInputChange (existingIds st) selectedRegionId typed p) st.

End Panel.
(** ** Rename: auxiliary notions and sample states *)

Module RenameSamples.
Import Js Dom App.

Local Open Scope string_scope.

(** What [trimStart] returns is empty or starts with a character that is not
    white space. *)
Definition starts_solid (s : string) : Prop :=
  match s with
  | EmptyString => True
  | String c _ => is_space c = false
  end.

(** A map with the shapes [a] and [b]; only [a] has a record. *)
Definition two_shapes : AppState :=
  mkApp [plain "path" "a"; plain "path" "b"]
    (store_of (<["a" := mkRegionData "A" "" "" None]> ∅)) (Some "a").

(** A map whose only shape has the identifier [1]. *)
Definition numbered : AppState :=
  mkApp [plain "path" "1"]
    (store_of (<["1" := mkRegionData "One" "" "" None]> ∅)) (Some "1").

End RenameSamples.
(** ** What the escaping leaves of an end tag *)

Module ScriptBlock.
Import Js ExportService.

Local Open Scope string_scope.

(** The text contains [</script], in any case of its letters, followed by
    white space or by a slash: an end tag of the script element that is not
    written [</script>]. *)
Fixpoint loose_end_tag (s : string) : bool :=
  match s with
  | EmptyString => false
  | String _ s' =>
      (starts_with true "</script" s
       && match drop 8 s with
          | String d _ => ends_tag_name d && negb (Ascii.eqb d ">"%char)
          | EmptyString => false
          end)
      || loose_end_tag s'
  end.

(** No character of the pattern is [<], whatever the case. *)
Fixpoint no_lt (pat : string) : bool :=
  match pat with
  | EmptyString => true
  | String p pat' => negb (Ascii.eqb (lower p) "<"%char) && no_lt pat'
  end.

End ScriptBlock.
(** ** The global settings *)

Module SettingsChange.
Import Js App Interaction.

(** [handleGlobalSettingsChange] of App: the settings that the dialog sends
    are stored with the hover colour recomputed from the region colour. *)
Definition handleGlobalSettingsChange (settings : GlobalTooltipSettings)
    : GlobalTooltipSettings :=
  let newSettings := settings in
  mkSettings (tooltipTrigger newSettings) (tooltipBackgroundColor newSettings)
    (tooltipTextColor newSettings) (tooltipTitleFontSize newSettings)
    (tooltipDescriptionFontSize newSettings) (defaultRegionColor newSettings)
    (Color.adjustColorShade (defaultRegionColor settings) (-10)).

End SettingsChange.

(** ** The font size fields of the settings dialog *)

Module SettingsInput.
Import Js.

Local Open Scope string_scope.
Local Open Scope Z_scope.

(** The value of a decimal digit. *)
Definition dec_value (c : ascii) : option Z :=
  let n := Z.of_nat (code c) in
  if (48 <=? n) && (n <=? 57) then Some (n - 48) else None.

(** The longest prefix of decimal digits, read from the left; [None] when it
    is empty. *)
Fixpoint dec_prefix (acc : option Z) (s : string) : option Z :=
  match s with
  | String c s' =>
      match dec_value c with
      | Some d => dec_prefix (Some (10 * default 0 acc + d)) s'
      | None => acc
      end
  | EmptyString => acc
  end.

(** A Number that holds an integer or an infinity. *)
Inductive Number : Type :=
  | Int (z : Z)
  | Infinity (negative : bool).

(** The binary64 value nearest to a natural number (ECMAScript 6.1.6.1): the
    number itself below 2^53; from there on the nearest multiple of the
    spacing of binary64 at its size, a tie going to the even multiple. *)
Definition round_magnitude (m : Z) : Z :=
  if m <? 2 ^ 53 then m
  else
    let e := Z.log2 m - 52 in
    let q := m / 2 ^ e in
    let r := m mod 2 ^ e in
    let half := 2 ^ (e - 1) in
    let q := if (half <? r) || ((r =? half) && Z.odd q) then q + 1 else q in
    q * 2 ^ e.

(** The Number value of an integer: what rounds to 2^1024 or beyond is an
    infinity. *)
Definition to_number (z : Z) : Number :=
  let m := round_magnitude (Z.abs z) in
  if 2 ^ 1024 <=? m then Infinity (z <? 0) else Int (Z.sgn z * m).

(** [parseInt(s, 10)]; [None] is NaN.  The digits are read as an exact
    integer and the result is its Number value (the language lets an engine
    read the digits after the twentieth as zeros; that is not done here). *)
Definition parseInt10 (s : string) : option Number :=
  let s := trimStart s in
  let '(sign, s) :=
    match s with
    | String c s' =>
        if Ascii.eqb c "-"%char then (-1, s')
        else if Ascii.eqb c "+"%char then (1, s')
        else (1, s)
    | EmptyString => (1, s)
    end in
  option_map (fun m => to_number (sign * m)) (dec_prefix None s).

(** [n || fallback] for a number: NaN and zero are falsy. *)
Definition or_number (n : option Number) (fallback : Z) : Number :=
  match n with
  | Some (Int n) => if n =? 0 then Int fallback else Int n
  | Some (Infinity negative) => Infinity negative
  | None => Int fallback
  end.

(** The number that the [onChange] handler of a font size field hands to
    [handleChange]: [parseInt(e.target.value, 10) || fallback], the fallback
    being 16 for the title and 14 for the description. *)
Definition fontSizeInput (value : string) (fallback : Z) : Number :=
  or_number (parseInt10 value) fallback.

(** The first character that is not white space. *)
Definition first_solid (s : string) : option ascii :=
  match trimStart s with
  | String c _ => Some c
  | EmptyString => None
  end.

End SettingsInput.
(** ** The styling effect: what a run records and decides *)

Module StyleState.
Import Js Dom App Interaction.

Local Open Scope string_scope.

(** The stroke that a run of the styling effect restores on an element that
    is not selected: the recorded [originalStroke], or, at the first run, the
    inline stroke, else the stroke attribute, else [none]. *)
Definition recorded_stroke (e : Element) : string :=
  match originalStroke e with
  | Some recorded => recorded
  | None =>
      or_else (stroke (style e)) (or_else (default "" (strokeAttr e)) "none")
  end.

(** [mode === 'edit' && id === selectedRegionId]. *)
Definition is_selected (mode : Mode) (selectedRegionId : option string)
    (e : Element) : bool :=
  match mode, selectedRegionId with
  | edit, Some sel => String.eqb (id e) sel
  | _, _ => false
  end.

End StyleState.
(** ** How the HTML tokenizer reads the text of a script element

    The states of the HTML tokenizer that read the content of a script
    element, from the script data state to the script data double escape end
    state (HTML standard, 13.2.5.4 and 13.2.5.15 to 13.2.5.31).  Only the
    state is kept, not the characters emitted.  A carriage return is read as
    the line feed that the preprocessing of the input stream makes of it;
    NUL is a character like any other, as it leaves the state as any other
    character does. *)

Module Tokenizer.
Import Js ExportService.

Local Open Scope string_scope.

Inductive State : Type :=
| ScriptData
| ScriptDataLessThanSign
| ScriptDataEndTagOpen
| ScriptDataEndTagName (name : string)
| ScriptDataEscapeStart
| ScriptDataEscapeStartDash
| ScriptDataEscaped
| ScriptDataEscapedDash
| ScriptDataEscapedDashDash
| ScriptDataEscapedLessThanSign
| ScriptDataEscapedEndTagOpen
| ScriptDataEscapedEndTagName (name : string)
| ScriptDataDoubleEscapeStart (buffer : string)
| ScriptDataDoubleEscaped
| ScriptDataDoubleEscapedDash
| ScriptDataDoubleEscapedDashDash
| ScriptDataDoubleEscapedLessThanSign
| ScriptDataDoubleEscapeEnd (buffer : string).

(** What a character does: the tokenizer goes on in a state, or it has read
    the end tag of the script element (an appropriate end tag token: its
    name is [script]) and leaves the content of the element. *)
Inductive Outcome : Type :=
| Switch (q : State)
| EndTag.

(** ASCII alpha. *)
Definition ascii_alpha (c : ascii) : bool :=
  let n := code c in
  (((65 <=? n) && (n <=? 90)) || ((97 <=? n) && (n <=? 122)))%nat.

(** The character is [x]. *)
Definition char_is (x c : ascii) : bool := Ascii.eqb c x.

(** The three states in which a character starts nothing. *)
Definition script_data (c : ascii) : Outcome :=
  if char_is "<" c then Switch ScriptDataLessThanSign else Switch ScriptData.

Definition script_data_escaped (c : ascii) : Outcome :=
  if char_is "-" c then Switch ScriptDataEscapedDash
  else if char_is "<" c then Switch ScriptDataEscapedLessThanSign
  else Switch ScriptDataEscaped.

Definition script_data_double_escaped (c : ascii) : Outcome :=
  if char_is "-" c then Switch ScriptDataDoubleEscapedDash
  else if char_is "<" c then Switch ScriptDataDoubleEscapedLessThanSign
  else Switch ScriptDataDoubleEscaped.

(** The two end tag name states: white space, [/] and [>] end the tag when
    its name is [script]; a letter is appended to the name in lower case;
    anything else, [anything_else] being the character reconsumed in the
    state the tag was started from. *)
Definition end_tag_name (anything_else : Outcome) (name : string) (c : ascii)
    (state : string -> State) : Outcome :=
  if ends_tag_name c then
    if String.eqb name "script" then EndTag else anything_else
  else if ascii_alpha c
  then Switch (state (name ++ String (lower c) EmptyString))
  else anything_else.

(** The double escape start and end states: white space, [/] and [>] go to
    [matched] when the temporary buffer is [script] and to [other] when it is
    not; a letter is appended to the buffer in lower case. *)
Definition double_escape (anything_else : Outcome) (buffer : string)
    (c : ascii) (state : string -> State) (matched other : State) : Outcome :=
  if ends_tag_name c then
    if String.eqb buffer "script" then Switch matched else Switch other
  else if ascii_alpha c
  then Switch (state (buffer ++ String (lower c) EmptyString))
  else anything_else.

(** One character in one state.  Where the standard reconsumes the character
    in another state, the other state's rule is applied to it. *)
Definition step (q : State) (c : ascii) : Outcome :=
  match q with
  | ScriptData => script_data c
  | ScriptDataLessThanSign =>
      if char_is "/" c then Switch ScriptDataEndTagOpen
      else if char_is "!" c then Switch ScriptDataEscapeStart
      else script_data c
  | ScriptDataEndTagOpen =>
      if ascii_alpha c
      then end_tag_name (script_data c) "" c ScriptDataEndTagName
      else script_data c
  | ScriptDataEndTagName name =>
      end_tag_name (script_data c) name c ScriptDataEndTagName
  | ScriptDataEscapeStart =>
      if char_is "-" c then Switch ScriptDataEscapeStartDash else script_data c
  | ScriptDataEscapeStartDash =>
      if char_is "-" c then Switch ScriptDataEscapedDashDash else script_data c
  | ScriptDataEscaped => script_data_escaped c
  | ScriptDataEscapedDash =>
      if char_is "-" c then Switch ScriptDataEscapedDashDash
      else if char_is "<" c then Switch ScriptDataEscapedLessThanSign
      else Switch ScriptDataEscaped
  | ScriptDataEscapedDashDash =>
      if char_is "-" c then Switch ScriptDataEscapedDashDash
      else if char_is "<" c then Switch ScriptDataEscapedLessThanSign
      else if char_is ">" c then Switch ScriptData
      else Switch ScriptDataEscaped
  | ScriptDataEscapedLessThanSign =>
      if char_is "/" c then Switch ScriptDataEscapedEndTagOpen
      else if ascii_alpha c
      then double_escape (script_data_escaped c) "" c
             ScriptDataDoubleEscapeStart ScriptDataDoubleEscaped
             ScriptDataEscaped
      else script_data_escaped c
  | ScriptDataEscapedEndTagOpen =>
      if ascii_alpha c
      then end_tag_name (script_data_escaped c) "" c
             ScriptDataEscapedEndTagName
      else script_data_escaped c
  | ScriptDataEscapedEndTagName name =>
      end_tag_name (script_data_escaped c) name c
        ScriptDataEscapedEndTagName
  | ScriptDataDoubleEscapeStart buffer =>
      double_escape (script_data_escaped c) buffer c
        ScriptDataDoubleEscapeStart ScriptDataDoubleEscaped ScriptDataEscaped
  | ScriptDataDoubleEscaped => script_data_double_escaped c
  | ScriptDataDoubleEscapedDash =>
      if char_is "-" c then Switch ScriptDataDoubleEscapedDashDash
      else if char_is "<" c then Switch ScriptDataDoubleEscapedLessThanSign
      else Switch ScriptDataDoubleEscaped
  | ScriptDataDoubleEscapedDashDash =>
      if char_is "-" c then Switch ScriptDataDoubleEscapedDashDash
      else if char_is "<" c then Switch ScriptDataDoubleEscapedLessThanSign
      else if char_is ">" c then Switch ScriptData
      else Switch ScriptDataDoubleEscaped
  | ScriptDataDoubleEscapedLessThanSign =>
      if char_is "/" c then Switch (ScriptDataDoubleEscapeEnd "")
      else script_data_double_escaped c
  | ScriptDataDoubleEscapeEnd buffer =>
      double_escape (script_data_double_escaped c) buffer c
        ScriptDataDoubleEscapeEnd ScriptDataEscaped ScriptDataDoubleEscaped
  end.

(** The text, read from state [q], holds the end tag of the script element:
    the script block ends inside the text. *)
Fixpoint ends_script (q : State) (s : string) : bool :=
  match s with
  | EmptyString => false
  | String c s' =>
      match step q c with
      | EndTag => true
      | Switch q' => ends_script q' s'
      end
  end.

(** The text contains [<script], in any case of its letters, followed by
    white space, [/] or [>]: the start tag that, inside [<!--], takes the
    tokenizer to the double escaped states. *)
Fixpoint script_start_tag (s : string) : bool :=
  match s with
  | EmptyString => false
  | String _ s' =>
      (starts_with true "<script" s
       && match drop 7 s with
          | String d _ => ends_tag_name d
          | EmptyString => false
          end)
      || script_start_tag s'
  end.

(** *** Auxiliary definitions *)

(** The text contains [pat], in any case of its letters, followed by white
    space, [/] or [>]. *)
Fixpoint has_tag (pat s : string) : bool :=
  match s with
  | EmptyString => false
  | String _ s' =>
      (starts_with true pat s
       && match drop (String.length pat) s with
          | String d _ => ends_tag_name d
          | EmptyString => false
          end)
      || has_tag pat s'
  end.

(** What a state has read of a tag that it has not decided yet. *)
Definition pending (q : State) : string :=
  match q with
  | ScriptDataLessThanSign | ScriptDataEscapedLessThanSign => "<"
  | ScriptDataEndTagOpen | ScriptDataEscapedEndTagOpen => "</"
  | ScriptDataEndTagName name | ScriptDataEscapedEndTagName name =>
      "</" ++ name
  | ScriptDataEscapeStart => "<!"
  | ScriptDataEscapeStartDash => "<!-"
  | ScriptDataDoubleEscapeStart buffer => "<" ++ buffer
  | _ => ""
  end.

(** Lower case letters only. *)
Fixpoint lower_letters (s : string) : bool :=
  match s with
  | EmptyString => true
  | String c s' =>
      ((97 <=? code c) && (code c <=? 122))%nat && lower_letters s'
  end.

(** The states outside the double escaped ones, with a name or a buffer of
    lower case letters that is not empty. *)
Definition single (q : State) : bool :=
  match q with
  | ScriptDataEndTagName b | ScriptDataEscapedEndTagName b
  | ScriptDataDoubleEscapeStart b => lower_letters b && negb (String.eqb b "")
  | ScriptDataDoubleEscaped | ScriptDataDoubleEscapedDash
  | ScriptDataDoubleEscapedDashDash | ScriptDataDoubleEscapedLessThanSign
  | ScriptDataDoubleEscapeEnd _ => false
  | _ => true
  end.

Fixpoint lower_str (s : string) : string :=
  match s with
  | EmptyString => EmptyString
  | String c s' => String (lower c) (lower_str s')
  end.

End Tokenizer.

(** ** Proof tactics *)

Module Tactics.

(** Case analysis on a condition that contains no other condition. *)
Ltac case_flat_if :=
  match goal with
  | |- context [if ?b then _ else _] =>
      lazymatch b with
      | context [if _ then _ else _] => fail
      | _ => destruct b
      end
  end.

(** A fact about one character, by enumeration of the 256 characters. *)
Ltac by_cases_on_char c :=
  destruct c as [[] [] [] [] [] [] [] []]; vm_compute; intuition congruence.

End Tactics.
(* ===================================================================== *)
(** * Part II: properties *)
(* ===================================================================== *)

Module GeometryFacts.
Import JsNum Geometry.

Lemma Qltb_lt (a b : Q) : Qltb a b = true <-> (a < b)%Q.
Proof.
  unfold Qltb. rewrite negb_true_iff. split.
  - intros H. apply Qnot_le_lt. intros Hle.
    apply Qle_bool_iff in Hle. congruence.
  - intros H. destruct (Qle_bool b a) eqn:E; [|reflexivity].
    apply Qle_bool_iff in E. exfalso. apply (Qlt_not_le _ _ H E).
Qed.

Lemma Qltb_ge (a b : Q) : Qltb a b = false <-> (b <= a)%Q.
Proof.
  unfold Qltb. rewrite negb_false_iff. apply Qle_bool_iff.
Qed.

Lemma Qltb_comp : Proper (Qeq ==> Qeq ==> eq) Qltb.
Proof. intros a a' Ha b b' Hb. unfold Qltb. now rewrite Ha, Hb. Qed.

Lemma Qeq_bool_false (a : Q) : ~ (a == 0)%Q -> Qeq_bool a 0 = false.
Proof.
  intros H. destruct (Qeq_bool a 0) eqn:E; [|reflexivity].
  apply Qeq_bool_iff in E. contradiction.
Qed.

Lemma div_finite (a b : Q) : ~ (b == 0)%Q -> (Fin a / Fin b)%num = Fin (a / b).
Proof. intros H. simpl. now rewrite (Qeq_bool_false b H). Qed.

#[export] Instance num_eq_equiv : Equivalence num_eq.
Proof.
  split.
  - intros []; simpl; auto. reflexivity.
  - intros [] []; simpl; auto. intros H; now symmetry.
  - intros [] [] []; simpl; auto; try contradiction.
    intros H1 H2. now rewrite H1.
Qed.

#[export] Instance pos_eq_equiv : Equivalence pos_eq.
Proof.
  split.
  - intros [a b]; split; reflexivity.
  - intros [a b] [c d] [H1 H2]; split; now symmetry.
  - intros [a b] [c d] [e f] [H1 H2] [H3 H4]; split; simpl in *;
      etransitivity; eauto.
Qed.

End GeometryFacts.

Module ClickPlacement.
Import JsNum Geometry GeometryFacts Tactics.

(** With a view box of non-zero size every intermediate value of the click
    branch is finite, and the branch computes [spec_click] literally. *)
Lemma live_click_finite (g : RegionGeom) (tip c : DOMRect) :
  (0 < vwidth (viewBox g))%Q ->
  ~ (vheight (viewBox g) == 0)%Q ->
  live_click g tip c =
    (Fin (fst (spec_click g (width tip) (height tip) c)),
     Fin (snd (spec_click g (width tip) (height tip) c))).
Proof.
  intros Hw Hh. unfold live_click, spec_click.
  assert (Hw' : ~ (vwidth (viewBox g) == 0)%Q) by (intros E; rewrite E in Hw; lra).
  assert (Hg : (Fin (vwidth (viewBox g)) >? Fin 0)%num = true)
    by (apply Qltb_lt; exact Hw).
  rewrite Hg. rewrite !div_finite by (assumption || (intros E; discriminate E)).
  cbn [add sub neg mul lt gt fst snd]. unfold Qminus.
  repeat (case_flat_if; cbn [add sub neg mul lt gt fst snd]).
  all: reflexivity.
Qed.

(** A tooltip 100 px wide centred at 380 in a container 400 px wide: its
    right edge would be at 430, and the result puts it at 390. *)
Example live_click_right_edge :
  pos_eq
    (live_click
       (mkRegionGeom (mkSVGRect 370 100 20 50) (mkDOMRect 0 0 400 300)
          (mkViewBox 400 300))
       (mkDOMRect 0 0 100 40) (mkDOMRect 0 0 400 300))
    (Fin 290, Fin 50).
Proof. split; reflexivity. Qed.

(** The hover placement in a viewport 800 px wide: a tooltip 200 px wide at
    pointer x = 750 is flipped to 750 - 200 - 15 = 535. *)
Example live_hover_flip :
  pos_eq
    (live_hover 750 100 (mkDOMRect 0 0 200 40) (mkDOMRect 0 0 800 600) 800 600)
    (Fin 535, Fin 115).
Proof. split; reflexivity. Qed.

End ClickPlacement.

Module ClickPlacement64.
Import PrimFloat Geometry64.

Local Open Scope float_scope.

(** C5. In click mode, for a region whose geometry is mapped to container
    coordinates by [scale = svgScreenRect / viewBox] (a view box of positive
    width), the live engine places the tooltip's top at
    [regionTopY - tooltipHeight - 10], and at [regionBottomY + 10] exactly
    when that preferred top is negative, that is above the container's top
    edge; the left is the region's centre minus half the tooltip's width,
    then a negative left becomes 10, and then a left whose right edge exceeds
    the container's width becomes [containerWidth - tooltipWidth - 10].  The
    numbers are binary64 and every operation is the rounded one of
    JavaScript, in the order in which the code applies them. *)
Theorem live_click_placement (g : RegionGeom) (tip c : DOMRect) :
  (0 <? vwidth (viewBox g)) = true ->
  let scaleX := width (svgRect g) / vwidth (viewBox g) in
  let scaleY := height (svgRect g) / vheight (viewBox g) in
  let centerX :=
    (left (svgRect g) - left c) + (bx (bbox g) + bwidth (bbox g) / 2) * scaleX in
  let regionTopY := (top (svgRect g) - top c) + by_ (bbox g) * scaleY in
  let regionBottomY :=
    (top (svgRect g) - top c) + (by_ (bbox g) + bheight (bbox g)) * scaleY in
  let preferred := regionTopY - height tip - 10 in
  let centred := centerX - width tip / 2 in
  let pinned := if centred <? 0 then 10 else centred in
  exists l t : float,
    live_click g tip c = (l, t) /\
    ((preferred <? 0) = true -> t = regionBottomY + 10) /\
    ((preferred <? 0) = false -> t = preferred) /\
    ((centred <? 0) = true -> pinned = 10) /\
    ((centred <? 0) = false -> pinned = centred) /\
    ((width c <? pinned + width tip) = true -> l = width c - width tip - 10) /\
    ((width c <? pinned + width tip) = false -> l = pinned) /\
    ((centred <? 0) = true -> (width c <? 10 + width tip) = false -> l = 10).
Proof.
  intros Hw. cbv zeta. unfold live_click, gtb. rewrite Hw. cbv zeta.
  eexists _, _. split; [reflexivity|].
  repeat split; intros H; try (rewrite H; reflexivity).
  intros H'. rewrite H, H'. reflexivity.
Qed.

(** The placement of a 120 x 40 tooltip over a region near the left edge of a
    400 px wide container: the centred left is -5, the result is 10, and the
    top is 100 - 40 - 10. *)
Lemma live_click_placement_witness :
  (0 <? 400) = true /\
  live_click
    (mkRegionGeom (mkSVGRect 5 100 100 50) (mkDOMRect 0 0 400 300)
       (mkViewBox 400 300))
    (mkDOMRect 0 0 120 40) (mkDOMRect 0 0 400 300) = (10, 50).
Proof.
  split; [reflexivity|].
  destruct (live_click_placement
      (mkRegionGeom (mkSVGRect 5 100 100 50) (mkDOMRect 0 0 400 300)
         (mkViewBox 400 300))
      (mkDOMRect 0 0 120 40) (mkDOMRect 0 0 400 300) eq_refl)
    as (l & t & Hlive & _ & Htop & _ & _ & _ & _ & Hleft).
  rewrite Hlive, (Htop eq_refl), (Hleft eq_refl eq_refl). reflexivity.
Defined.

(** A tooltip 100 px wide centred at 380 in a container 400 px wide: its
    right edge would be at 430, 30 px beyond the container; the result puts
    the left at 290, the right edge 10 px inside the container. *)
Example live_click_right_edge64 :
  live_click
    (mkRegionGeom (mkSVGRect 370 100 20 50) (mkDOMRect 0 0 400 300)
       (mkViewBox 400 300))
    (mkDOMRect 0 0 100 40) (mkDOMRect 0 0 400 300) = (290, 50) /\
  290 + 100 = 400 - 10.
Proof. split; reflexivity. Qed.

(** Rounding decides the branch.  On [geom_scaled] a tooltip 113 px high
    would fit exactly in exact arithmetic (60 * 2.05 - 113 - 10 = 0); in
    binary64 the region's top is 60 * (205 / 100) = 123 - 2^-46, the
    preferred top is -2^-46, negative, and the tooltip goes below the
    region, at 80 * (205 / 100) + 10 = 174. *)
Example live_click_rounding :
  let tip := mkDOMRect 0 0 20 113 in
  let c := mkDOMRect 0 0 200 205 in
  (60 * (205 / 100) - 113 - 10 <? 0) = true /\
  live_click geom_scaled tip c = (40, 174).
Proof. split; reflexivity. Qed.

End ClickPlacement64.

Module ExportFidelity.
Import JsNum Geometry GeometryFacts.

(** C1. The exported script does not reproduce the live engine's placement:
    for [scene_click] the live engine puts the tooltip above the region's top
    edge (top 50) and the script above the region's centre (top 100); for
    [scene_hover] the live engine keeps the tooltip right of the pointer
    (left 365, it fits the viewport) and the script flips it (left 235, it
    would leave the container). *)
Theorem export_placement_diverges :
  pos_eq (live_placement click scene_click) (Fin 0, Fin 50) /\
  pos_eq (export_placement click scene_click) (Fin 0, Fin 100) /\
  pos_eq (live_placement hover scene_hover) (Fin 365, Fin 65) /\
  pos_eq (export_placement hover scene_hover) (Fin 235, Fin 65) /\
  ~ pos_eq (export_placement click scene_click) (live_placement click scene_click) /\
  ~ pos_eq (export_placement hover scene_hover) (live_placement hover scene_hover).
Proof.
  repeat split; try reflexivity.
  - intros [_ H]. vm_compute in H. discriminate H.
  - intros [H _]. vm_compute in H. discriminate H.
Qed.

(** X17. Where the two engines do agree in click mode: the left coordinate, for
    every view box of positive width. *)
Lemma export_click_left_agrees (s : Scene) :
  (0 < vwidth (viewBox (geom s)))%Q ->
  fst (export_placement click s) = fst (live_placement click s).
Proof.
  intros Hw. unfold export_placement, live_placement, export_click, live_click.
  assert (Hg : (Fin (vwidth (viewBox (geom s))) >? Fin 0)%num = true)
    by (apply Qltb_lt; exact Hw).
  rewrite Hg. cbv zeta. cbn [fst tooltipRect_of width height]. reflexivity.
Qed.


(** *** The degenerate view box *)

(** The live engine's guard: a view box of non-positive width computes no
    placement, and the effect writes the initial values. *)
Lemma live_click_degenerate (g : RegionGeom) (tip c : DOMRect) :
  (vwidth (viewBox g) <= 0)%Q -> live_click g tip c = (Fin 0, Fin 0).
Proof.
  intros H. unfold live_click.
  assert (Hg : (Fin (vwidth (viewBox g)) >? Fin 0)%num = false)
    by (apply Qltb_ge; exact H).
  now rewrite Hg.
Qed.

(** C8. The exported script has no guard: without a view box its scale is
    +Infinity, the left passes through the right-edge clamp and comes out as
    290, and the top is +Infinity; the live engine writes (0, 0). *)
Theorem export_click_no_viewBox :
  export_click geom_no_viewBox (mkDOMRect 0 0 400 300) 100 40
    = (Fin (400 + - (100) + - (10)), PInf) /\
  live_click geom_no_viewBox (mkDOMRect 0 0 100 40) (mkDOMRect 0 0 400 300)
    = (Fin 0, Fin 0).
Proof. split; reflexivity. Qed.

End ExportFidelity.

(** ** Region indexing *)

Module IndexFacts.
Import Js Dom App Interaction.

Local Open Scope string_scope.

Lemma assigned_before_0 (doc : Document) : assigned_before doc 0 = 0%nat.
Proof. reflexivity. Qed.

Lemma assigned_before_S (e : Element) (rest : Document) (i : nat) :
  assigned_before (e :: rest) (S i)
  = ((if lacks_id e then 1 else 0) + assigned_before rest i)%nat.
Proof.
  unfold assigned_before. cbn [take]. rewrite filter_cons.
  destruct (lacks_id e); case_decide; simpl; congruence.
Qed.

(** The loop started with any counter value: the [i]-th element, when it
    lacks an identifier, receives the counter advanced by the number of
    assignments made before it. *)
Lemma assign_ids_imap (doc : Document) (idCounter : nat) :
  assign_ids idCounter doc
  = imap (fun i e =>
            if lacks_id e
            then set_id ("map-region-"
                         ++ of_nat (idCounter + assigned_before doc i)) e
            else e) doc.
Proof.
  revert idCounter. induction doc as [|e rest IH]; intros idCounter; [reflexivity|].
  cbn [assign_ids]. rewrite imap_cons. rewrite assigned_before_0, Nat.add_0_r.
  assert (He : lacks_id e = clickable e && falsy (id e)) by reflexivity.
  destruct (clickable e) eqn:Hc; [destruct (falsy (id e)) eqn:Hf|];
    cbn [andb] in He; rewrite He; f_equal; rewrite IH; apply imap_ext;
    intros i x _; cbn [compose]; rewrite assigned_before_S, He;
    destruct (lacks_id x); try reflexivity; do 3 f_equal; lia.
Qed.

Lemma make_interactive_id (settings : GlobalTooltipSettings) (e : Element) :
  id (make_interactive settings e) = id e.
Proof. unfold make_interactive. destruct (tooltipTrigger settings); reflexivity. Qed.

(** The export's loop assigns the identifiers of [assign_ids]. *)
Lemma export_regions_ids (settings : GlobalTooltipSettings)
    (store : gmap string RegionData) (doc : Document) (idCounter : nat) :
  map id (export_regions settings store idCounter doc)
  = map id (assign_ids idCounter doc).
Proof.
  revert idCounter. induction doc as [|e rest IH]; intros idCounter; [reflexivity|].
  cbn [export_regions assign_ids].
  destruct (clickable e); [destruct (falsy (id e))|]; cbn [map]; rewrite IH;
    f_equal;
    match goal with
    | |- context [if truthy ?o then _ else _] =>
        destruct (truthy o); [apply make_interactive_id | reflexivity]
    | _ => reflexivity
    end.
Qed.

Lemma falsy_eqb (s : string) : falsy s = String.eqb s "".
Proof. now destruct s. Qed.

Lemma lacks_id_explicit (x : Element) :
  lacks_id x
  = existsb (String.eqb (tag x))
      ["path"; "g"; "rect"; "circle"; "polygon"; "ellipse"]
    && String.eqb (id x) "".
Proof. unfold lacks_id, clickable. now rewrite falsy_eqb. Qed.

(** C4. For every SVG document, the indexing of the live editor visits the
    shapes of the kinds path, g, rect, circle, polygon and ellipse in
    document order and gives each shape without an identifier the identifier
    [map-region-<n>], where [n], in decimal, is the number of shapes without
    an identifier before it (so [n] starts at 0 and grows by one per
    assignment, and a shape that has an identifier uses no value of the
    counter); every other element, and everything else of the shape, is
    unchanged.  The exported script assigns the same identifiers. *)
Theorem indexRegions_spec (doc : Document) :
  let visited (x : Element) : bool :=
    existsb (String.eqb (tag x))
      ["path"; "g"; "rect"; "circle"; "polygon"; "ellipse"] in
  let lacks (x : Element) : bool := visited x && String.eqb (id x) "" in
  let counter (i : nat) : nat :=
    length (filter (fun x => lacks x = true) (take i doc)) in
  length (indexRegions doc) = length doc /\
  (forall (i : nat) (e : Element),
      doc !! i = Some e ->
      indexRegions doc !! i
      = Some (if lacks e
              then mkElement (tag e)
                     ("map-region-"
                      ++ DecimalString.NilZero.string_of_uint
                           (Nat.to_uint (counter i)))
                     (strokeAttr e) (style e) (originalStroke e) (classList e)
                     (listeners e)
              else e)) /\
  (forall (settings : GlobalTooltipSettings) (store : gmap string RegionData),
      map id (export_setup settings store doc) = map id (indexRegions doc)).
Proof.
  cbv zeta. split; [|split].
  - unfold indexRegions. rewrite assign_ids_imap. apply length_imap.
  - intros i e Hi. unfold indexRegions. rewrite assign_ids_imap.
    rewrite list_lookup_imap, Hi. cbn [fmap option_fmap option_map].
    rewrite <- lacks_id_explicit. f_equal.
    destruct (lacks_id e); [|reflexivity].
    unfold set_id, of_nat, assigned_before. cbn [Nat.add]. do 5 f_equal.
    apply list_filter_iff. intros x. now rewrite lacks_id_explicit.
  - intros settings store. unfold export_setup. now rewrite export_regions_ids.
Qed.

(** A document with two shapes that lack an identifier around one that has
    one, and an element of another kind. *)
Example indexRegions_sample :
  map id (indexRegions [plain "g" ""; plain "defs" ""; plain "path" "x";
                        plain "rect" ""])
  = ["map-region-0"; ""; "x"; "map-region-1"].
Proof. reflexivity. Qed.

Lemma falsy_append (a b : string) : falsy (a ++ b) = falsy a && falsy b.
Proof. destruct a, b; reflexivity. Qed.

(** After indexing every addressable shape has an identifier. *)
Lemma assign_ids_named (doc : Document) (idCounter : nat) :
  Forall (fun e => clickable e = true -> falsy (id e) = false)
    (assign_ids idCounter doc).
Proof.
  revert idCounter. induction doc as [|e rest IH]; intros idCounter;
    [constructor|].
  cbn [assign_ids].
  destruct (clickable e) eqn:Hc; [destruct (falsy (id e)) eqn:Hf|];
    constructor; auto; try congruence.
Qed.

(** Indexing an indexed document changes nothing. *)
Lemma assign_ids_idempotent (doc : Document) (c : nat) :
  Forall (fun e => clickable e = true -> falsy (id e) = false) doc ->
  assign_ids c doc = doc.
Proof.
  induction 1 as [|e rest He _ IH]; [reflexivity|].
  cbn [assign_ids]. destruct (clickable e); [rewrite He by reflexivity|];
    now rewrite IH.
Qed.

(** X1. Running the setup effect again on a document that it has indexed
    changes nothing: no identifier is assigned twice and no counter value
    is used again. *)
Lemma indexRegions_idempotent (doc : Document) :
  indexRegions (indexRegions doc) = indexRegions doc.
Proof. apply assign_ids_idempotent, assign_ids_named. Qed.

End IndexFacts.
(** ** Trimming *)

Module TrimFacts.
Import Js RenameSamples.

Local Open Scope string_scope.

Lemma trimStart_no_space (s : string) : has_space s = false -> trimStart s = s.
Proof.
  destruct s as [|c s]; [reflexivity|]. cbn [has_space trimStart].
  intros [Hc _]%orb_false_elim. now rewrite Hc.
Qed.

Lemma trimEnd_no_space (s : string) : has_space s = false -> trimEnd s = s.
Proof.
  induction s as [|c s IH]; [reflexivity|]. cbn [has_space trimEnd].
  intros [Hc Hs]%orb_false_elim. rewrite (IH Hs).
  destruct s; [now rewrite Hc | reflexivity].
Qed.

Lemma trim_no_space (s : string) : has_space s = false -> trim s = s.
Proof.
  intros H. unfold trim. rewrite (trimStart_no_space s H).
  now apply trimEnd_no_space.
Qed.

Lemma trimStart_solid (s : string) : starts_solid (trimStart s).
Proof.
  induction s as [|c s IH]; [exact I|]. cbn [trimStart].
  destruct (is_space c) eqn:E; [exact IH | exact E].
Qed.

Lemma trimEnd_solid (s : string) : starts_solid s -> starts_solid (trimEnd s).
Proof.
  destruct s as [|c s]; [auto|]. cbn [starts_solid trimEnd]. intros Hc.
  destruct (trimEnd s); [now rewrite Hc | exact Hc].
Qed.

Lemma trimStart_of_solid (s : string) : starts_solid s -> trimStart s = s.
Proof.
  destruct s as [|c s]; [reflexivity|]. cbn [starts_solid trimStart].
  now intros ->.
Qed.

Lemma trimEnd_idempotent (s : string) : trimEnd (trimEnd s) = trimEnd s.
Proof.
  induction s as [|c s IH]; [reflexivity|]. cbn [trimEnd].
  destruct (trimEnd s) as [|d u] eqn:Eu.
  - destruct (is_space c) eqn:Ec; [reflexivity|]. cbn [trimEnd]. now rewrite Ec.
  - change (trimEnd (String c (String d u)))
      with (match trimEnd (String d u) with
            | EmptyString =>
                if is_space c then EmptyString else String c EmptyString
            | t => String c t
            end).
    now rewrite IH.
Qed.

Lemma trim_idempotent (s : string) : trim (trim s) = trim s.
Proof.
  unfold trim.
  rewrite (trimStart_of_solid (trimEnd (trimStart s)))
    by apply trimEnd_solid, trimStart_solid.
  apply trimEnd_idempotent.
Qed.

End TrimFacts.


(** ** Identifier rename *)

Module RenameFacts.
Import Js Dom App Tactics.

Local Open Scope string_scope.

(** Facts about single characters, by enumeration. *)
Lemma escaped_is_valid_escape (c : ascii) :
  needs_escape c = true -> css_newline c = false /\ is_hex_digit c = false.
Proof. by_cases_on_char c. Qed.

Lemma unescaped_not_backslash (c : ascii) :
  needs_escape c = false -> Ascii.eqb c (ascii_of_nat 92) = false.
Proof. by_cases_on_char c. Qed.

Lemma name_char_start (c : ascii) :
  name_char c = true -> is_digit c = false ->
  Ascii.eqb c (ascii_of_nat 45) = false -> name_start c = true.
Proof. by_cases_on_char c. Qed.

Lemma hyphen_not_escaped (c : ascii) :
  Ascii.eqb c (ascii_of_nat 45) = true -> needs_escape c = false.
Proof. by_cases_on_char c. Qed.

Lemma name_char_cases (c : ascii) :
  name_char c = true -> is_digit c = false ->
  name_start c || Ascii.eqb c (ascii_of_nat 45) = true.
Proof. by_cases_on_char c. Qed.

Lemma escapeId_cons (c : ascii) (s : string) :
  escapeId (String c s)
  = if needs_escape c
    then String (ascii_of_nat 92) (String c (escapeId s))
    else String c (escapeId s).
Proof. unfold escapeId. cbn [map_chars]. now destruct (needs_escape c). Qed.

(** The escaped text of an identifier whose characters are name characters
    or escaped punctuation is read back as that identifier. *)
Lemma css_name_escapeId (s : string) :
  safe_chars s = true -> css_name (escapeId s) = Some s.
Proof.
  induction s as [|c s IH]; [reflexivity|].
  cbn [safe_chars]. intros [Hc Hs]%andb_prop. specialize (IH Hs).
  rewrite escapeId_cons. destruct (needs_escape c) eqn:He.
  - destruct (escaped_is_valid_escape c He) as [Hn Hx].
    cbn [css_name]. rewrite Ascii.eqb_refl, Hn, Hx, IH. reflexivity.
  - rewrite orb_false_r in Hc. cbn [css_name].
    rewrite (unescaped_not_backslash c He), Hc, IH. reflexivity.
Qed.

Lemma starts_ident_escapeId (s : string) :
  selector_safe s = true -> starts_ident (escapeId s) = true.
Proof.
  unfold selector_safe. intros [Hs Hstart]%andb_prop.
  destruct s as [|c s]; [discriminate|].
  apply andb_prop in Hstart as [Hd Hh]. apply negb_true_iff in Hd.
  cbn [safe_chars] in Hs. apply andb_prop in Hs as [Hc Hs].
  rewrite escapeId_cons. destruct (needs_escape c) eqn:He.
  - destruct (escaped_is_valid_escape c He) as [Hn _].
    cbn [starts_ident]. now rewrite Ascii.eqb_refl, Hn.
  - rewrite orb_false_r in Hc. cbn [starts_ident].
    rewrite (unescaped_not_backslash c He).
    destruct (Ascii.eqb c (ascii_of_nat 45)) eqn:E45.
    + destruct s as [|d s]; [discriminate|].
      apply negb_true_iff in Hh.
      cbn [safe_chars] in Hs. apply andb_prop in Hs as [Hdc _].
      rewrite escapeId_cons. destruct (needs_escape d) eqn:Hed.
      * destruct (escaped_is_valid_escape d Hed) as [Hn _].
        now rewrite Ascii.eqb_refl, Hn.
      * rewrite orb_false_r in Hdc.
        rewrite (unescaped_not_backslash d Hed).
        now apply name_char_cases.
    + now apply name_char_start.
Qed.

(** The lookup of an identifier through its escaped selector finds the first
    element that carries it. *)
Lemma escaped_lookup_resolves (s : string) (doc : Document) :
  selector_safe s = true ->
  querySelector ("#" ++ escapeId s) doc = find_id s doc.
Proof.
  intros H. unfold querySelector.
  change ("#" ++ escapeId s) with (String (ascii_of_nat 35) (escapeId s)).
  unfold parse_id_selector.
  rewrite Ascii.eqb_refl, (starts_ident_escapeId s H). cbn [andb].
  apply andb_prop in H as [Hs _]. now rewrite (css_name_escapeId s Hs).
Qed.

(** [find_id] returns the first position that carries the identifier. *)
Lemma find_id_Some (name : string) (doc : Document) (i : nat) :
  find_id name doc = Some i ->
  (exists e, doc !! i = Some e /\ id e = name) /\
  (forall j e, (j < i)%nat -> doc !! j = Some e -> id e <> name).
Proof.
  revert i. induction doc as [|x rest IH]; intros i; [discriminate|].
  cbn [find_id]. destruct (String.eqb (id x) name) eqn:E.
  - intros [= <-]. apply String.eqb_eq in E. split; [eauto|]. intros j e Hj. lia.
  - apply String.eqb_neq in E.
    destruct (find_id name rest) as [k|] eqn:Hk; [|discriminate].
    intros [= <-]. destruct (IH k eq_refl) as [Hex Hfirst]. split; [exact Hex|].
    intros [|j] e Hj; cbn; [intros [= <-]; exact E|].
    apply Hfirst. lia.
Qed.

Lemma find_id_None (name : string) (doc : Document) :
  find_id name doc = None -> Forall (fun e => id e <> name) doc.
Proof.
  induction doc as [|x rest IH]; [constructor|].
  cbn [find_id]. destruct (String.eqb (id x) name) eqn:E; [discriminate|].
  apply String.eqb_neq in E.
  destruct (find_id name rest); [discriminate|]. constructor; auto.
Qed.

Lemma falsy_true (s : string) : falsy s = true <-> s = "".
Proof. destruct s; simpl; split; congruence. Qed.

(** *** The store as an object *)

Lemma inherited_not_proto (k : string) :
  inherited k = false -> String.eqb k "__proto__" = false.
Proof.
  unfold inherited, OBJECT_PROTOTYPE. cbn [existsb]. intros H.
  repeat (apply orb_false_elim in H as [? H]). assumption.
Qed.

Lemma inherited_not_hasOwnProperty (k : string) :
  inherited k = false -> k <> "hasOwnProperty".
Proof. intros H ->. discriminate H. Qed.

(** No property of an annotation, and no property of a built-in function
    other than those of [Object.prototype], is called [hasOwnProperty]. *)
Lemma read_hasOwnProperty (store : Store) :
  own store !! "hasOwnProperty" = None ->
  read store "hasOwnProperty" = Some (Builtin "hasOwnProperty").
Proof.
  intros H. unfold read. rewrite H.
  destruct (proto store) as [[d | f | b]|]; try reflexivity.
  unfold function_property. cbn [String.eqb Ascii.eqb Bool.eqb].
  change (existsb (String.eqb "hasOwnProperty") OBJECT_STATICS) with false.
  now rewrite andb_false_r.
Qed.

(** Unless the store has a property [hasOwnProperty] of its own, the test of
    the rename is the test it is meant to be. *)
Lemma hasOwnProperty_own (store : Store) (k : string) :
  own store !! "hasOwnProperty" = None ->
  hasOwnProperty store k = Return (bool_decide (is_Some (own store !! k))).
Proof.
  intros H. unfold hasOwnProperty. now rewrite (read_hasOwnProperty store H).
Qed.

Lemma plain_store_check (store : Store) :
  plain_store store -> own store !! "hasOwnProperty" = None.
Proof.
  intros [_ Hown]. destruct (own store !! "hasOwnProperty") as [v|] eqn:E;
    [|reflexivity].
  destruct (Hown _ _ E) as [Hk _]. discriminate Hk.
Qed.

(** In a plain store, the read of an identifier that names no property of
    [Object.prototype] returns the own property. *)
Lemma read_plain (store : Store) (k : string) :
  plain_store store -> inherited k = false -> read store k = own store !! k.
Proof.
  intros [Hp _] Hk. unfold read. rewrite Hp.
  destruct (own store !! k); [reflexivity|].
  unfold from_object_prototype. now rewrite Hk.
Qed.

Lemma plain_store_empty : plain_store empty_store.
Proof.
  split; [reflexivity|]. intros k v H. cbn in H.
  rewrite lookup_empty in H. discriminate H.
Qed.

Lemma plain_store_insert (store : Store) (k : string) (d : RegionData) :
  plain_store store -> inherited k = false ->
  plain_store (mkStore (<[k := Rec d]> (own store)) None).
Proof.
  intros [_ Hown] Hk. split; [reflexivity|]. intros k' v. cbn [own].
  destruct (decide (k = k')) as [<-|Hne].
  - rewrite lookup_insert_eq. intros [= <-]. eauto.
  - rewrite lookup_insert_ne by exact Hne. apply Hown.
Qed.

Lemma plain_store_delete (store : Store) (k : string) :
  plain_store store -> plain_store (mkStore (delete k (own store)) None).
Proof.
  intros [_ Hown]. split; [reflexivity|]. intros k' v. cbn [own].
  destruct (decide (k = k')) as [<-|Hne].
  - rewrite lookup_delete_eq. discriminate.
  - rewrite lookup_delete_ne by exact Hne. apply Hown.
Qed.

(** The rename's update of the store never leaves [oldId] behind and never
    touches a third key. *)
Lemma move_record_others (oldId new : string) (store : Store) :
  new <> oldId ->
  own (move_record oldId new store) !! oldId = None /\
  (forall k, k <> oldId -> k <> new ->
     own (move_record oldId new store) !! k = own store !! k).
Proof.
  intros Hne. unfold move_record, assign, spread. cbn [own proto].
  destruct (read _ oldId) as [info|]; cbn [own].
  2:{ split; [apply lookup_delete_eq|].
      intros k H1 H2. now apply lookup_delete_ne. }
  destruct (truthy (Some info)); cbn [own].
  2:{ split; [apply lookup_delete_eq|].
      intros k H1 H2. now apply lookup_delete_ne. }
  assert (Hins : forall v,
    <[new := v]> (delete oldId (own store)) !! oldId = None /\
    (forall k, k <> oldId -> k <> new ->
       <[new := v]> (delete oldId (own store)) !! k = own store !! k)).
  { intros v. split.
    - rewrite lookup_insert_ne by exact Hne. apply lookup_delete_eq.
    - intros k H1 H2. rewrite lookup_insert_ne by congruence.
      now apply lookup_delete_ne. }
  assert (Hdel :
    delete oldId (own store) !! oldId = None /\
    (forall k, k <> oldId -> k <> new ->
       delete oldId (own store) !! k = own store !! k)).
  { split; [apply lookup_delete_eq|].
    intros k H1 H2. now apply lookup_delete_ne. }
  case_bool_decide; cbn [own]; [apply Hins|].
  destruct (String.eqb new "__proto__"); cbn [own]; [|apply Hins].
  destruct info as [d | f | b]; cbn [own]; try exact Hdel.
  destruct (String.eqb f "__proto__"); cbn [own]; exact Hdel.
Qed.

(** In a plain store, between identifiers that name no property of
    [Object.prototype], the update is a deletion followed, when [oldId] has a
    record, by an insertion. *)
Lemma move_record_plain_eq (oldId new : string) (store : Store) :
  plain_store store -> inherited oldId = false -> inherited new = false ->
  new <> oldId -> own store !! new = None ->
  move_record oldId new store
  = mkStore (match own store !! oldId with
             | Some v => <[new := v]> (delete oldId (own store))
             | None => delete oldId (own store)
             end) None.
Proof.
  intros Hplain Hold Hnew Hne Hfree.
  assert (Hspread : spread store = store).
  { destruct store as [o p]. destruct Hplain as [Hp _]. cbn in Hp. now subst p. }
  unfold move_record. rewrite Hspread, (read_plain store oldId Hplain Hold).
  destruct Hplain as [Hp Hown]. rewrite Hp.
  destruct (own store !! oldId) as [v|] eqn:Ev; [|reflexivity].
  destruct (Hown _ _ Ev) as [_ [d ->]]. cbn [truthy]. unfold assign.
  cbn [own proto]. rewrite lookup_delete_ne by congruence. rewrite Hfree.
  rewrite bool_decide_eq_false_2 by (intros [? H]; discriminate H).
  now rewrite (inherited_not_proto new Hnew).
Qed.

(** It moves the record and leaves a plain store. *)
Lemma move_record_plain (oldId new : string) (store : Store) :
  plain_store store -> inherited oldId = false -> inherited new = false ->
  new <> oldId -> own store !! new = None ->
  own (move_record oldId new store) !! new = own store !! oldId /\
  plain_store (move_record oldId new store).
Proof.
  intros Hplain Hold Hnew Hne Hfree.
  rewrite (move_record_plain_eq oldId new store Hplain Hold Hnew Hne Hfree).
  cbn [own]. destruct (own store !! oldId) as [v|] eqn:Ev.
  - destruct (proj2 Hplain _ _ Ev) as [_ [d ->]]. split.
    + apply lookup_insert_eq.
    + exact (plain_store_insert (mkStore (delete oldId (own store)) None)
               new d (plain_store_delete store oldId Hplain) Hnew).
  - split.
    + rewrite lookup_delete_ne by congruence. exact Hfree.
    + now apply plain_store_delete.
Qed.

(** The outcome of the handler, by cases. *)
Lemma handleRegionIdChange_cases (oldId newId : string) (st : AppState) :
  let new := trim newId in
  (new = oldId /\ handleRegionIdChange oldId newId st = (Return true, None, st)) \/
  (new <> oldId /\ (new = "" \/ has_space new = true) /\
   handleRegionIdChange oldId newId st = (Return false, None, st)) \/
  (new <> oldId /\ new <> "" /\ has_space new = false /\
   ((hasOwnProperty (customizationData st) new = Throw /\
     handleRegionIdChange oldId newId st = (Throw, None, st)) \/
    (hasOwnProperty (customizationData st) new = Return true /\
     handleRegionIdChange oldId newId st = (Return false, None, st)) \/
    (hasOwnProperty (customizationData st) new = Return false /\
     handleRegionIdChange oldId newId st =
       (Return true, Some (mkIdChangeOp oldId new),
        mkApp (dom st) (move_record oldId new (customizationData st))
          (Some new))))).
Proof.
  cbv zeta. unfold handleRegionIdChange.
  destruct (String.eqb oldId (trim newId)) eqn:E.
  { apply String.eqb_eq in E. left. split; [now symmetry | reflexivity]. }
  apply String.eqb_neq in E. right.
  destruct (falsy (trim newId)) eqn:Hf.
  { left. apply falsy_true in Hf. repeat split; auto; congruence. }
  destruct (has_space (trim newId)) eqn:Hs.
  { left. repeat split; auto; congruence. }
  cbn [orb]. right. split; [congruence|]. split.
  { intros H. apply falsy_true in H. congruence. }
  split; [reflexivity|].
  destruct (hasOwnProperty (customizationData st) (trim newId)) as [[|]|];
    auto.
Qed.

(** The rename returns, and succeeds or fails by the own properties, unless
    the store has a property [hasOwnProperty] of its own. *)
Lemma handleRegionIdChange_checked (oldId newId : string) (st : AppState) :
  own (customizationData st) !! "hasOwnProperty" = None ->
  let new := trim newId in
  (new = oldId /\ handleRegionIdChange oldId newId st = (Return true, None, st)) \/
  (new <> oldId /\
   (new = "" \/ has_space new = true \/
    is_Some (own (customizationData st) !! new)) /\
   handleRegionIdChange oldId newId st = (Return false, None, st)) \/
  (new <> oldId /\ new <> "" /\ has_space new = false /\
   own (customizationData st) !! new = None /\
   handleRegionIdChange oldId newId st =
     (Return true, Some (mkIdChangeOp oldId new),
      mkApp (dom st) (move_record oldId new (customizationData st)) (Some new))).
Proof.
  intros Hcheck. cbv zeta.
  pose proof (hasOwnProperty_own (customizationData st) (trim newId) Hcheck)
    as Hhas.
  destruct (handleRegionIdChange_cases oldId newId st)
    as [H | [(Hne & Hbad & E) | (Hne & Hn & Hs & H)]]; [now left | |].
  { right. left. split; [exact Hne|]. split; [tauto | exact E]. }
  right. rewrite Hhas in H.
  destruct H as [[H _] | [[H E] | [H E]]]; [discriminate H | |].
  - left. split; [exact Hne|]. split; [|exact E].
    right. right. injection H as H. now apply bool_decide_eq_true in H.
  - right. repeat split; auto. injection H as H.
    apply bool_decide_eq_false in H.
    destruct (own (customizationData st) !! trim newId); [|reflexivity].
    exfalso. apply H. eauto.
Qed.

(** *** The store at the names of [Object.prototype] *)

(** Region [a] of [sample_state] is renamed to [__proto__]: the assignment
    reaches the setter of [Object.prototype], the record becomes the
    prototype of the store and the store has one key less. *)
Example renameRegion_proto_sample :
  fst (renameRegion "a" "__proto__" sample_state) = true /\
  customizationData (snd (renameRegion "a" "__proto__" sample_state))
  = mkStore (<["c" := Rec (mkRegionData "C" "" "" None)]> ∅)
      (Some (Rec (mkRegionData "A" "" "" None))).
Proof. split; vm_compute; reflexivity. Qed.

(** The rename back from [__proto__]: the update works on a copy of the own
    properties, whose prototype is [Object.prototype] again, so what it reads
    under [__proto__] is [Object.prototype] itself; that object is stored
    under [a] and the record is lost. *)
Example renameRegion_proto_back_sample :
  renameRegion "__proto__" "a" (snd (renameRegion "a" "__proto__" sample_state))
  = (Return true,
     mkApp [plain "path" "a"; plain "path" "c"]
       (mkStore (<["a" := Builtin "__proto__"]>
                   (<["c" := Rec (mkRegionData "C" "" "" None)]> ∅)) None)
       (Some "a")).
Proof. vm_compute. reflexivity. Qed.

(** Once a record is stored under [hasOwnProperty], the test of the rename
    calls that record: the rename throws. *)
Example renameRegion_throw_sample :
  renameRegion "c" "d"
    (snd (renameRegion "a" "hasOwnProperty" sample_state))
  = (Throw, snd (renameRegion "a" "hasOwnProperty" sample_state)).
Proof. vm_compute. reflexivity. Qed.

(** A region named [constructor] that has no record is renamed: the function
    that the read returns is stored under the new identifier. *)
Example renameRegion_inherited_sample :
  own (customizationData (snd (renameRegion "constructor" "b" initial))) !! "b"
  = Some (Builtin "constructor").
Proof. vm_compute. reflexivity. Qed.

(** C3. For a store without a property [hasOwnProperty] of its own,
    [renameRegion(oldId, newId)] returns, and it returns failure if and only
    if the trimmed [newId] differs from [oldId] and is empty, contains white
    space, or is a key of the store; on every failure the DOM, the store and
    the selection are unchanged.  (The identifier is trimmed first, so white
    space around it is not a failure; renaming an identifier to itself
    succeeds.) *)
Theorem renameRegion_failure (oldId newId : string) (st : AppState) :
  own (customizationData st) !! "hasOwnProperty" = None ->
  (fst (renameRegion oldId newId st) = true \/
   fst (renameRegion oldId newId st) = false) /\
  (fst (renameRegion oldId newId st) = false <->
     trim newId <> oldId /\
     (trim newId = "" \/ has_space (trim newId) = true \/
      is_Some (own (customizationData st) !! trim newId))) /\
  (fst (renameRegion oldId newId st) = false ->
     snd (renameRegion oldId newId st) = st).
Proof.
  intros Hcheck. unfold renameRegion.
  destruct (handleRegionIdChange_checked oldId newId st Hcheck)
    as [(He & ->) | [(Hne & Hbad & ->) | (Hne & Hn & Hs & Hk & ->)]];
    cbn [fst snd]; (split; [auto|]); split; try split; try discriminate;
    auto; try tauto.
  - intros (_ & [H | [H | H]]); try congruence.
    rewrite Hk in H. destruct H; discriminate.
Qed.

(** A rename of region [a] of [sample_state] to the key [c] fails and leaves
    the state as it is. *)
Lemma renameRegion_failure_witness :
  fst (renameRegion "a" "c" sample_state) = false /\
  snd (renameRegion "a" "c" sample_state) = sample_state.
Proof.
  destruct (renameRegion_failure "a" "c" sample_state) as (_ & Hiff & Hsame);
    [reflexivity|].
  assert (E : fst (renameRegion "a" "c" sample_state) = false).
  { apply Hiff. split; [discriminate|]. right. right. vm_compute. eauto. }
  split; [exact E | exact (Hsame E)].
Defined.

(** C3 as stated fails: [" b"] contains white space, yet the rename to it
    succeeds (as a rename to ["b"]). *)
Lemma renameRegion_untrimmed_counterexample :
  ~ (fst (renameRegion "a" " b" initial) = false <->
       (" b" = "" \/ has_space " b" = true \/
        (" b" <> "a" /\ is_Some (own (customizationData initial) !! " b")))).
Proof.
  intros [_ H]. assert (E : fst (renameRegion "a" " b" initial) = false).
  { apply H. right. left. reflexivity. }
  vm_compute in E. discriminate E.
Qed.

(** C2. A successful [renameRegion(oldId, newId)], with [new] the trimmed
    [newId]: when [new] is [oldId] nothing changes; otherwise the selection
    becomes [new] (whatever was selected before), the store has no key
    [oldId] any more and every key other than [oldId] and [new] keeps its
    value, and, for an [oldId] that the escaped selector resolves, the first
    element whose identifier is [oldId] receives [new] while every other
    element is unchanged (the DOM is unchanged when no element carries
    [oldId]).  In a plain store, and when neither identifier names a property
    of [Object.prototype], the record of [oldId], if any, is found under
    [new], and the store stays plain. *)
Theorem renameRegion_success (oldId newId : string) (st : AppState) :
  fst (renameRegion oldId newId st) = true ->
  let new := trim newId in
  let st' := snd (renameRegion oldId newId st) in
  (new = oldId -> st' = st) /\
  (new <> oldId ->
     selectedRegionId st' = Some new /\
     own (customizationData st') !! oldId = None /\
     (forall k, k <> oldId -> k <> new ->
        own (customizationData st') !! k = own (customizationData st) !! k) /\
     (plain_store (customizationData st) ->
      inherited oldId = false -> inherited new = false ->
        own (customizationData st') !! new
        = own (customizationData st) !! oldId /\
        plain_store (customizationData st')) /\
     (selector_safe oldId = true ->
        match find_id oldId (dom st) with
        | Some i =>
            (exists e, dom st !! i = Some e /\ id e = oldId /\
                       dom st' = <[i := set_id new e]> (dom st)) /\
            (forall j e, (j < i)%nat -> dom st !! j = Some e -> id e <> oldId)
        | None =>
            dom st' = dom st /\ Forall (fun e => id e <> oldId) (dom st)
        end)).
Proof.
  cbv zeta. unfold renameRegion.
  destruct (handleRegionIdChange_cases oldId newId st)
    as [(He & ->) | [(Hne & Hbad & ->) |
        (Hne & Hn & Hs & [(_ & ->) | [(_ & ->) | (Hhas & ->)]])]];
    cbn [fst snd]; intros Hok; try discriminate.
  - split; [reflexivity | congruence].
  - split; [congruence|]. intros _.
    cbn [selectedRegionId customizationData dom].
    destruct (move_record_others oldId (trim newId) (customizationData st) Hne)
      as (H2 & H3).
    split; [reflexivity|]. split; [exact H2|]. split; [exact H3|]. split.
    + intros Hplain Hold Hnew.
      apply move_record_plain; auto.
      rewrite (hasOwnProperty_own _ _ (plain_store_check _ Hplain)) in Hhas.
      injection Hhas as Hhas. apply bool_decide_eq_false in Hhas.
      destruct (own (customizationData st) !! trim newId); [|reflexivity].
      exfalso. apply Hhas. eauto.
    + intros Hsafe. unfold idChangeEffect. cbn [App.oldId App.newId].
      rewrite (escaped_lookup_resolves oldId (dom st) Hsafe).
      destruct (find_id oldId (dom st)) as [i|] eqn:Hfind.
      * destruct (find_id_Some oldId (dom st) i Hfind) as [(e & He & Hid) Hfirst].
        rewrite He. split; [eauto | exact Hfirst].
      * split; [reflexivity | now apply find_id_None].
Qed.

(** Renaming region [a] of [sample_state] to [b]. *)
Lemma renameRegion_success_witness :
  selectedRegionId (snd (renameRegion "a" "b" sample_state)) = Some "b" /\
  map id (dom (snd (renameRegion "a" "b" sample_state))) = ["b"; "c"].
Proof.
  destruct (renameRegion_success "a" "b" sample_state eq_refl) as [_ H].
  destruct H as (Hsel & _); [discriminate|].
  split; [exact Hsel | reflexivity].
Defined.

(** C2 as stated fails: in [sample_state] region [c] is selected, the rename
    of [a] to [b] succeeds, and the selection moves to [b]. *)
Lemma renameRegion_selection_counterexample :
  ~ (fst (renameRegion "a" "b" sample_state) = true ->
     (selectedRegionId (snd (renameRegion "a" "b" sample_state)) = Some "b"
      <-> selectedRegionId sample_state = Some "a")).
Proof.
  intros H. destruct (H eq_refl) as [H1 _].
  assert (E : selectedRegionId sample_state = Some "a") by (apply H1; reflexivity).
  discriminate E.
Qed.

End RenameFacts.

(** ** The colour shade *)

Module ColorFacts.
Import Js Color.

Local Open Scope string_scope.
Local Open Scope Z_scope.

Lemma hex_value_range (c : ascii) (v : Z) : hex_value c = Some v -> 0 <= v < 16.
Proof.
  destruct c as [[] [] [] [] [] [] [] []]; vm_compute;
    first [discriminate | intros [= <-]; split; [discriminate | reflexivity]].
Qed.

(** A hexadecimal digit is neither white space, nor a sign, nor the [x] of a
    radix prefix. *)
Lemma hex_value_plain (c : ascii) (v : Z) :
  hex_value c = Some v ->
  is_space c = false /\ Ascii.eqb c "-"%char = false /\
  Ascii.eqb c "+"%char = false /\ Ascii.eqb c "x"%char = false /\
  Ascii.eqb c "X"%char = false.
Proof.
  destruct c as [[] [] [] [] [] [] [] []]; vm_compute; intuition congruence.
Qed.

(** [parseInt] reads six hexadecimal digits as the number they write. *)
Lemma parseInt16_six (c1 c2 c3 c4 c5 c6 : ascii) (v1 v2 v3 v4 v5 v6 : Z) :
  hex_value c1 = Some v1 -> hex_value c2 = Some v2 -> hex_value c3 = Some v3 ->
  hex_value c4 = Some v4 -> hex_value c5 = Some v5 -> hex_value c6 = Some v6 ->
  parseInt16 (String c1 (String c2 (String c3 (String c4 (String c5
               (String c6 EmptyString))))))
  = Some (1 * (16 * (16 * (16 * (16 * (16 * (16 * 0 + v1) + v2) + v3) + v4) + v5) + v6)).
Proof.
  intros H1 H2 H3 H4 H5 H6.
  destruct (hex_value_plain c1 v1 H1) as (Hs & Hm & Hp & _).
  destruct (hex_value_plain c2 v2 H2) as (_ & _ & _ & Hx & HX).
  unfold parseInt16. cbn [trimStart]. rewrite Hs, Hm, Hp.
  unfold strip_0x. rewrite Hx, HX, andb_false_r.
  cbn [hex_prefix]. rewrite H1, H2, H3, H4, H5, H6. reflexivity.
Qed.

(** The three channels of a number written by six digits. *)
Lemma channels_of_number (v1 v2 v3 v4 v5 v6 : Z) :
  0 <= v1 < 16 -> 0 <= v2 < 16 -> 0 <= v3 < 16 ->
  0 <= v4 < 16 -> 0 <= v5 < 16 -> 0 <= v6 < 16 ->
  let num :=
    Some (1 * (16 * (16 * (16 * (16 * (16 * (16 * 0 + v1) + v2) + v3) + v4) + v5) + v6)) in
  shr num 16 = 16 * v1 + v2 /\
  band (shr num 8) 255 = 16 * v3 + v4 /\
  band (to_int32 num) 255 = 16 * v5 + v6.
Proof.
  intros H1 H2 H3 H4 H5 H6. cbv zeta.
  set (n := 1 * _).
  assert (Hn : 0 <= n < 2 ^ 24) by (subst n; lia).
  assert (Hi : to_int32 (Some n) = n).
  { unfold to_int32. change (2 ^ 31) with 2147483648.
    change (2 ^ 32) with 4294967296. change (2 ^ 24) with 16777216 in Hn.
    rewrite Z.mod_small by lia. lia. }
  assert (Hsmall : forall m, 0 <= m < 2 ^ 24 -> to_int32 (Some m) = m).
  { intros m Hm. unfold to_int32. change (2 ^ 31) with 2147483648.
    change (2 ^ 32) with 4294967296. change (2 ^ 24) with 16777216 in Hm.
    rewrite Z.mod_small by lia. lia. }
  change (2 ^ 24) with 16777216 in *.
  unfold shr, band. rewrite Hi.
  change (16 mod 32) with 16. change (8 mod 32) with 8.
  rewrite !Z.shiftr_div_pow2 by lia.
  change (2 ^ 16) with 65536. change (2 ^ 8) with 256.
  rewrite (Hsmall 255) by lia.
  rewrite (Hsmall (n / 256)) by (split; [apply Z.div_pos | apply Z.div_lt_upper_bound]; lia).
  rewrite (Hsmall n) by lia.
  change 255 with (Z.ones 8). rewrite !Z.land_ones by lia.
  change (2 ^ 8) with 256. subst n. clear Hn Hi Hsmall.
  assert (E8 : (1 * (16 * (16 * (16 * (16 * (16 * (16 * 0 + v1) + v2) + v3) + v4) + v5) + v6))
               / 256 = 4096 * v1 + 256 * v2 + 16 * v3 + v4).
  { symmetry. apply Z.div_unique with (r := 16 * v5 + v6); lia. }
  rewrite E8. repeat split.
  - symmetry. apply Z.div_unique with (r := 4096 * v3 + 256 * v4 + 16 * v5 + v6); lia.
  - symmetry. apply Z.mod_unique with (q := 16 * v1 + v2); lia.
  - symmetry.
    apply Z.mod_unique with (q := 4096 * v1 + 256 * v2 + 16 * v3 + v4); lia.
Qed.

Lemma clamp_max_min (x : Z) : Z.max 0 (Z.min 255 x) = clamp x.
Proof. unfold clamp. destruct (Z.ltb_spec x 0), (Z.ltb_spec 255 x); lia. Qed.

Lemma clamp_range (x : Z) : 0 <= clamp x <= 255.
Proof. unfold clamp. destruct (Z.ltb_spec x 0), (Z.ltb_spec 255 x); lia. Qed.

(** Two-digit rendering of a channel, checked for each of its 256 values. *)
Lemma padStart2_toString16 (r : Z) :
  0 <= r <= 255 -> padStart2 (toString16 r) = hex2 r.
Proof.
  intros Hr.
  assert (Hall : forallb (fun k => String.eqb (padStart2 (toString16 (Z.of_nat k)))
                                     (hex2 (Z.of_nat k)))
                   (seq 0 256) = true) by (vm_compute; reflexivity).
  rewrite forallb_forall in Hall.
  specialize (Hall (Z.to_nat r)). rewrite Z2Nat.id in Hall by lia.
  apply String.eqb_eq, Hall, in_seq. lia.
Qed.

(** The result for a colour expanded to six digits. *)
Lemma shade_six (c1 c2 c3 c4 c5 c6 : ascii) (amount : Z) :
  is_Some (hex_value c1) -> is_Some (hex_value c2) -> is_Some (hex_value c3) ->
  is_Some (hex_value c4) -> is_Some (hex_value c5) -> is_Some (hex_value c6) ->
  let num :=
    parseInt16 (String c1 (String c2 (String c3 (String c4 (String c5
                  (String c6 EmptyString)))))) in
  padStart2 (toString16 (Z.max 0 (Z.min 255 (shr num 16 + amount))))
    = hex2 (clamp (channel c1 c2 + amount)) /\
  padStart2 (toString16 (Z.max 0 (Z.min 255 (band (shr num 8) 255 + amount))))
    = hex2 (clamp (channel c3 c4 + amount)) /\
  padStart2 (toString16 (Z.max 0 (Z.min 255 (band (to_int32 num) 255 + amount))))
    = hex2 (clamp (channel c5 c6 + amount)).
Proof.
  intros [v1 H1] [v2 H2] [v3 H3] [v4 H4] [v5 H5] [v6 H6]. cbv zeta.
  rewrite (parseInt16_six _ _ _ _ _ _ _ _ _ _ _ _ H1 H2 H3 H4 H5 H6).
  destruct (channels_of_number v1 v2 v3 v4 v5 v6) as (Er & Eg & Eb);
    eauto using hex_value_range.
  rewrite Er, Eg, Eb, !clamp_max_min.
  unfold channel. rewrite H1, H2, H3, H4, H5, H6. cbn [default].
  repeat split; apply padStart2_toString16, clamp_range.
Qed.

Lemma forallb_hex (l : list ascii) :
  forallb (fun c => bool_decide (is_Some (hex_value c))) l = true ->
  Forall (fun c => is_Some (hex_value c)) l.
Proof.
  rewrite forallb_forall, Forall_forall. intros H c Hc.
  apply list_elem_of_In in Hc. specialize (H c Hc). now apply bool_decide_eq_true in H.
Qed.

(** The derivation for any shift: expansion, shift, clamp, encoding. *)
Lemma adjustColorShade_any_percent (hex : string) (percent : Z) :
  is_hex_color hex = true ->
  adjustColorShade hex percent = spec_shade hex percent.
Proof.
  intros Hhex.
  unfold is_hex_color in Hhex. apply andb_prop in Hhex as [Hlen Hall].
  apply forallb_hex in Hall.
  unfold adjustColorShade, shade_channels, spec_shade.
  set (amount := round _).
  destruct (strip_hash hex) as [|c1 [|c2 [|c3 [|c4 [|c5 [|c6 [|c7 rest]]]]]]];
    try discriminate Hlen; cbn [list_ascii_of_string] in Hall;
    repeat match goal with
    | H : Forall _ (_ :: _) |- _ => apply Forall_cons in H as [? H]
    end.
  - cbn [String.length Nat.eqb expand].
    change (map_chars _ _)
      with (String c1 (String c1 (String c2 (String c2 (String c3
              (String c3 EmptyString)))))).
    destruct (shade_six c1 c1 c2 c2 c3 c3 amount) as (Er & Eg & Eb); auto.
    cbv zeta in Er, Eg, Eb. now rewrite Er, Eg, Eb.
  - cbn [String.length Nat.eqb expand].
    destruct (shade_six c1 c2 c3 c4 c5 c6 amount) as (Er & Eg & Eb); auto.
    cbv zeta in Er, Eg, Eb. now rewrite Er, Eg, Eb.
Qed.

(** C6. Applied to a colour of three or six hexadecimal digits with
    [percent = -10], [adjustColorShade] expands shorthand by doubling each
    digit, shifts each channel by [round(2.55 * percent)], clamps each channel
    to [0, 255] and writes the result with six hexadecimal digits.  The shift
    is -25 ([Math.round] takes -25.5 to -25); in particular the shade of
    [#FBBF24] is (226, 166, 11), written [#e2a60b]. *)
Theorem adjustColorShade_spec (hex : string) :
  is_hex_color hex = true ->
  adjustColorShade hex (-10) = spec_shade hex (-10) /\
  round ((255 # 100) * inject_Z (-10)) = -25 /\
  shade_channels "#FBBF24" (-10) = (226, 166, 11) /\
  adjustColorShade "#FBBF24" (-10) = "#e2a60b".
Proof.
  intros Hhex. split; [|repeat split; reflexivity].
  now apply adjustColorShade_any_percent.
Qed.

(** The shorthand colour [#abc]. *)
Lemma adjustColorShade_spec_witness :
  adjustColorShade "#abc" (-10) = "#91a2b3".
Proof.
  destruct (adjustColorShade_spec "#abc" eq_refl) as [H _].
  rewrite H. reflexivity.
Defined.

(** C6 as stated fails: the channels of the shade of [#FBBF24] are neither
    (223, 165, 13) nor the channels shifted by 26. *)
Lemma adjustColorShade_counterexample :
  shade_channels "#FBBF24" (-10) <> (223, 165, 13) /\
  shade_channels "#FBBF24" (-10) <> (251 - 26, 191 - 26, 36 - 26).
Proof. split; vm_compute; discriminate. Qed.

End ColorFacts.

(** ** Interaction *)

Module InteractionFacts.
Import Js Dom App Interaction.

Local Open Scope string_scope.

Lemma lookup_map {A B : Type} (f : A -> B) (l : list A) (i : nat) :
  map f l !! i = option_map f (l !! i).
Proof.
  revert i. induction l as [|x l IH]; intros [|i]; cbn; auto.
Qed.

Lemma clickable_set_id (v : string) (e : Element) :
  clickable (set_id v e) = clickable e.
Proof. reflexivity. Qed.

(** The export's loop is the indexing followed by the test on the record. *)
Lemma export_regions_data_gate (settings : GlobalTooltipSettings)
    (store : gmap string RegionData) (doc : Document) (idCounter : nat) :
  export_regions settings store idCounter doc
  = map (data_gate settings store) (assign_ids idCounter doc).
Proof.
  revert idCounter. induction doc as [|e rest IH]; intros idCounter; [reflexivity|].
  cbn [export_regions assign_ids].
  destruct (clickable e) eqn:Hc; [destruct (falsy (id e))|]; cbn [map];
    rewrite IH; f_equal; unfold data_gate; rewrite ?clickable_set_id, Hc; reflexivity.
Qed.

Lemma has_content_None : has_content None = false.
Proof. reflexivity. Qed.

(** In the exported script, the read of an identifier that has no entry and
    names no property of [Object.prototype] returns [undefined], provided
    the data have no entry [__proto__]. *)
Lemma export_read_unbound (store : gmap string RegionData) (k : string) :
  store !! k = None -> inherited k = false -> store !! "__proto__" = None ->
  read (export_store store) k = None.
Proof.
  intros Hk Hin Hproto. unfold read, export_store. cbn [own proto].
  rewrite lookup_fmap, Hproto. cbn [fmap option_fmap option_map].
  rewrite delete_id by exact Hproto. rewrite Hk. cbn.
  unfold from_object_prototype. now rewrite Hin.
Qed.

(** C7. A region whose identifier has no record in the store:
    - in the exported document it is exactly the indexed element (no style,
      class or listener is added), when its identifier names no property of
      [Object.prototype] and the data have no entry [__proto__];
    - in the live editor the tooltip handlers show nothing for it: a pointer
      move leaves the active tooltip as it is, a click in preview mode opens
      no link and leaves no click tooltip;
    - in the live editor it is styled and listened to like every addressable
      shape: its fill becomes [defaultRegionColor], its cursor [pointer], and
      the three listeners of MapDisplay are attached. *)
Theorem unbound_region (settings : GlobalTooltipSettings)
    (store : gmap string RegionData) (doc : Document) (i : nat) (e : Element) :
  indexRegions doc !! i = Some e ->
  store !! id e = None ->
  (inherited (id e) = false -> store !! "__proto__" = None ->
   export_setup settings store doc !! i = Some e) /\
  (forall x y active,
      handleMouseMove settings store (id e) x y active = active) /\
  (forall active,
      snd (handleClick_preview settings store (id e) active) = None /\
      fst (handleClick_preview settings store (id e) active)
      = match tooltipTrigger settings with
        | Geometry.click => None
        | Geometry.hover => active
        end) /\
  (clickable e = true ->
   forall mode sel,
     fill (style (style_region settings mode sel e)) = defaultRegionColor settings /\
     cursor (style (style_region settings mode sel e)) = "pointer" /\
     style_regions settings mode sel (indexRegions doc) !! i
       = Some (style_region settings mode sel e) /\
     exists e', attach_listeners (indexRegions doc) !! i = Some e' /\
                listeners e'
                = (listeners e ++ [(ev_click, L_handleClick);
                                   (ev_mousemove, L_handleMouseMove);
                                   (ev_mouseleave, L_handleMouseLeave)])%list).
Proof.
  intros Hi Hnone. split; [|split; [|split]].
  - intros Hin Hproto.
    unfold export_setup. rewrite export_regions_data_gate. fold (indexRegions doc).
    rewrite lookup_map, Hi. cbn [option_map]. f_equal.
    unfold data_gate.
    rewrite (export_read_unbound store (id e) Hnone Hin Hproto).
    now destruct (clickable e).
  - intros x y active. unfold handleMouseMove. rewrite Hnone, has_content_None.
    now destruct (tooltipTrigger settings).
  - intros active. unfold handleClick_preview.
    rewrite Hnone, has_content_None. split; reflexivity.
  - intros Hc mode sel. split; [|split; [|split]].
    + unfold style_region. destruct (originalStroke e), mode, sel;
        repeat match goal with |- context [if ?b then _ else _] => destruct b end;
        reflexivity.
    + unfold style_region. destruct (originalStroke e), mode, sel;
        repeat match goal with |- context [if ?b then _ else _] => destruct b end;
        reflexivity.
    + unfold style_regions. rewrite lookup_map, Hi.
      cbn [option_map]. now rewrite Hc.
    + unfold attach_listeners. rewrite lookup_map, Hi.
      cbn [option_map]. rewrite Hc. eexists. split; [reflexivity|].
      cbn [addEventListener listeners]. now rewrite <- !app_assoc.
Qed.

(** A shape without a record beside one with a record. *)
Lemma unbound_region_witness :
  export_setup initial_settings (<["c" := mkRegionData "C" "" "" None]> ∅)
    [plain "path" ""; plain "path" "c"] !! 0%nat
  = Some (plain "path" "map-region-0").
Proof.
  destruct (unbound_region initial_settings
              (<["c" := mkRegionData "C" "" "" None]> ∅)
              [plain "path" ""; plain "path" "c"] 0
              (plain "path" "map-region-0")) as [H _].
  - reflexivity.
  - vm_compute. reflexivity.
  - apply H; vm_compute; reflexivity.
Defined.

(** A shape named [constructor] passes the test of the exported script
    without any record: [customizationData.constructor] is a function. *)
Example export_gate_inherited_sample :
  export_setup initial_settings ∅ [plain "path" "constructor"]
  = [make_interactive initial_settings (plain "path" "constructor")].
Proof. reflexivity. Qed.

(** C7 as stated fails in the live editor: the store has no record for
    region [a], and the styling effect changes its fill, stroke and cursor. *)
Lemma live_styling_counterexample :
  ~ (own (customizationData initial) !! "a" = None ->
     map style (style_regions initial_settings edit None [plain "path" "a"])
     = map style [plain "path" "a"]).
Proof.
  intros H. specialize (H eq_refl). vm_compute in H. discriminate H.
Qed.

End InteractionFacts.
(** ** Selection and the annotation store *)

Module AppFacts.
Import Js Dom App TrimFacts RenameFacts.

Local Open Scope string_scope.

Lemma falsy_false (s : string) : falsy s = false <-> s <> "".
Proof. destruct s; simpl; split; congruence. Qed.

Lemma is_Some_insert {A : Type} (m : gmap string A) (k k' : string) (x : A) :
  is_Some (m !! k) -> is_Some (<[k' := x]> m !! k).
Proof.
  intros H. destruct (decide (k' = k)) as [->|Hne].
  - rewrite lookup_insert_eq. eauto.
  - now rewrite lookup_insert_ne.
Qed.

(** *** Every shape keeps a name *)

Lemma named_initial : named initial.
Proof. split; [constructor | intros sel H; discriminate H]. Qed.

Lemma panel_effect_frame (st : AppState) :
  dom (panel_effect st) = dom st /\
  selectedRegionId (panel_effect st) = selectedRegionId st.
Proof.
  unfold panel_effect. destruct (selectedRegionId st) as [sel|] eqn:Hsel; auto.
  destruct (falsy sel); auto. destruct (truthy _); auto.
Qed.

Lemma idChangeEffect_named (op : IdChangeOp) (doc : Document) :
  falsy (newId op) = false ->
  Forall (fun e => clickable e = true -> falsy (id e) = false) doc ->
  Forall (fun e => clickable e = true -> falsy (id e) = false)
    (idChangeEffect op doc).
Proof.
  intros Hnew Hdoc. unfold idChangeEffect.
  destruct (querySelector _ doc) as [i|]; [|exact Hdoc].
  destruct (doc !! i) as [e|] eqn:He; [|exact Hdoc].
  apply Forall_insert; [exact Hdoc|]. intros _. exact Hnew.
Qed.

(** What a rename leaves of the DOM and of the selection. *)
Lemma renameRegion_frame (oldId newId : string) (st : AppState) :
  snd (renameRegion oldId newId st) = st \/
  (trim newId <> "" /\
   dom (snd (renameRegion oldId newId st))
   = idChangeEffect (mkIdChangeOp oldId (trim newId)) (dom st) /\
   selectedRegionId (snd (renameRegion oldId newId st)) = Some (trim newId) /\
   customizationData (snd (renameRegion oldId newId st))
   = move_record oldId (trim newId) (customizationData st) /\
   trim newId <> oldId /\
   hasOwnProperty (customizationData st) (trim newId) = Return false).
Proof.
  unfold renameRegion.
  destruct (handleRegionIdChange_cases oldId newId st)
    as [(He & ->) | [(Hne & Hbad & ->) |
        (Hne & Hn & Hs & [(_ & ->) | [(_ & ->) | (Hhas & ->)]])]];
    cbn [fst snd]; auto.
  right. repeat split; auto.
Qed.

Lemma handle_named (a : Action) (st : AppState) :
  named st -> named (handle a st).
Proof.
  intros Hnamed. pose proof Hnamed as [Hdom Hsel].
  destruct a as [content | i | | data | typed]; cbn [handle].
  - split; [apply IndexFacts.assign_ids_named | intros sel H; discriminate H].
  - destruct (dom st !! i) as [target|] eqn:Ht; [|exact Hnamed].
    destruct (clickable target) eqn:Hc; [|exact Hnamed].
    split; [exact Hdom|]. cbn. intros sel [= <-].
    rewrite Forall_forall in Hdom. apply Hdom; [|exact Hc].
    eapply list_elem_of_lookup_2; eauto.
  - split; [exact Hdom | intros sel H; discriminate H].
  - destruct (selectedRegionId st) as [sel|] eqn:Es; [|exact Hnamed].
    destruct (falsy sel); [exact Hnamed|].
    split; [exact Hdom|]. cbn. intros s H. now apply (proj2 Hnamed).
  - destruct (selectedRegionId st) as [sel|] eqn:Es; [|exact Hnamed].
    destruct (falsy sel); [exact Hnamed|].
    destruct (idError _ sel typed || String.eqb typed sel); [exact Hnamed|].
    destruct (renameRegion_frame sel (trim typed) st)
      as [-> | (Hn & Ed & Hs & _)]; [exact Hnamed|].
    apply falsy_false in Hn. split.
    + rewrite Ed. now apply idChangeEffect_named.
    + intros s H. rewrite Hs in H. now injection H as <-.
Qed.

Lemma step_named (a : Action) (st : AppState) : named st -> named (step a st).
Proof.
  intros H. apply (handle_named a) in H. unfold step, named in *.
  destruct (panel_effect_frame (handle a st)) as [-> ->]. exact H.
Qed.

Lemma run_named (acts : list Action) (st : AppState) (seen : gset string) :
  named st -> named (fst (run acts st seen)).
Proof.
  revert st seen. induction acts as [|a rest IH]; intros st seen H; [exact H|].
  cbn [run]. apply IH. now apply step_named.
Qed.

(** *** The store under ordinary identifiers *)

Lemma invariant_initial : invariant initial ∅.
Proof.
  split.
  - apply named_initial.
  - apply plain_store_empty.
  - constructor.
  - intros sel H. discriminate H.
  - intros k H. set_solver.
Qed.

Lemma inherited_generated (n : nat) :
  inherited ("map-region-" ++ of_nat n) = false.
Proof. reflexivity. Qed.

Lemma assign_ids_ordinary (doc : Document) (c : nat) :
  Forall (fun e => inherited (id e) = false) doc ->
  Forall (fun e => inherited (id e) = false) (assign_ids c doc).
Proof.
  intros H. revert c. induction H as [|e rest He _ IH]; intros c; [constructor|].
  cbn [assign_ids].
  destruct (clickable e); [destruct (falsy (id e))|]; constructor; auto.
Qed.

Lemma idChangeEffect_ordinary (op : IdChangeOp) (doc : Document) :
  inherited (newId op) = false ->
  Forall (fun e => inherited (id e) = false) doc ->
  Forall (fun e => inherited (id e) = false) (idChangeEffect op doc).
Proof.
  intros Hnew Hdoc. unfold idChangeEffect.
  destruct (querySelector _ doc) as [i|]; [|exact Hdoc].
  destruct (doc !! i) as [e|] eqn:He; [|exact Hdoc].
  apply Forall_insert; [exact Hdoc | exact Hnew].
Qed.

(** The panel's effect on a state that a handler leaves. *)
Lemma panel_effect_invariant (h : AppState) (seen : gset string) :
  settles h seen -> invariant (panel_effect h) seen.
Proof.
  intros (Hnamed & Hplain & Hids & Hsel & Hseen).
  unfold panel_effect.
  destruct (selectedRegionId h) as [sel|] eqn:Es.
  2:{ split; auto.
      - intros s H. congruence.
      - intros k Hk. destruct (Hseen k Hk) as [H | H]; [exact H | congruence]. }
  assert (Hne : falsy sel = false) by (apply (proj2 Hnamed); congruence).
  assert (Hord : inherited sel = false) by (apply Hsel; congruence).
  rewrite Hne. unfold selectedData. rewrite (read_plain _ sel Hplain Hord).
  destruct (own (customizationData h) !! sel) as [v|] eqn:Ev.
  - assert (Hv : exists d, v = Rec d) by (eapply (proj2 Hplain); eauto).
    destruct Hv as [d ->]. cbn [truthy]. split; auto.
    + intros s H. assert (s = sel) as -> by congruence.
      split; [exact Hord | rewrite Ev; eauto].
    + intros k Hk. destruct (Hseen k Hk) as [H | H]; [exact H|].
      assert (k = sel) as -> by congruence. rewrite Ev. eauto.
  - cbn [truthy]. unfold handleDataChange, spread.
    split; cbn [dom customizationData selectedRegionId own].
    + exact Hnamed.
    + apply plain_store_insert; [exact Hplain | exact Hord].
    + exact Hids.
    + intros s H. assert (s = sel) as -> by congruence.
      split; [exact Hord | rewrite lookup_insert_eq; eauto].
    + intros k Hk. destruct (Hseen k Hk) as [H | H].
      * now apply is_Some_insert.
      * assert (k = sel) as -> by congruence. rewrite lookup_insert_eq. eauto.
Qed.

Lemma track_panel_effect (a : Action) (st h : AppState) (seen : gset string) :
  track a st (panel_effect h) seen = track a st h seen.
Proof.
  destruct (panel_effect_frame h) as (_ & Es). unfold track. now rewrite Es.
Qed.

Lemma settles_unchanged (st : AppState) (seen : gset string) :
  invariant st seen ->
  settles st (match selectedRegionId st with
              | Some sel => {[sel]} ∪ seen
              | None => seen
              end).
Proof.
  intros [Hnamed Hplain Hids Hsel Hseen].
  split; [exact Hnamed|]. split; [exact Hplain|]. split; [exact Hids|]. split.
  - intros sel H. now apply Hsel.
  - intros k Hk. destruct (selectedRegionId st) as [sel|]; [|auto].
    apply elem_of_union in Hk as [Hk|Hk]; [|auto].
    apply elem_of_singleton in Hk as ->. auto.
Qed.

Lemma handle_LoadFile (content : Document) (st : AppState) (seen : gset string) :
  Forall (fun e => inherited (id e) = false) content ->
  settles (handle (LoadFile content) st)
    (track (LoadFile content) st (handle (LoadFile content) st) seen).
Proof.
  intros Hord. cbn [handle track]. unfold handleFileLoad.
  split; [|split; [|split; [|split]]];
    cbn [dom customizationData selectedRegionId].
  - split; [apply IndexFacts.assign_ids_named | intros sel H; discriminate H].
  - apply plain_store_empty.
  - now apply assign_ids_ordinary.
  - intros sel H. discriminate H.
  - intros k H. set_solver.
Qed.

Lemma handle_ClickRegion (i : nat) (st : AppState) (seen : gset string) :
  invariant st seen ->
  settles (handle (ClickRegion i) st)
    (track (ClickRegion i) st (handle (ClickRegion i) st) seen).
Proof.
  intros Hinv. pose proof (handle_named (ClickRegion i) st (inv_named _ _ Hinv))
    as Hnamed'.
  cbn [handle track] in *.
  destruct (dom st !! i) as [target|] eqn:Ht;
    [|now apply settles_unchanged].
  destruct (clickable target) eqn:Hc; [|now apply settles_unchanged].
  destruct Hinv as [Hnamed Hplain Hids Hsel Hseen].
  unfold handleRegionSelect in *. cbn [selectedRegionId].
  split; [exact Hnamed'|]. split; [exact Hplain|]. split; [exact Hids|].
  split; cbn [selectedRegionId customizationData].
  - intros sel [= <-]. rewrite Forall_forall in Hids.
    apply Hids. eapply list_elem_of_lookup_2; eauto.
  - intros k Hk. apply elem_of_union in Hk as [Hk|Hk]; [|auto].
    apply elem_of_singleton in Hk as ->. auto.
Qed.

Lemma handle_ClickBackground (st : AppState) (seen : gset string) :
  invariant st seen ->
  settles (handle ClickBackground st)
    (track ClickBackground st (handle ClickBackground st) seen).
Proof.
  intros [[Hdom _] Hplain Hids Hsel Hseen]. cbn [handle track].
  unfold handleRegionSelect. cbn [selectedRegionId].
  split; [split; [exact Hdom | intros sel H; discriminate H]|].
  split; [exact Hplain|]. split; [exact Hids|].
  split; cbn [selectedRegionId customizationData]; [|auto].
  intros sel H. discriminate H.
Qed.

Lemma handle_EditData (data : RegionData) (st : AppState) (seen : gset string) :
  invariant st seen ->
  settles (handle (EditData data) st)
    (track (EditData data) st (handle (EditData data) st) seen).
Proof.
  intros Hinv. cbn [handle track].
  destruct (selectedRegionId st) as [sel|] eqn:Esel.
  - destruct Hinv as [[Hdom Hne] Hplain Hids Hsel Hseen].
    rewrite (Hne sel Esel).
    unfold handleDataChange, spread. cbn [selectedRegionId]. rewrite Esel.
    split; [split; [exact Hdom | cbn; intros s H; apply Hne; congruence]|].
    split; cbn [selectedRegionId customizationData dom own].
    { apply plain_store_insert; [exact Hplain|].
      now destruct (Hsel sel Esel). }
    split; [exact Hids|]. split.
    + intros s H. apply Hsel. congruence.
    + intros k Hk. apply elem_of_union in Hk as [Hk|Hk].
      * apply elem_of_singleton in Hk as ->. auto.
      * left. apply is_Some_insert. now apply Hseen.
  - now apply settles_unchanged.
Qed.

Lemma handle_RenameSelected (typed : string) (st : AppState)
    (seen : gset string) :
  inherited (trim typed) = false ->
  invariant st seen ->
  settles (handle (RenameSelected typed) st)
    (track (RenameSelected typed) st (handle (RenameSelected typed) st) seen).
Proof.
  intros Hord Hinv.
  pose proof (handle_named (RenameSelected typed) st (inv_named _ _ Hinv))
    as Hnamed'.
  cbn [handle track] in *.
  destruct (selectedRegionId st) as [sel|] eqn:Esel.
  2:{ destruct Hinv as [Hnamed Hplain Hids Hsel Hseen].
      split; [exact Hnamed|]. split; [exact Hplain|]. split; [exact Hids|].
      split; [|auto]. intros s H. rewrite Esel in H. discriminate H. }
  pose proof Hinv as [Hnamed Hplain Hids Hsel Hseen].
  destruct (Hsel sel Esel) as [Hsord Hrec].
  assert (Hidle : settles st
                     match selectedRegionId st with
                     | Some new => if String.eqb sel new then seen
                                   else {[new]} ∪ seen ∖ {[sel]}
                     | None => seen
                     end).
  { rewrite Esel, String.eqb_refl. split; [exact Hnamed|].
    split; [exact Hplain|]. split; [exact Hids|]. split; [|auto].
    intros s H. now apply Hsel. }
  destruct (falsy sel); [exact Hidle|].
  destruct (idError _ sel typed || String.eqb typed sel); [exact Hidle|].
  destruct (renameRegion_frame sel (trim typed) st)
    as [E | (Hn & Ed & Es & Ec & Hdiff & Hhas)].
  { rewrite E in *. exact Hidle. }
  set (new := trim (trim typed)) in *.
  assert (Hnew : inherited new = false).
  { subst new. now rewrite trim_idempotent. }
  rewrite (hasOwnProperty_own _ _ (plain_store_check _ Hplain)) in Hhas.
  injection Hhas as Hhas. apply bool_decide_eq_false in Hhas.
  assert (Hfree : own (customizationData st) !! new = None).
  { destruct (own (customizationData st) !! new); [|reflexivity].
    exfalso. apply Hhas. eauto. }
  destruct (move_record_plain sel new (customizationData st)
              Hplain Hsord Hnew Hdiff Hfree) as (H1 & Hplain').
  destruct (move_record_others sel new (customizationData st) Hdiff)
    as (H2 & H3).
  assert (E : String.eqb sel new = false) by (apply String.eqb_neq; congruence).
  rewrite Es, E.
  split; [exact Hnamed'|]. rewrite Ec. split; [exact Hplain'|]. split.
  { rewrite Ed. now apply idChangeEffect_ordinary. }
  split.
  - intros s H. rewrite Es in H. injection H as <-. exact Hnew.
  - intros k Hk'. apply elem_of_union in Hk' as [Hk'|Hk'].
    { apply elem_of_singleton in Hk' as ->. auto. }
    apply elem_of_difference in Hk' as [Hin Hnot].
    rewrite elem_of_singleton in Hnot.
    destruct (decide (k = new)) as [->|Hkn]; [auto|].
    left. rewrite H3 by auto. now apply Hseen.
Qed.

(** Each ordinary turn preserves the invariant. *)
Lemma step_invariant (a : Action) (st : AppState) (seen : gset string) :
  ordinary_action a ->
  invariant st seen -> invariant (step a st) (track a st (step a st) seen).
Proof.
  intros Hord Hinv. unfold step. rewrite track_panel_effect.
  apply panel_effect_invariant.
  destruct a; cbn [ordinary_action] in Hord.
  - now apply handle_LoadFile.
  - now apply handle_ClickRegion.
  - now apply handle_ClickBackground.
  - now apply handle_EditData.
  - now apply handle_RenameSelected.
Qed.

Lemma run_invariant (acts : list Action) (st : AppState) (seen : gset string) :
  Forall ordinary_action acts ->
  invariant st seen ->
  invariant (fst (run acts st seen)) (snd (run acts st seen)).
Proof.
  intros Hord. revert st seen.
  induction Hord as [|a rest Ha _ IH]; intros st seen Hinv; [exact Hinv|].
  cbn [run]. apply IH. now apply step_invariant.
Qed.

(** Selecting a region for which [customizationData[id]] is falsy creates the
    default record, whatever the state. *)
Lemma selection_creates_default (st : AppState) (i : nat) (target : Element) :
  dom st !! i = Some target ->
  clickable target = true ->
  falsy (id target) = false ->
  truthy (read (customizationData st) (id target)) = false ->
  selectedRegionId (step (ClickRegion i) st) = Some (id target) /\
  own (customizationData (step (ClickRegion i) st)) !! id target
  = Some (Rec (mkRegionData "" "" "" (Some ""))).
Proof.
  intros Ht Hc Hid Hread. unfold step. cbn [handle]. rewrite Ht, Hc.
  unfold panel_effect, handleRegionSelect, selectedData.
  cbn [selectedRegionId customizationData]. rewrite Hid, Hread.
  cbn [handleDataChange selectedRegionId customizationData own].
  split; [reflexivity | apply lookup_insert_eq].
Qed.

(** C10. Selecting a region creates a record with four empty strings when
    [customizationData[id]] is falsy, which it is when the store has no
    property [id] of its own, its prototype is [Object.prototype] and [id]
    names no property of [Object.prototype]; and after any sequence of
    ordinary actions every identifier selected since the last file load
    (followed through renames) is a key of the store.  But the test reads the
    prototype chain: a shape whose identifier is [constructor] is selected
    without any record being created. *)
Theorem selection_without_record :
  (snd (run [LoadFile [plain "path" "constructor"]; ClickRegion 0] initial ∅)
   = {["constructor"]} /\
   selectedRegionId
     (fst (run [LoadFile [plain "path" "constructor"]; ClickRegion 0]
             initial ∅))
   = Some "constructor" /\
   customizationData
     (fst (run [LoadFile [plain "path" "constructor"]; ClickRegion 0]
             initial ∅))
   = empty_store) /\
  (forall (st : AppState) (i : nat) (target : Element),
      dom st !! i = Some target ->
      clickable target = true ->
      falsy (id target) = false ->
      own (customizationData st) !! id target = None ->
      proto (customizationData st) = None ->
      inherited (id target) = false ->
      selectedRegionId (step (ClickRegion i) st) = Some (id target) /\
      own (customizationData (step (ClickRegion i) st)) !! id target
        = Some (Rec (mkRegionData "" "" "" (Some "")))) /\
  (forall (acts : list Action) (k : string),
      Forall ordinary_action acts ->
      k ∈ snd (run acts initial ∅) ->
      is_Some (own (customizationData (fst (run acts initial ∅))) !! k)).
Proof.
  split; [|split].
  - split; [|split]; vm_compute; reflexivity.
  - intros st i target Ht Hc Hid Hnone Hproto Hin.
    apply selection_creates_default; auto.
    unfold read, from_object_prototype. now rewrite Hnone, Hproto, Hin.
  - intros acts k Hord Hk.
    destruct (run_invariant acts initial ∅ Hord invariant_initial)
      as [_ _ _ _ Hseen].
    now apply Hseen.
Qed.

(** A file with one unnamed shape is loaded and the shape is clicked. *)
Example selection_creates_record_sample :
  snd (run [LoadFile [plain "path" ""]; ClickRegion 0] initial ∅)
    = {["map-region-0"]} /\
  own (customizationData
         (fst (run [LoadFile [plain "path" ""]; ClickRegion 0] initial ∅)))
    !! "map-region-0" = Some (Rec defaultData).
Proof. split; vm_compute; reflexivity. Qed.

End AppFacts.

(** ** Embedding the SVG text *)

Module ExportFacts.
Import Js ExportService Tactics.

Local Open Scope string_scope.

#[local] Arguments String.append !_ _ / : simpl nomatch.

(** *** The four replacements as one pass *)



Lemma replace_char (p : ascii) (rep s : string) :
  replace_all false (String p EmptyString) rep s
  = map_chars (fun c => if Ascii.eqb p c then rep else String c EmptyString) s.
Proof.
  unfold replace_all. induction s as [|c s IH]; [reflexivity|].
  cbn [replace_from map_chars starts_with String.length Nat.sub].
  rewrite andb_true_r. destruct (Ascii.eqb p c); now rewrite IH.
Qed.

Lemma replace_backslash (rep s : string) :
  replace_all false backslash rep s
  = map_chars (fun c => if Ascii.eqb (ascii_of_nat 92) c then rep
                        else String c EmptyString) s.
Proof. apply (replace_char (ascii_of_nat 92)). Qed.

Lemma replace_backtick (rep s : string) :
  replace_all false backtick rep s
  = map_chars (fun c => if Ascii.eqb (ascii_of_nat 96) c then rep
                        else String c EmptyString) s.
Proof. apply (replace_char (ascii_of_nat 96)). Qed.

Lemma append_cons (x : ascii) (a b : string) :
  String x a ++ b = String x (a ++ b).
Proof. reflexivity. Qed.

Lemma append_assoc (a b c : string) : (a ++ b) ++ c = a ++ (b ++ c).
Proof.
  induction a as [|x a IH]; [reflexivity|]. rewrite !append_cons. now rewrite IH.
Qed.

Lemma map_chars_cons (f : ascii -> string) (c : ascii) (s : string) :
  map_chars f (String c s) = f c ++ map_chars f s.
Proof. reflexivity. Qed.

Lemma map_chars_app (f : ascii -> string) (a b : string) :
  map_chars f (a ++ b) = map_chars f a ++ map_chars f b.
Proof.
  induction a as [|c a IH]; [reflexivity|].
  rewrite append_cons, !map_chars_cons, IH. now rewrite append_assoc.
Qed.

Lemma passes12_correct (s : string) :
  replace_all false backtick (backslash ++ backtick)
    (replace_all false backslash (backslash ++ backslash) s)
  = map_chars passes12 s.
Proof.
  rewrite replace_backtick, replace_backslash.
  induction s as [|c s IH]; [reflexivity|].
  rewrite !map_chars_cons, map_chars_app, IH. f_equal.
  unfold passes12. rewrite (Ascii.eqb_sym c (ascii_of_nat 92)).
  destruct (Ascii.eqb (ascii_of_nat 92) c) eqn:E1; [reflexivity|].
  cbn [map_chars append]. rewrite (Ascii.eqb_sym c).
  now destruct (Ascii.eqb (ascii_of_nat 96) c).
Qed.

(** The first character of the image of a text under passes 1 and 2 is an
    opening brace only if the text starts with one. *)
Lemma brace_after_passes12 (s : string) :
  starts_with false "{" (map_chars passes12 s) = starts_with false "{" s.
Proof.
  destruct s as [|c s]; [reflexivity|]. cbn [map_chars]. unfold passes12.
  destruct (Ascii.eqb c (ascii_of_nat 92)) eqn:E1.
  { apply Ascii.eqb_eq in E1. subst c. reflexivity. }
  destruct (Ascii.eqb c (ascii_of_nat 96)) eqn:E2.
  { apply Ascii.eqb_eq in E2. subst c. reflexivity. }
  reflexivity.
Qed.

Lemma replace_from_0 (ci : bool) (pat rep : string) (c : ascii) (s : string) :
  replace_from ci pat rep 0 (String c s)
  = if starts_with ci pat (String c s)
    then rep ++ replace_from ci pat rep (String.length pat - 1) s
    else String c (replace_from ci pat rep 0 s).
Proof. reflexivity. Qed.

Lemma starts_with_cons (ci : bool) (p c : ascii) (pat s : string) :
  starts_with ci (String p pat) (String c s)
  = (if ci then Ascii.eqb (lower p) (lower c) else Ascii.eqb p c)
    && starts_with ci pat s.
Proof. reflexivity. Qed.

Lemma starts_brace (s : string) :
  starts_with false "{" s = true -> exists s', s = String "{" s'.
Proof.
  destruct s as [|d s']; [discriminate|]. rewrite starts_with_cons.
  intros [H _]%andb_prop. apply Ascii.eqb_eq in H. subst d. eauto.
Qed.

Lemma passes123_correct (s : string) :
  replace_all false "${" (backslash ++ "${") (map_chars passes12 s) = passes123 s.
Proof.
  unfold replace_all. set (rep := backslash ++ "${").
  induction s as [|c s IH]; [reflexivity|].
  rewrite map_chars_cons. cbn [passes123].
  destruct (Ascii.eqb c "$"%char) eqn:Ed.
  - apply Ascii.eqb_eq in Ed. subst c. cbn [andb].
    change (passes12 "$"%char) with "$". cbn [append].
    rewrite replace_from_0, starts_with_cons, Ascii.eqb_refl. cbn [andb].
    rewrite (brace_after_passes12 s).
    destruct (starts_with false "{" s) eqn:Eb; [|now rewrite IH].
    destruct (starts_brace s Eb) as [s' ->].
    rewrite map_chars_cons in *. change (passes12 "{"%char) with "{" in *.
    cbn [append String.length Nat.sub replace_from] in *.
    cbn [passes123 andb Ascii.eqb Bool.eqb] in *.
    change (passes12 "{"%char) with "{" in *. cbn [append] in *.
    rewrite starts_with_cons in IH. cbn [Ascii.eqb Bool.eqb andb] in IH.
    injection IH as IH. subst rep. unfold backslash in *. cbn [append] in *.
    now rewrite IH.
  - cbn [andb]. unfold passes12 at 1 3.
    destruct (Ascii.eqb c (ascii_of_nat 92)) eqn:E1.
    { apply Ascii.eqb_eq in E1. subst c. unfold backslash. cbn [append].
      rewrite !replace_from_0, !starts_with_cons. cbn [Ascii.eqb Bool.eqb andb].
      now rewrite IH. }
    destruct (Ascii.eqb c (ascii_of_nat 96)) eqn:E2.
    { apply Ascii.eqb_eq in E2. subst c. unfold backslash, backtick. cbn [append].
      rewrite !replace_from_0, !starts_with_cons. cbn [Ascii.eqb Bool.eqb andb].
      now rewrite IH. }
    cbn [append]. rewrite replace_from_0, starts_with_cons.
    rewrite Ascii.eqb_sym, Ed. cbn [andb]. now rewrite IH.
Qed.

(** *** Pass 4 *)

Lemma lower_special (c : ascii) :
  Ascii.eqb c (ascii_of_nat 92) || Ascii.eqb c (ascii_of_nat 96)
  || Ascii.eqb c "$"%char = true ->
  lower c = c.
Proof. by_cases_on_char c. Qed.

(** A character that matches an inert pattern character is copied by
    passes 1 to 3. *)
Lemma inert_match (p c : ascii) :
  inert p = true -> Ascii.eqb (lower p) (lower c) = true ->
  Ascii.eqb c (ascii_of_nat 92) = false /\
  Ascii.eqb c (ascii_of_nat 96) = false /\
  Ascii.eqb c "$"%char = false.
Proof.
  unfold inert. intros [[H1 H2]%andb_prop H3]%andb_prop Hm.
  apply Ascii.eqb_eq in Hm. rewrite Hm in *.
  apply negb_true_iff in H1, H2, H3.
  repeat split.
  - destruct (Ascii.eqb c (ascii_of_nat 92)) eqn:E; [|reflexivity].
    rewrite lower_special in H1 by (rewrite E; reflexivity). congruence.
  - destruct (Ascii.eqb c (ascii_of_nat 96)) eqn:E; [|reflexivity].
    rewrite lower_special in H2 by (rewrite E; now destruct (Ascii.eqb c (ascii_of_nat 92))). congruence.
  - destruct (Ascii.eqb c "$"%char) eqn:E; [|reflexivity].
    rewrite lower_special in H3 by (rewrite E; apply orb_true_r). congruence.
Qed.

Lemma passes123_copy (c : ascii) (s : string) :
  Ascii.eqb c (ascii_of_nat 92) = false ->
  Ascii.eqb c (ascii_of_nat 96) = false ->
  Ascii.eqb c "$"%char = false ->
  passes123 (String c s) = String c (passes123 s).
Proof.
  intros H1 H2 H3. cbn [passes123]. rewrite H3. cbn [andb]. unfold passes12.
  now rewrite H1, H2.
Qed.

(** The image of a text under passes 1 to 3 starts with a backslash or with
    the first character of the text. *)
Lemma passes123_head (c : ascii) (s : string) :
  exists t, passes123 (String c s) = String c t \/
            passes123 (String c s) = String (ascii_of_nat 92) t.
Proof.
  cbn [passes123]. destruct (Ascii.eqb c "$"%char && starts_with false "{" s).
  { eexists. right. reflexivity. }
  unfold passes12. destruct (Ascii.eqb c (ascii_of_nat 92)).
  { eexists. right. reflexivity. }
  destruct (Ascii.eqb c (ascii_of_nat 96)).
  { eexists. right. reflexivity. }
  eexists. left. reflexivity.
Qed.

Lemma inert_not_backslash (p : ascii) :
  inert p = true -> Ascii.eqb (lower p) (lower (ascii_of_nat 92)) = false.
Proof.
  unfold inert. intros [[H1 _]%andb_prop _]%andb_prop.
  apply negb_true_iff in H1. exact H1.
Qed.

(** An inert pattern matches the image of a text exactly where it matches
    the text. *)
Lemma starts_with_passes123 (pat s : string) :
  inert_pattern pat = true ->
  starts_with true pat (passes123 s) = starts_with true pat s.
Proof.
  revert s. induction pat as [|p pat IH]; intros s Hp; [reflexivity|].
  cbn [inert_pattern] in Hp. apply andb_prop in Hp as [Hp Hpat].
  destruct s as [|c s]; [reflexivity|].
  rewrite (starts_with_cons true p c pat s).
  destruct (Ascii.eqb (lower p) (lower c)) eqn:Em.
  - destruct (inert_match p c Hp Em) as (H1 & H2 & H3).
    rewrite (passes123_copy c s H1 H2 H3), starts_with_cons, Em. cbn [andb].
    now apply IH.
  - cbn [andb]. destruct (passes123_head c s) as [t [-> | ->]];
      rewrite starts_with_cons.
    + now rewrite Em.
    + now rewrite (inert_not_backslash p Hp).
Qed.

Lemma drop_0 (s : string) : drop 0 s = s.
Proof. now destruct s. Qed.

Lemma drop_length (k : nat) (s : string) :
  (String.length (drop k s) <= String.length s)%nat.
Proof.
  revert s. induction k as [|k IH]; intros s; [rewrite drop_0; lia|].
  destruct s as [|c s]; cbn [drop String.length]; [lia|].
  specialize (IH s). lia.
Qed.

Lemma replace_from_skip (ci : bool) (pat rep : string) (k : nat) (s : string) :
  replace_from ci pat rep k s = replace_from ci pat rep 0 (drop k s).
Proof.
  revert s. induction k as [|k IH]; intros s; [now rewrite drop_0|].
  destruct s as [|c s]; [reflexivity|]. cbn [replace_from drop]. apply IH.
Qed.

Lemma escape_pass_skip (k : nat) (s : string) :
  escape_pass k s = escape_pass 0 (drop k s).
Proof.
  revert s. induction k as [|k IH]; intros s; [now rewrite drop_0|].
  destruct s as [|c s]; [reflexivity|]. cbn [escape_pass drop]. apply IH.
Qed.

(** Passes 1 to 3 copy the characters that an inert pattern matches. *)
Lemma drop_passes123 (pat s : string) :
  inert_pattern pat = true -> starts_with true pat s = true ->
  drop (String.length pat) (passes123 s) = passes123 (drop (String.length pat) s).
Proof.
  revert s. induction pat as [|p pat IH]; intros s Hp Hm.
  { cbn [String.length]. now rewrite !drop_0. }
  cbn [inert_pattern] in Hp. apply andb_prop in Hp as [Hp Hpat].
  destruct s as [|c s]; [discriminate|].
  rewrite starts_with_cons in Hm. apply andb_prop in Hm as [Em Hm].
  destruct (inert_match p c Hp Em) as (H1 & H2 & H3).
  rewrite (passes123_copy c s H1 H2 H3). cbn [String.length drop]. now apply IH.
Qed.

Lemma script_close_inert : inert_pattern script_close = true.
Proof. reflexivity. Qed.

(** The first character of a match of [</script>] is [<]. *)
Lemma not_script_close (c : ascii) (s : string) :
  Ascii.eqb c "<"%char = false ->
  starts_with true script_close (String c s) = false.
Proof.
  intros H. unfold script_close. rewrite starts_with_cons.
  replace (Ascii.eqb (lower "<") (lower c)) with false; [reflexivity|].
  revert H. by_cases_on_char c.
Qed.

(** The image of the first character under passes 1 to 3, by cases. *)
Lemma first_char_cases (c : ascii) (s : string) :
  (c = ascii_of_nat 92 /\
   passes123 (String c s) = String (ascii_of_nat 92) (String (ascii_of_nat 92) (passes123 s))) \/
  (c = ascii_of_nat 96 /\
   passes123 (String c s) = String (ascii_of_nat 92) (String (ascii_of_nat 96) (passes123 s))) \/
  (c = "$"%char /\ starts_with false "{" s = true /\
   passes123 (String c s) = String (ascii_of_nat 92) (String "$" (passes123 s))) \/
  (Ascii.eqb c (ascii_of_nat 92) = false /\
   Ascii.eqb c (ascii_of_nat 96) = false /\
   Ascii.eqb c "$"%char && starts_with false "{" s = false /\
   passes123 (String c s) = String c (passes123 s)).
Proof.
  destruct (Ascii.eqb c (ascii_of_nat 92)) eqn:E1.
  { apply Ascii.eqb_eq in E1. subst c. left. split; reflexivity. }
  destruct (Ascii.eqb c (ascii_of_nat 96)) eqn:E2.
  { apply Ascii.eqb_eq in E2. subst c. right. left. split; reflexivity. }
  destruct (Ascii.eqb c "$"%char && starts_with false "{" s) eqn:E3.
  { right. right. left. apply andb_prop in E3 as [E3 Hb].
    apply Ascii.eqb_eq in E3. subst c. cbn [passes123]. rewrite Hb. repeat split. }
  right. right. right. repeat split. cbn [passes123]. rewrite E3. unfold passes12.
  now rewrite E1, E2.
Qed.

Lemma escape_pass_backslash (s : string) :
  starts_with true script_close (String (ascii_of_nat 92) s) = false ->
  escape_pass 0 (String (ascii_of_nat 92) s)
  = String (ascii_of_nat 92) (String (ascii_of_nat 92) (escape_pass 0 s)).
Proof. reflexivity. Qed.

Lemma escape_pass_backtick (s : string) :
  starts_with true script_close (String (ascii_of_nat 96) s) = false ->
  escape_pass 0 (String (ascii_of_nat 96) s)
  = String (ascii_of_nat 92) (String (ascii_of_nat 96) (escape_pass 0 s)).
Proof. reflexivity. Qed.

Lemma escape_pass_dollar (s : string) :
  starts_with true script_close (String "$" s) = false ->
  starts_with false "{" s = true ->
  escape_pass 0 (String "$" s)
  = String (ascii_of_nat 92) (String "$" (escape_pass 0 s)).
Proof.
  intros Hm Hb. cbn [escape_pass]. fold script_close. rewrite Hm, Hb.
  reflexivity.
Qed.

Lemma escape_pass_copy (c : ascii) (s : string) :
  starts_with true script_close (String c s) = false ->
  Ascii.eqb c (ascii_of_nat 92) = false ->
  Ascii.eqb c (ascii_of_nat 96) = false ->
  Ascii.eqb c "$"%char && starts_with false "{" s = false ->
  escape_pass 0 (String c s) = String c (escape_pass 0 s).
Proof.
  intros Hm H1 H2 H3. cbn [escape_pass]. fold script_close.
  now rewrite Hm, H1, H2, H3.
Qed.

Lemma escape_pass_correct (s : string) :
  replace_all true script_close script_close_escaped (passes123 s) = escape_pass 0 s.
Proof.
  unfold replace_all.
  remember (String.length s) as n eqn:Hn.
  assert (Hle : (String.length s <= n)%nat) by lia. clear Hn.
  revert s Hle. induction n as [|n IH]; intros s Hle.
  { destruct s; [reflexivity | cbn in Hle; lia]. }
  destruct s as [|c s]; [reflexivity|].
  cbn [String.length] in Hle.
  destruct (starts_with true script_close (String c s)) eqn:Em.
  - (* a match: both sides pass over it *)
    pose proof (drop_passes123 script_close (String c s) script_close_inert Em) as Hd.
    pose proof (starts_with_passes123 script_close (String c s) script_close_inert) as Hs.
    rewrite Em in Hs.
    destruct (passes123 (String c s)) as [|d t] eqn:Eg; [discriminate|].
    rewrite replace_from_0, Hs.
    rewrite (replace_from_skip true script_close script_close_escaped _ t).
    change (String.length script_close - 1)%nat with 8%nat.
    change (String.length script_close) with 9%nat in Hd.
    change (drop 9 (String d t)) with (drop 8 t) in Hd.
    change (drop 9 (String c s)) with (drop 8 s) in Hd. rewrite Hd.
    cbn [escape_pass]. fold script_close. rewrite Em.
    rewrite (escape_pass_skip 8 s).
    change ("<" ++ backslash ++ "/script>" ++ escape_pass 0 (drop 8 s))
      with (script_close_escaped ++ escape_pass 0 (drop 8 s)).
    f_equal.
    apply IH. pose proof (drop_length 8 s). lia.
  - (* no match: the character is escaped or copied *)
    pose proof (starts_with_passes123 script_close (String c s) script_close_inert) as Hs.
    rewrite Em in Hs.
    destruct (first_char_cases c s) as [(-> & Eg) | [(-> & Eg) | [(-> & Hb & Eg) | (H1 & H2 & H3 & Eg)]]];
      rewrite Eg in *.
    + rewrite (escape_pass_backslash s Em).
      rewrite !replace_from_0, Hs, not_script_close by reflexivity.
      now rewrite IH by lia.
    + rewrite (escape_pass_backtick s Em).
      rewrite !replace_from_0, Hs, not_script_close by reflexivity.
      now rewrite IH by lia.
    + rewrite (escape_pass_dollar s Em Hb).
      rewrite !replace_from_0, Hs, not_script_close by reflexivity.
      now rewrite IH by lia.
    + rewrite (escape_pass_copy c s Em H1 H2 H3).
      rewrite replace_from_0, Hs. now rewrite IH by lia.
Qed.

(** The escaping is that single pass. *)
Lemma escapeSvgContent_pass (s : string) : escapeSvgContent s = escape_pass 0 s.
Proof.
  unfold escapeSvgContent. rewrite passes12_correct, passes123_correct. apply escape_pass_correct.
Qed.

(** *** Reading the escaped text back *)

Lemma literal_value_skip (k : nat) (s : string) :
  literal_value k s = literal_value 0 (drop k s).
Proof.
  revert s. induction k as [|k IH]; intros s; [now rewrite drop_0|].
  destruct s as [|c s]; [reflexivity|]. cbn [literal_value drop]. apply IH.
Qed.

(** The escaped text starts with an opening brace, or with a line feed,
    only if the text does. *)
Lemma escape_pass_head (q : ascii) (s : string) :
  Ascii.eqb q (ascii_of_nat 92) = false ->
  Ascii.eqb q (ascii_of_nat 96) = false ->
  Ascii.eqb q "$"%char = false ->
  Ascii.eqb q "<"%char = false ->
  starts_with false (String q EmptyString) (escape_pass 0 s)
  = starts_with false (String q EmptyString) s.
Proof.
  intros Q1 Q2 Q3 Q4. destruct s as [|c s]; [reflexivity|].
  destruct (starts_with true script_close (String c s)) eqn:Em.
  - cbn [escape_pass]. fold script_close. rewrite Em.
    change ("<" ++ backslash ++ "/script>" ++ escape_pass 8 s)
      with (String "<" (backslash ++ "/script>" ++ escape_pass 8 s)).
    rewrite !starts_with_cons, Q4. cbn [andb].
    destruct (Ascii.eqb q c) eqn:E; [|reflexivity].
    apply Ascii.eqb_eq in E. subst c.
    rewrite not_script_close in Em by exact Q4. discriminate.
  - destruct (first_char_cases c s)
      as [(-> & _) | [(-> & _) | [(-> & Hb & _) | (H1 & H2 & H3 & _)]]].
    + rewrite (escape_pass_backslash s Em), !starts_with_cons. now rewrite Q1.
    + rewrite (escape_pass_backtick s Em), !starts_with_cons. now rewrite Q1, Q2.
    + rewrite (escape_pass_dollar s Em Hb), !starts_with_cons. now rewrite Q1, Q3.
    + rewrite (escape_pass_copy c s Em H1 H2 H3), !starts_with_cons. reflexivity.
Qed.

Lemma template_value_copy (c : ascii) (t : string) :
  Ascii.eqb c (ascii_of_nat 92) = false ->
  Ascii.eqb c (ascii_of_nat 96) = false ->
  Ascii.eqb c "$"%char && starts_with false "{" t = false ->
  Ascii.eqb c CR = false ->
  template_value (String c t) = option_map (String c) (template_value t).
Proof.
  intros H1 H2 H3 H4. cbn [template_value]. now rewrite H1, H2, H3, H4.
Qed.

Lemma template_value_CR (t : string) :
  template_value (String CR t)
  = if starts_with false (String LF EmptyString) t
    then option_map (String LF) (template_value (drop 1 t))
    else option_map (String LF) (template_value t).
Proof.
  destruct t as [|e t]; [reflexivity|].
  rewrite starts_with_cons, andb_true_r, (Ascii.eqb_sym LF e).
  cbn [template_value]. change (Ascii.eqb CR (ascii_of_nat 92)) with false.
  change (Ascii.eqb CR (ascii_of_nat 96)) with false.
  change (Ascii.eqb CR "$"%char) with false. cbn [andb].
  rewrite Ascii.eqb_refl. destruct (Ascii.eqb e LF); reflexivity.
Qed.

Lemma template_value_escaped (d : ascii) (t : string) :
  Ascii.eqb d LF = false -> Ascii.eqb d CR = false ->
  escaped_char d = Some d ->
  template_value (String (ascii_of_nat 92) (String d t))
  = option_map (String d) (template_value t).
Proof.
  intros H1 H2 H3. cbn [template_value]. rewrite Ascii.eqb_refl, H1, H2, H3.
  reflexivity.
Qed.

Lemma template_value_script_close (t : string) :
  template_value (script_close_escaped ++ t)
  = option_map (append script_close) (template_value t).
Proof.
  change (script_close_escaped ++ t)
    with (String "<" (String (ascii_of_nat 92) (String "/" (String "s"
            (String "c" (String "r" (String "i" (String "p" (String "t"
               (String ">" t)))))))))).
  rewrite template_value_copy by reflexivity.
  rewrite template_value_escaped by reflexivity.
  rewrite !template_value_copy by reflexivity.
  now destruct (template_value t).
Qed.

(** The value of the literal, for every text. *)
Lemma template_value_escape_pass (s : string) :
  template_value (escape_pass 0 s) = Some (literal_value 0 s).
Proof.
  remember (String.length s) as n eqn:Hn.
  assert (Hle : (String.length s <= n)%nat) by lia. clear Hn.
  revert s Hle. induction n as [|n IH]; intros s Hle.
  { destruct s; [reflexivity | cbn in Hle; lia]. }
  destruct s as [|c s]; [reflexivity|]. cbn [String.length] in Hle.
  destruct (starts_with true script_close (String c s)) eqn:Em.
  - cbn [escape_pass literal_value]. fold script_close. rewrite Em.
    rewrite (escape_pass_skip 8 s), (literal_value_skip 8 s).
    change ("<" ++ backslash ++ "/script>" ++ escape_pass 0 (drop 8 s))
      with (script_close_escaped ++ escape_pass 0 (drop 8 s)).
    rewrite template_value_script_close, IH
      by (pose proof (drop_length 8 s); lia).
    reflexivity.
  - destruct (first_char_cases c s)
      as [(-> & _) | [(-> & _) | [(-> & Hb & _) | (H1 & H2 & H3 & _)]]].
    + rewrite (escape_pass_backslash s Em). cbn [literal_value].
      fold script_close. rewrite Em.
      rewrite template_value_escaped, IH by (reflexivity || lia). reflexivity.
    + rewrite (escape_pass_backtick s Em). cbn [literal_value].
      fold script_close. rewrite Em.
      rewrite template_value_escaped, IH by (reflexivity || lia). reflexivity.
    + rewrite (escape_pass_dollar s Em Hb). cbn [literal_value].
      fold script_close. rewrite Em.
      rewrite template_value_escaped, IH by (reflexivity || lia). reflexivity.
    + rewrite (escape_pass_copy c s Em H1 H2 H3). cbn [literal_value].
      fold script_close. rewrite Em.
      destruct (Ascii.eqb c CR) eqn:Ecr.
      * apply Ascii.eqb_eq in Ecr. subst c. rewrite template_value_CR.
        rewrite (escape_pass_head LF s) by reflexivity.
        destruct (starts_with false (String LF EmptyString) s) eqn:El.
        -- destruct s as [|e s']; [discriminate|].
           rewrite starts_with_cons, andb_true_r in El.
           apply Ascii.eqb_eq in El. subst e.
           assert (Em' : starts_with true script_close (String LF s') = false)
             by (apply not_script_close; reflexivity).
           rewrite (escape_pass_copy LF s' Em') by reflexivity.
           cbn [drop literal_value]. cbn [String.length] in Hle.
           now rewrite IH by lia.
        -- now rewrite IH by lia.
      * rewrite template_value_copy; auto.
        -- now rewrite IH by lia.
        -- destruct (Ascii.eqb c "$"%char); [|reflexivity]. cbn [andb] in *.
           now rewrite (escape_pass_head "{" s) by reflexivity.
Qed.

Lemma plain_text_drop (k : nat) (s : string) :
  plain_text s = true -> plain_text (drop k s) = true.
Proof.
  revert s. induction k as [|k IH]; intros s H; [now rewrite drop_0|].
  destruct s as [|c s]; [exact H|]. cbn [drop]. apply IH.
  cbn [plain_text] in H. now apply andb_prop in H as [_ H].
Qed.

Lemma starts_with_exact (pat s : string) :
  starts_with false pat s = true -> s = pat ++ drop (String.length pat) s.
Proof.
  revert s. induction pat as [|p pat IH]; intros s H.
  { cbn [String.length]. now rewrite drop_0. }
  destruct s as [|c s]; [discriminate|]. rewrite starts_with_cons in H.
  apply andb_prop in H as [E H]. apply Ascii.eqb_eq in E. subst c.
  cbn [String.length drop append]. f_equal. now apply IH.
Qed.

(** A plain text is the value of its literal. *)
Lemma literal_value_plain (s : string) :
  plain_text s = true -> literal_value 0 s = s.
Proof.
  remember (String.length s) as n eqn:Hn.
  assert (Hle : (String.length s <= n)%nat) by lia. clear Hn.
  revert s Hle. induction n as [|n IH]; intros s Hle Hp.
  { destruct s; [reflexivity | cbn in Hle; lia]. }
  destruct s as [|c s]; [reflexivity|]. cbn [String.length] in Hle.
  pose proof Hp as Hp'. cbn [plain_text] in Hp'. fold script_close in Hp'.
  apply andb_prop in Hp' as [[Hcr Hcase]%andb_prop Hrest].
  apply negb_true_iff in Hcr.
  cbn [literal_value]. fold script_close.
  destruct (starts_with true script_close (String c s)) eqn:Em.
  - cbn [implb] in Hcase. rewrite (literal_value_skip 8 s).
    rewrite IH; [| pose proof (drop_length 8 s); lia
                 | now apply plain_text_drop].
    symmetry. apply (starts_with_exact script_close (String c s) Hcase).
  - rewrite Hcr. now rewrite IH by (lia || assumption).
Qed.

(** The literal that holds the escaped text is never closed early, and its
    value is the text with each [</script>] in lower case and each CR or
    CR LF read as LF. *)
Lemma escapeSvgContent_literal (s : string) :
  template_value (escapeSvgContent s) = Some (literal_value 0 s).
Proof. rewrite escapeSvgContent_pass. apply template_value_escape_pass. Qed.

(** A text without carriage return, and with [</script>] in lower case only,
    is reproduced exactly. *)
Lemma escapeSvgContent_round_trip (s : string) :
  plain_text s = true -> template_value (escapeSvgContent s) = Some s.
Proof.
  intros H. rewrite escapeSvgContent_literal. f_equal.
  now apply literal_value_plain.
Qed.

(** *** Where the escaping falls short *)

(** C9. The escaping does not reproduce every SVG text and does not keep
    every text inside the script block:
    - [</SCRIPT>] is replaced whatever the case of its letters, and the
      replacement is in lower case: the literal's value is [</script>];
    - [</script >], which ends the script element as well, is not replaced:
      the script block ends inside the text. *)
Theorem escapeSvgContent_failing_inputs :
  escapeSvgContent "</SCRIPT>" = "<\/script>" /\
  template_value (escapeSvgContent "</SCRIPT>") = Some "</script>" /\
  template_value (escapeSvgContent "</SCRIPT>") <> Some "</SCRIPT>" /\
  escapeSvgContent "</script >" = "</script >" /\
  closes_script_block (escapeSvgContent "</script >") = true.
Proof.
  repeat split; try reflexivity. vm_compute. discriminate.
Qed.

(** What the escaping does achieve on a sample with every special sequence:
    the literal is not closed, no substitution is opened, the script block is
    not closed, and the value is the text. *)
Example escapeSvgContent_sample :
  let svg := "<svg>" ++ backtick ++ "${x}" ++ backslash ++ "n</script></svg>" in
  template_value (escapeSvgContent svg) = Some svg /\
  closes_script_block (escapeSvgContent svg) = false.
Proof. split; reflexivity. Qed.

End ExportFacts.
(** ** Tooltip geometry: what the placements guarantee *)

Module GeometryLaws.
Import JsNum Geometry GeometryFacts ClickPlacement GeometrySamples.



(** The mousemove placement never leaves the tooltip beyond the right edge
    of the container unless the pointer's page offset is beyond it, and the
    same for the bottom edge. *)
Lemma export_hover_bounds (pageX pageY : Q) (c : DOMRect)
    (offsetWidth offsetHeight : Q) :
  (pageX - left c <= width c)%Q -> (pageY - top c <= height c)%Q ->
  exists l t : Q,
    export_hover pageX pageY c offsetWidth offsetHeight = (Fin l, Fin t) /\
    (l + offsetWidth <= width c)%Q /\ (t + offsetHeight <= height c)%Q.
Proof.
  intros Hx Hy. unfold export_hover. cbv zeta.
  cbn [add sub neg lt gt].
  destruct (Qltb (width c) (pageX + - left c + 15 + offsetWidth)) eqn:Ex;
    destruct (Qltb (height c) (pageY + - top c + 15 + offsetHeight)) eqn:Ey;
    cbn [add sub neg]; eexists _, _; (split; [reflexivity|]);
    try apply Qltb_ge in Ex; try apply Qltb_ge in Ey; split; lra.
Qed.



(** A page scrolled down by 200 px: the container, 400 x 300, has its top
    100 px above the viewport's top, and the pointer, at [clientY = 150], is
    250 px below the container's top, inside it.  The script works with
    [pageY - top = 450], flips the 40 px high tooltip above that and leaves
    its bottom edge at 435, below the container's height. *)
Example export_hover_scrolled :
  let s :=
    mkScene
      (mkRegionGeom (mkSVGRect 0 0 10 10) (mkDOMRect 0 (-100) 400 300)
         (mkViewBox 400 300))
      (mkDOMRect 0 (-100) 400 300) 100 40 100 150 0 200 1000 800 in
  (pointerY s - top (container s) <= height (container s))%Q /\
  exists l t : Q,
    export_placement hover s = (Fin l, Fin t) /\
    (t == 395)%Q /\ (height (container s) < t + tipHeight s)%Q.
Proof.
  cbv zeta. split; [vm_compute; discriminate|].
  eexists _, _. split; [vm_compute; reflexivity|].
  split; vm_compute; reflexivity.
Qed.



(** The two engines on [scene_click]. *)
Lemma export_click_left_agrees_witness :
  fst (export_placement click scene_click)
  = fst (live_placement click scene_click).
Proof.
  apply (ExportFidelity.export_click_left_agrees scene_click). reflexivity.
Defined.


End GeometryLaws.
(** ** Identifier rename: laws of the handler and of the panel's check *)

Module RenameLaws.
Import Js Dom App TrimFacts RenameFacts RenameSamples Tactics.

Local Open Scope string_scope.

Lemma keys_elem_of {A : Type} (store : gmap string A) (k : string) :
  k ∈ map fst (map_to_list store) <-> is_Some (store !! k).
Proof.
  rewrite list_elem_of_In, in_map_iff. split.
  - intros ([k' d] & <- & Hin). apply list_elem_of_In, elem_of_map_to_list in Hin.
    cbn [fst]. eauto.
  - intros [d Hd]. exists (k, d). split; [reflexivity|].
    now apply list_elem_of_In, elem_of_map_to_list.
Qed.

(** A store made of annotations is plain when none of its keys names a
    property of [Object.prototype]. *)
Lemma plain_store_of (records : gmap string RegionData) :
  map_Forall (fun k _ => inherited k = false) records ->
  plain_store (store_of records).
Proof.
  intros Hall. split; [reflexivity|]. intros k v. unfold store_of. cbn [own].
  rewrite lookup_fmap. intros H. apply fmap_Some in H as (d & Hd & ->).
  split; [exact (Hall k d Hd) | eauto].
Qed.

Lemma plain_store_sample : plain_store (customizationData sample_state).
Proof.
  apply plain_store_of.
  eapply (bool_decide_eq_true_1 (map_Forall (fun k _ => inherited k = false) _)).
  vm_compute. reflexivity.
Qed.

Lemma size_move_record (oldId new : string) (store : Store) :
  plain_store store -> inherited oldId = false -> inherited new = false ->
  new <> oldId -> own store !! new = None ->
  size (own (move_record oldId new store)) = size (own store).
Proof.
  intros Hplain Hold Hnew Hne Hfree.
  rewrite (move_record_plain_eq oldId new store Hplain Hold Hnew Hne Hfree).
  cbn [own]. destruct (own store !! oldId) as [info|] eqn:Eold.
  - rewrite map_size_insert_None by (now rewrite lookup_delete_ne by congruence).
    rewrite map_size_delete, Eold. cbn.
    assert (size (own store) <> 0%nat); [|lia].
    intros E. apply map_size_empty_inv in E. rewrite E in Eold.
    rewrite lookup_empty in Eold. discriminate Eold.
  - now rewrite delete_id.
Qed.

(** X3. In a plain store, a rename between identifiers that name no property
    of [Object.prototype] never creates or loses a record: whether it
    succeeds or fails, the store has as many keys after it as before. *)
Theorem renameRegion_preserves_size (oldId newId : string) (st : AppState) :
  plain_store (customizationData st) ->
  inherited oldId = false ->
  inherited (trim newId) = false ->
  size (own (customizationData (snd (renameRegion oldId newId st))))
  = size (own (customizationData st)).
Proof.
  intros Hplain Hold Hnew. unfold renameRegion.
  destruct (handleRegionIdChange_checked oldId newId st
              (plain_store_check _ Hplain))
    as [(He & ->) | [(Hne & Hbad & ->) | (Hne & Hn & Hs & Hk & ->)]];
    cbn [fst snd customizationData]; try reflexivity.
  now apply size_move_record.
Qed.

(** Region [a] of [sample_state] is renamed to [b]. *)
Lemma renameRegion_preserves_size_witness :
  size (own (customizationData (snd (renameRegion "a" "b" sample_state))))
  = size (own (customizationData sample_state)).
Proof.
  apply (renameRegion_preserves_size "a" "b" sample_state);
    [apply plain_store_sample | reflexivity | reflexivity].
Defined.

(** X4. The panel hands [currentId.trim()] to [onIdChange], and the handler
    trims its argument again: the second trim changes nothing, so the rename
    called with the trimmed identifier is the rename called with the typed
    one. *)
Theorem renameRegion_pretrimmed (oldId newId : string) (st : AppState) :
  renameRegion oldId (trim newId) st = renameRegion oldId newId st.
Proof.
  unfold renameRegion, handleRegionIdChange. now rewrite trim_idempotent.
Qed.

(** When [handleIdInputChange] finds no error in the typed identifier and the
    identifier differs from the selected one, the rename requested with it
    succeeds, in a plain store and between identifiers that name no property
    of [Object.prototype]. *)
Lemma panel_check_complete (st : AppState) (sel typed : string) :
  plain_store (customizationData st) ->
  inherited sel = false -> inherited typed = false ->
  idError (existingIds st) sel typed = false ->
  typed <> sel ->
  fst (renameRegion sel (trim typed) st) = true /\
  selectedRegionId (snd (renameRegion sel (trim typed) st)) = Some typed /\
  own (customizationData (snd (renameRegion sel (trim typed) st))) !! typed
    = own (customizationData st) !! sel.
Proof.
  intros Hplain Hsel Htyped Herr Hdiff. unfold idError in Herr.
  apply orb_false_elim in Herr as [Herr Hdup].
  apply orb_false_elim in Herr as [Hempty Hspace].
  assert (Htrim : trim typed = typed) by now apply trim_no_space.
  assert (Hfree : own (customizationData st) !! typed = None).
  { apply andb_false_iff in Hdup as [Hin | Hsame].
    - apply bool_decide_eq_false in Hin. unfold existingIds in Hin.
      rewrite keys_elem_of in Hin.
      destruct (own (customizationData st) !! typed); [|reflexivity].
      exfalso. apply Hin. eauto.
    - apply negb_false_iff, String.eqb_eq in Hsame. contradiction. }
  rewrite Htrim. unfold renameRegion.
  destruct (handleRegionIdChange_checked sel typed st
              (plain_store_check _ Hplain))
    as [(He & ->) | [(Hne & Hbad & ->) | (Hne & Hn & Hs & Hk & ->)]];
    rewrite ?Htrim in *; cbn [fst snd selectedRegionId customizationData].
  - congruence.
  - exfalso. destruct Hbad as [H | [H | H]].
    + subst typed. discriminate Hempty.
    + congruence.
    + rewrite Hfree in H. destruct H; discriminate.
  - split; [reflexivity|]. split; [reflexivity|].
    now destruct (move_record_plain sel typed (customizationData st)
                    Hplain Hsel Htyped Hne Hk).
Qed.

Lemma set_id_back (e : Element) (v : string) : set_id (id e) (set_id v e) = e.
Proof. now destruct e. Qed.

Lemma find_id_insert_fresh (name : string) (doc : Document) (i : nat)
    (e : Element) :
  find_id name doc = None -> doc !! i = Some e ->
  find_id name (<[i := set_id name e]> doc) = Some i.
Proof.
  revert i. induction doc as [|x rest IH]; intros i; [discriminate 2|].
  cbn [find_id]. destruct (String.eqb (id x) name) eqn:Ex; [discriminate|].
  destruct (find_id name rest) eqn:Hrest; [discriminate|]. intros _.
  destruct i as [|i].
  - intros _. cbn [insert list_insert find_id set_id id].
    now rewrite String.eqb_refl.
  - intros He. change (rest !! i = Some e) in He.
    change (<[S i := set_id name e]> (x :: rest))
      with (x :: <[i := set_id name e]> rest).
    cbn [find_id]. rewrite Ex. now rewrite (IH i eq_refl He).
Qed.

(** X5. Renaming a region and renaming it back restores the editor: in a
    plain store, for two identifiers that name no property of
    [Object.prototype], an identifier [a] without white space that the
    escaped selector resolves, and a new identifier that the selector
    resolves and that no element carries, a successful rename of [a] followed
    by the rename back to [a] succeeds and leaves the DOM and the store
    exactly as they were; the selection is [a]. *)
Theorem renameRegion_round_trip (a b : string) (st : AppState) :
  plain_store (customizationData st) ->
  inherited a = false ->
  inherited (trim b) = false ->
  has_space a = false ->
  selector_safe a = true ->
  selector_safe (trim b) = true ->
  trim b <> a ->
  find_id (trim b) (dom st) = None ->
  fst (renameRegion a b st) = true ->
  renameRegion (trim b) a (snd (renameRegion a b st))
  = (Return true, mkApp (dom st) (customizationData st) (Some a)).
Proof.
  intros Hplain Hord_a Hord_b Hspace Hsafe_a Hsafe_b Hdiff Hfresh Hok.
  assert (Ha : trim a = a) by now apply trim_no_space.
  assert (Hne : a <> "").
  { intros ->. discriminate Hsafe_a. }
  revert Hok. unfold renameRegion at 1 3.
  destruct (handleRegionIdChange_checked a b st (plain_store_check _ Hplain))
    as [(He & ->) | [(Hd & Hbad & ->) | (Hd & Hn & Hs & Hk & ->)]];
    cbn [fst snd]; intros Hok; try congruence.
  cbn [dom customizationData selectedRegionId].
  set (b' := trim b) in *.
  set (store1 := move_record a b' (customizationData st)).
  set (dom1 := idChangeEffect (mkIdChangeOp a b') (dom st)).
  destruct (move_record_plain a b' (customizationData st)
              Hplain Hord_a Hord_b Hd Hk) as (H1 & Hplain1).
  destruct (move_record_others a b' (customizationData st) Hd) as (H2 & H3).
  fold store1 in H1, H2, H3, Hplain1.
  unfold renameRegion.
  destruct (handleRegionIdChange_checked b' a (mkApp dom1 store1 (Some b'))
              (plain_store_check _ Hplain1))
    as [(He & _) | [(Hd' & Hbad & _) | (Hd' & _ & _ & Hk' & ->)]];
    rewrite ?Ha in *; cbn [customizationData] in *.
  - congruence.
  - exfalso. destruct Hbad as [H | [H | H]]; try congruence.
    rewrite H2 in H. destruct H; discriminate.
  - cbn [dom customizationData selectedRegionId]. f_equal. f_equal.
    + (* the DOM *)
      subst dom1. unfold idChangeEffect. cbn [oldId newId].
      rewrite (escaped_lookup_resolves a (dom st) Hsafe_a).
      destruct (find_id a (dom st)) as [i|] eqn:Hfind.
      * destruct (find_id_Some a (dom st) i Hfind) as [(e & He & Hid) _].
        rewrite He.
        rewrite (escaped_lookup_resolves b' _ Hsafe_b).
        rewrite (find_id_insert_fresh b' (dom st) i e Hfresh He).
        assert (Hi : (i < length (dom st))%nat) by (eapply lookup_lt_Some; eauto).
        rewrite list_lookup_insert_eq by exact Hi.
        rewrite list_insert_insert_eq. rewrite <- Hid at 1.
        rewrite set_id_back. now apply list_insert_id.
      * rewrite (escaped_lookup_resolves b' _ Hsafe_b). now rewrite Hfresh.
    + (* the store *)
      destruct (move_record_plain b' a store1 Hplain1 Hord_b Hord_a Hd' H2)
        as (G1 & [Gp _]).
      destruct (move_record_others b' a store1 Hd') as (G2 & G3).
      destruct (move_record b' a store1) as [o p] eqn:Em.
      destruct (customizationData st) as [o0 p0] eqn:E0.
      cbn [own proto] in *. destruct Hplain as [Hp0 _]. cbn in Hp0.
      subst p p0. f_equal. apply map_eq. intros k.
      destruct (decide (k = a)) as [->|Hka]; [now rewrite G1, H1|].
      destruct (decide (k = b')) as [->|Hkb]; [now rewrite G2, Hk|].
      now rewrite G3, H3 by assumption.
Qed.

(** Region [a] of [sample_state] is renamed to [b] and back. *)
Lemma renameRegion_round_trip_witness :
  renameRegion (trim "b") "a" (snd (renameRegion "a" "b" sample_state))
  = (Return true,
     mkApp (dom sample_state) (customizationData sample_state) (Some "a")).
Proof.
  apply (renameRegion_round_trip "a" "b" sample_state);
    solve [reflexivity | discriminate | apply plain_store_sample].
Defined.

(** X6. The collision test of the rename reads the store only.  When an
    element already carries the new identifier (a region that has no record
    yet), a successful rename of a resolvable [oldId] gives the first element
    carrying [oldId] that identifier as well: afterwards two different
    elements of the DOM carry the new identifier. *)
Theorem renameRegion_duplicates_id (oldId newId : string) (st : AppState)
    (i j : nat) (other : Element) :
  selector_safe oldId = true ->
  trim newId <> oldId ->
  find_id oldId (dom st) = Some i ->
  dom st !! j = Some other ->
  id other = trim newId ->
  fst (renameRegion oldId newId st) = true ->
  let st' := snd (renameRegion oldId newId st) in
  i <> j /\
  id <$> (dom st' !! i) = Some (trim newId) /\
  id <$> (dom st' !! j) = Some (trim newId).
Proof.
  intros Hsafe Hdiff Hfind Hj Hid. unfold renameRegion.
  destruct (handleRegionIdChange_cases oldId newId st)
    as [(He & ->) | [(Hd & Hbad & ->) |
        (Hd & Hn & Hs & [(_ & ->) | [(_ & ->) | (_ & ->)]])]];
    cbn [fst snd]; intros Hok; try congruence; try discriminate.
  cbn [dom]. unfold idChangeEffect. cbn [App.oldId App.newId].
  rewrite (escaped_lookup_resolves oldId (dom st) Hsafe), Hfind.
  destruct (find_id_Some oldId (dom st) i Hfind) as [(e & He & Hide) _].
  rewrite He.
  assert (Hij : i <> j).
  { intros ->. rewrite He in Hj. injection Hj as ->. congruence. }
  split; [exact Hij|]. split.
  - rewrite list_lookup_insert_eq by (eapply lookup_lt_Some; eauto). reflexivity.
  - rewrite list_lookup_insert_ne by exact Hij. rewrite Hj. cbn. now rewrite Hid.
Qed.

(** Region [a] of [two_shapes] is renamed to [b], which a shape carries. *)
Lemma renameRegion_duplicates_id_witness :
  0%nat <> 1%nat /\
  id <$> (dom (snd (renameRegion "a" "b" two_shapes)) !! 0%nat) = Some (trim "b") /\
  id <$> (dom (snd (renameRegion "a" "b" two_shapes)) !! 1%nat) = Some (trim "b").
Proof.
  apply (renameRegion_duplicates_id "a" "b" two_shapes 0 1 (plain "path" "b"));
    solve [reflexivity | discriminate].
Defined.

Lemma digit_not_escaped (d : ascii) :
  is_digit d = true ->
  needs_escape d = false /\ name_start d = false /\
  Ascii.eqb d (ascii_of_nat 92) = false /\ Ascii.eqb d (ascii_of_nat 45) = false.
Proof. by_cases_on_char d. Qed.

Lemma digit_not_inherited (d : ascii) (rest : string) :
  is_digit d = true -> inherited (String d rest) = false.
Proof.
  destruct d as [[] [] [] [] [] [] [] []]; intros H; try discriminate H;
    reflexivity.
Qed.

(** X7. An identifier that starts with a digit is not resolved by the
    escaped selector (the digit is not escaped, and [#1...] is not a valid
    selector): a successful rename of such a region moves the selection to
    the new identifier and leaves the DOM as it was, so the element keeps the
    old identifier; in a plain store, and when the new identifier names no
    property of [Object.prototype], the record moves too. *)
Theorem renameRegion_digit_id (d : ascii) (rest newId : string) (st : AppState) :
  is_digit d = true ->
  trim newId <> String d rest ->
  fst (renameRegion (String d rest) newId st) = true ->
  let st' := snd (renameRegion (String d rest) newId st) in
  dom st' = dom st /\
  selectedRegionId st' = Some (trim newId) /\
  own (customizationData st') !! String d rest = None /\
  (plain_store (customizationData st) -> inherited (trim newId) = false ->
   own (customizationData st') !! trim newId
   = own (customizationData st) !! String d rest).
Proof.
  intros Hd Hdiff. unfold renameRegion.
  destruct (handleRegionIdChange_cases (String d rest) newId st)
    as [(He & ->) | [(Hne & Hbad & ->) |
        (Hne & Hn & Hs & [(_ & ->) | [(_ & ->) | (Hhas & ->)]])]];
    cbn [fst snd]; intros Hok; try congruence; try discriminate.
  cbn [dom selectedRegionId customizationData].
  destruct (move_record_others (String d rest) (trim newId)
              (customizationData st) Hne) as (H2 & _).
  split; [|split; [reflexivity|split; [exact H2|]]].
  - unfold idChangeEffect, querySelector. cbn [App.oldId App.newId].
    change ("#" ++ escapeId (String d rest))
      with (String (ascii_of_nat 35) (escapeId (String d rest))).
    rewrite escapeId_cons.
    destruct (digit_not_escaped d Hd) as (He & Hs' & Hb & Hh).
    rewrite He. unfold parse_id_selector. rewrite Ascii.eqb_refl.
    cbn [andb starts_ident]. now rewrite Hb, Hh, Hs'.
  - intros Hplain Hnew.
    rewrite (hasOwnProperty_own _ _ (plain_store_check _ Hplain)) in Hhas.
    injection Hhas as Hhas. apply bool_decide_eq_false in Hhas.
    assert (Hfree : own (customizationData st) !! trim newId = None).
    { destruct (own (customizationData st) !! trim newId); [|reflexivity].
      exfalso. apply Hhas. eauto. }
    now destruct (move_record_plain (String d rest) (trim newId)
                    (customizationData st) Hplain
                    (digit_not_inherited d rest Hd) Hnew Hne Hfree).
Qed.

(** The region [1] of [numbered] is renamed to [one]. *)
Lemma renameRegion_digit_id_witness :
  dom (snd (renameRegion "1" "one" numbered)) = dom numbered /\
  selectedRegionId (snd (renameRegion "1" "one" numbered)) = Some (trim "one").
Proof.
  destruct (renameRegion_digit_id "1" "" "one" numbered)
    as (H1 & H2 & _); solve [reflexivity | discriminate | auto].
Defined.

End RenameLaws.
(** ** The colour shade: shape of the result *)

Module ColorLaws.
Import Js Color ColorFacts.

Local Open Scope string_scope.
Local Open Scope Z_scope.

(** The two digits that [hex2] writes, checked for each of the 256 channel
    values. *)
Lemma hex2_digits (r : Z) :
  0 <= r <= 255 ->
  exists a b : ascii,
    hex2 r = String a (String b EmptyString) /\
    hex_value a = Some (r / 16) /\ hex_value b = Some (r mod 16).
Proof.
  intros Hr.
  assert (Hall : forallb
            (fun k =>
               match hex2 (Z.of_nat k) with
               | String a (String b EmptyString) =>
                   bool_decide (hex_value a = Some (Z.of_nat k / 16))
                   && bool_decide (hex_value b = Some (Z.of_nat k mod 16))
               | _ => false
               end) (seq 0 256) = true) by (vm_compute; reflexivity).
  rewrite forallb_forall in Hall.
  specialize (Hall (Z.to_nat r)). rewrite Z2Nat.id in Hall by lia.
  assert (Hin : In (Z.to_nat r) (seq 0 256)) by (apply in_seq; lia).
  specialize (Hall Hin).
  destruct (hex2 r) as [|a [|b [|c rest]]]; try discriminate Hall.
  apply andb_prop in Hall as [Ha Hb].
  apply bool_decide_eq_true in Ha, Hb. eauto.
Qed.

Lemma shade_channels_range (hex : string) (percent : Z) :
  exists r g b : Z,
    shade_channels hex percent = (r, g, b) /\
    0 <= r <= 255 /\ 0 <= g <= 255 /\ 0 <= b <= 255.
Proof.
  unfold shade_channels. eexists _, _, _. split; [reflexivity|]. lia.
Qed.

Lemma adjustColorShade_shape (hex : string) (percent : Z) :
  String.length (adjustColorShade hex percent) = 7%nat /\
  is_hex_color (adjustColorShade hex percent) = true /\
  exists r g b : Z,
    shade_channels hex percent = (r, g, b) /\
    0 <= r <= 255 /\ 0 <= g <= 255 /\ 0 <= b <= 255 /\
    parseInt16 (strip_hash (adjustColorShade hex percent))
    = Some (65536 * r + 256 * g + b).
Proof.
  destruct (shade_channels_range hex percent) as (r & g & b & E & Hr & Hg & Hb).
  unfold adjustColorShade. rewrite E.
  rewrite !padStart2_toString16 by assumption.
  destruct (hex2_digits r Hr) as (r1 & r2 & -> & Hr1 & Hr2).
  destruct (hex2_digits g Hg) as (g1 & g2 & -> & Hg1 & Hg2).
  destruct (hex2_digits b Hb) as (b1 & b2 & -> & Hb1 & Hb2).
  change ("#" ++ String r1 (String r2 "") ++ String g1 (String g2 "")
              ++ String b1 (String b2 ""))%string
    with (String "#" (String r1 (String r2 (String g1 (String g2
            (String b1 (String b2 EmptyString))))))).
  split; [reflexivity|]. split.
  - unfold is_hex_color. cbn [strip_hash]. rewrite Ascii.eqb_refl.
    cbn [String.length Nat.eqb orb andb list_ascii_of_string forallb].
    rewrite Hr1, Hr2, Hg1, Hg2, Hb1, Hb2.
    rewrite !bool_decide_eq_true_2 by eauto. reflexivity.
  - exists r, g, b. repeat split; try lia.
    cbn [strip_hash]. rewrite Ascii.eqb_refl.
    rewrite (parseInt16_six _ _ _ _ _ _ _ _ _ _ _ _ Hr1 Hr2 Hg1 Hg2 Hb1 Hb2).
    f_equal.
    pose proof (Z.div_mod r 16). pose proof (Z.div_mod g 16).
    pose proof (Z.div_mod b 16). lia.
Qed.

(** X12. Whatever the input string and the percentage, [adjustColorShade]
    returns a colour of the form [#rrggbb]: seven characters, the last six
    hexadecimal digits; and the number that [parseInt(_, 16)] reads from it
    is [65536 r + 256 g + b] for the three channels [r], [g], [b] that the
    function computed, each between 0 and 255.  So the result is a valid
    input of the function itself, and the hover colour that
    [handleGlobalSettingsChange] stores is such a colour whatever region
    colour the dialog sends, the other settings being stored as sent. *)
Theorem adjustColorShade_closed (hex : string) (percent : Z) :
  (String.length (adjustColorShade hex percent) = 7%nat /\
   is_hex_color (adjustColorShade hex percent) = true /\
   exists r g b : Z,
     shade_channels hex percent = (r, g, b) /\
     0 <= r <= 255 /\ 0 <= g <= 255 /\ 0 <= b <= 255 /\
     parseInt16 (strip_hash (adjustColorShade hex percent))
     = Some (65536 * r + 256 * g + b)) /\
  (forall settings : Interaction.GlobalTooltipSettings,
     let stored := SettingsChange.handleGlobalSettingsChange settings in
     Interaction.defaultRegionHoverColor stored
     = adjustColorShade (Interaction.defaultRegionColor settings) (-10) /\
     is_hex_color (Interaction.defaultRegionHoverColor stored) = true /\
     Interaction.defaultRegionColor stored
     = Interaction.defaultRegionColor settings /\
     Interaction.tooltipTrigger stored = Interaction.tooltipTrigger settings /\
     SettingsChange.handleGlobalSettingsChange stored = stored).
Proof.
  split; [apply adjustColorShade_shape|].
  intros settings. cbv zeta. split; [reflexivity|]. split.
  - apply (adjustColorShade_shape (Interaction.defaultRegionColor settings) (-10)).
  - repeat split.
Qed.

End ColorLaws.
(** ** The tooltip state machines *)

Module TooltipFacts.
Import Js Dom App Interaction TooltipState.

Local Open Scope string_scope.

Lemma trim_solid_nonempty (c : ascii) (s : string) :
  is_space c = false -> falsy (trim (String c s)) = false.
Proof.
  intros Hc. unfold trim. cbn [trimStart]. rewrite Hc. cbn [trimEnd].
  destruct (trimEnd s); [now rewrite Hc | reflexivity].
Qed.

(** The markup is blank exactly when the record has nothing to show: the
    test of the exported listeners is the test of the preview. *)
Lemma contentHTML_blank (settings : GlobalTooltipSettings) (data : RegionData) :
  falsy (trim (contentHTML settings data)) = negb (has_content (Some data)).
Proof.
  unfold contentHTML, has_content.
  destruct (tooltipImageSrc data) as [src|];
    [destruct (falsy src)|]; destruct (falsy (title data));
    destruct (falsy (description data)); cbn [negb orb];
    first [reflexivity | apply (trim_solid_nonempty "<"%char); reflexivity].
Qed.

Lemma fold_left_invariant {S E : Type} (P : S -> Prop) (f : S -> E -> S)
    (evs : list E) (s : S) :
  (forall s ev, P s -> P (f s ev)) -> P s -> P (fold_left f evs s).
Proof.
  intros Hstep. revert s. induction evs as [|ev evs IH]; intros s Hs;
    [exact Hs|]. cbn [fold_left]. apply IH, Hstep, Hs.
Qed.

(** X19. In preview mode, whatever the pointer does, the tooltip of
    MapDisplay fits the trigger and belongs to a region that has content:
    starting without a tooltip, after any sequence of clicks, moves, leaves,
    background clicks and close clicks, a tooltip that is shown carries no
    pointer position with the click trigger and carries one with the hover
    trigger, and the record of its region has a title, a description or an
    image. *)
Theorem preview_fits_trigger (settings : GlobalTooltipSettings)
    (store : gmap string RegionData) (evs : list PointerEvent) :
  fits_trigger settings store (preview_run settings store evs None).
Proof.
  unfold preview_run.
  apply (fold_left_invariant (fits_trigger settings store)); [|intros a H; discriminate H].
  intros active ev Hfit a. unfold preview_event.
  destruct ev as [id | id x y | id | |].
  - unfold handleClick_preview. cbn [fst].
    destruct (tooltipTrigger settings) eqn:Et.
    + intros H. specialize (Hfit a H). now rewrite Et in Hfit.
    + destruct (has_content (store !! id)) eqn:Hc; [|discriminate].
      assert (Hnew : Some (Geometry.mkActive id None) = Some a ->
                     has_content (store !! Geometry.at_id a) = true /\
                     Geometry.at_event a = None).
      { intros [= <-]. now split. }
      destruct active as [prev|]; [|exact Hnew].
      destruct (_ && _); [discriminate | exact Hnew].
  - unfold handleMouseMove. destruct (tooltipTrigger settings) eqn:Et.
    + destruct (has_content (store !! id)) eqn:Hc.
      * intros [= <-]. cbn. split; [exact Hc | eauto].
      * intros H. specialize (Hfit a H). now rewrite Et in Hfit.
    + intros H. specialize (Hfit a H). now rewrite Et in Hfit.
  - unfold handleMouseLeave. destruct (tooltipTrigger settings) eqn:Et.
    + discriminate.
    + intros H. specialize (Hfit a H). now rewrite Et in Hfit.
  - discriminate.
  - destruct (tooltipTrigger settings) eqn:Et.
    + intros H. specialize (Hfit a H). now rewrite Et in Hfit.
    + discriminate.
Qed.

Lemma has_content_record (store : gmap string RegionData) (id : string) :
  has_content (store !! id) = true ->
  exists data, store !! id = Some data /\ has_content (Some data) = true.
Proof. destruct (store !! id) as [d|]; [eauto | discriminate]. Qed.

(** One event keeps the two pages in step. *)
Lemma export_event_in_step (settings : GlobalTooltipSettings)
    (store : gmap string RegionData) (ev : PointerEvent) (t : ExportTip)
    (active : option Geometry.ActiveTooltip) :
  match ev with
  | Click id | Move id _ _ | Leave id => has_content (store !! id) = true
  | _ => True
  end ->
  same_tooltip settings store t active /\ tip_related settings t active ->
  same_tooltip settings store (export_event settings store ev t)
    (preview_event settings store ev active) /\
  tip_related settings (export_event settings store ev t)
    (preview_event settings store ev active).
Proof.
  intros Hev [[Hdisp Hshow] Hrel].
  assert (Hhidden : same_tooltip settings store (hideTooltip t) None).
  { split; [reflexivity | intros a H; discriminate H]. }
  unfold tip_related in *. unfold export_event, preview_event.
  destruct (tooltipTrigger settings) eqn:Et.
  - (* hover *)
    destruct Hrel as (Hact & Hclose & Hevt).
    assert (Hidle : click_active t = false)
      by (unfold click_active; now rewrite Hact).
    destruct ev as [id | id x y | id | |].
    + unfold handleClick_preview. rewrite Et. cbn [fst].
      destruct (store !! id); repeat split; auto.
    + destruct (has_content_record store id Hev) as (data & Hd & Hc).
      rewrite Hd. unfold export_mousemove_listener, handleMouseMove.
      rewrite Hidle, contentHTML_blank, Hc, Et, Hd, Hc. cbn [negb].
      repeat split; cbn; auto.
      * intros a [= <-]. cbn. eauto.
      * intros a [= <-]. cbn. eauto.
    + destruct (has_content_record store id Hev) as (data & Hd & Hc).
      rewrite Hd. unfold export_mouseleave_listener, handleMouseLeave.
      rewrite Hidle, Et. repeat split; cbn; auto; intros a H; discriminate H.
    + repeat split; cbn; auto; intros a H; discriminate H.
    + rewrite Hclose, andb_false_r. repeat split; auto.
  - (* click *)
    destruct Hrel as (Hact & Hclose & Hevt).
    destruct ev as [id | id x y | id | |].
    + destruct (has_content_record store id Hev) as (data & Hd & Hc).
      rewrite Hd. unfold export_click_listener, handleClick_preview.
      rewrite contentHTML_blank, Hc, Et, Hd, Hc. cbn [negb fst].
      assert (Hopen :
        let t' := mkTip true (Some id) true true (contentHTML settings data)
                    (if falsy (link data) then "default" else "pointer")
                    (if falsy (link data) then None else Some (link data)) in
        let a' := Some (Geometry.mkActive id None) in
        same_tooltip settings store t' a' /\
        (activeClickRegionId t' = Geometry.at_id <$> a' /\
         (display t' = true -> closeDisplay t' = true) /\
         (forall a, a' = Some a -> Geometry.at_event a = None))).
      { cbv zeta. repeat split; cbn; auto.
        - intros a [= <-]. cbn. eauto.
        - intros a [= <-]. reflexivity. }
      cbv zeta in Hopen.
      destruct active as [prev|].
      * specialize (Hevt prev eq_refl). rewrite Hevt. cbn [fmap option_fmap option_map] in Hact.
        rewrite Hact. cbn [negb andb bool_decide]. rewrite andb_true_r.
        destruct (String.eqb (Geometry.at_id prev) id) eqn:E.
        -- apply String.eqb_eq in E. subst id.
           rewrite bool_decide_eq_true_2 by reflexivity.
           repeat split; cbn; auto; try discriminate;
             try (intros a H; discriminate H).
        -- apply String.eqb_neq in E.
           rewrite bool_decide_eq_false_2 by congruence. exact Hopen.
      * cbn [fmap option_fmap option_map] in Hact. rewrite Hact.
        rewrite bool_decide_eq_false_2 by discriminate. exact Hopen.
    + unfold handleMouseMove. rewrite Et.
      destruct (store !! id); repeat split; auto.
    + unfold handleMouseLeave. rewrite Et.
      destruct (store !! id); repeat split; auto.
    + repeat split; cbn; auto; try discriminate; intros a H; discriminate H.
    + destruct (display t) eqn:Ed.
      * rewrite (Hclose eq_refl). cbn [andb].
        repeat split; cbn; auto; try discriminate; intros a H; discriminate H.
      * cbn [andb]. symmetry in Hdisp. apply bool_decide_eq_false in Hdisp.
        assert (Hnone : active = None).
        { destruct active; [exfalso; apply Hdisp; eauto | reflexivity]. }
        subst active.
        repeat split; auto;
          first [rewrite Ed; reflexivity | rewrite Ed; discriminate].
Qed.

(** X21. The exported page and the preview of the editor show the same
    tooltip.  Both start without a tooltip; after any sequence of pointer
    events in which every click, move and leave happens on a region whose
    record has content, the tooltip is displayed on the exported page exactly
    when the preview has an active tooltip, and then the exported page shows
    the markup built from the record of the preview's active region.  This
    holds for the hover and for the click trigger (where a second click on
    the region closes the tooltip on both pages). *)
Theorem export_tooltip_simulates_preview (settings : GlobalTooltipSettings)
    (store : gmap string RegionData) (evs : list PointerEvent) :
  on_content store evs ->
  same_tooltip settings store (export_run settings store evs tip_initial)
    (preview_run settings store evs None).
Proof.
  intros Hevs. unfold export_run, preview_run.
  assert (H0 : same_tooltip settings store tip_initial None /\
               tip_related settings tip_initial None).
  { split; [split; [reflexivity | intros a H; discriminate H]|].
    unfold tip_related. destruct (tooltipTrigger settings);
      repeat split; cbn; auto; try discriminate; intros a H; discriminate H. }
  revert H0. generalize tip_initial as t. generalize (@None Geometry.ActiveTooltip) as a.
  induction Hevs as [|ev evs Hev _ IH]; intros a t H0; [apply H0|].
  cbn [fold_left]. apply IH. now apply export_event_in_step.
Qed.

(** Two clicks on a region with a title, then a click on another one. *)
Lemma export_tooltip_simulates_preview_witness :
  same_tooltip
    (mkSettings Geometry.click "#111827" "#FFFFFF" 16 14 "#FBBF24" "#e2a60b")
    (annotations (customizationData sample_state))
    (export_run
       (mkSettings Geometry.click "#111827" "#FFFFFF" 16 14 "#FBBF24" "#e2a60b")
       (annotations (customizationData sample_state)) [Click "a"; Click "a"; Click "c"]
       tip_initial)
    (preview_run
       (mkSettings Geometry.click "#111827" "#FFFFFF" 16 14 "#FBBF24" "#e2a60b")
       (annotations (customizationData sample_state)) [Click "a"; Click "a"; Click "c"] None).
Proof.
  apply (export_tooltip_simulates_preview
           (mkSettings Geometry.click "#111827" "#FFFFFF" 16 14 "#FBBF24" "#e2a60b")
           (annotations (customizationData sample_state)) [Click "a"; Click "a"; Click "c"]).
  repeat constructor.
Defined.

(** With the click trigger the selection effect does not read the tooltip. *)
Lemma selection_effect_click (settings : GlobalTooltipSettings)
    (sel : option string) (store : gmap string RegionData)
    (active : option Geometry.ActiveTooltip) :
  tooltipTrigger settings = Geometry.click ->
  selection_effect edit settings sel store active
  = selection_effect edit settings sel store None.
Proof. intros Et. unfold selection_effect. now rewrite Et. Qed.

Lemma selection_effect_hover (settings : GlobalTooltipSettings)
    (sel : option string) (store : gmap string RegionData)
    (active : option Geometry.ActiveTooltip) (a : Geometry.ActiveTooltip) :
  tooltipTrigger settings = Geometry.hover ->
  selection_effect edit settings sel store active = Some a ->
  is_Some (Geometry.at_event a).
Proof.
  intros Et. unfold selection_effect. rewrite Et.
  destruct active as [x|]; [|discriminate].
  destruct (Geometry.at_event x) eqn:Ex; [|discriminate].
  intros [= <-]. rewrite Ex. eauto.
Qed.

(** The view that the handlers of MapDisplay have of the store: at every
    identifier, the annotation that the read returns, if it is one. *)
Lemma annotations_read (store : Store) (k : string) :
  annotations store !! k = as_record (read store k).
Proof.
  unfold annotations, read.
  assert (Hrec : omap (fun v => as_record (Some v)) (own store) !! k
                 = as_record (own store !! k)).
  { rewrite lookup_omap. now destruct (own store !! k). }
  destruct (proto store) as [[d | f | b]|].
  - case_bool_decide as Hp.
    + rewrite Hrec. destruct (own store !! k) as [v|] eqn:Ek; [reflexivity|].
      assert (Hk : String.eqb k "__proto__" = false).
      { apply String.eqb_neq. intros ->. rewrite Ek in Hp. now destruct Hp. }
      rewrite Hk. unfold from_object_prototype.
      destruct (record_field d k); [reflexivity|].
      now destruct (inherited k).
    + destruct (decide (k = "__proto__")) as [->|Hk].
      * rewrite lookup_insert_eq.
        destruct (own store !! "__proto__") eqn:Ek; [exfalso; eauto|].
        reflexivity.
      * rewrite lookup_insert_ne by congruence. rewrite Hrec.
        destruct (own store !! k); [reflexivity|].
        apply String.eqb_neq in Hk. rewrite Hk. unfold from_object_prototype.
        destruct (record_field d k); [reflexivity|].
        now destruct (inherited k).
  - rewrite Hrec. destruct (own store !! k); [reflexivity|].
    unfold from_object_prototype, function_property.
    repeat match goal with
           | |- context [if ?c then _ else _] => destruct c
           end; reflexivity.
  - rewrite Hrec. destruct (own store !! k); [reflexivity|].
    unfold from_object_prototype. now destruct (inherited k).
  - rewrite Hrec. destruct (own store !! k); [reflexivity|].
    unfold from_object_prototype. now destruct (inherited k).
Qed.

(** What the editor keeps between two events. *)
Lemma editor_event_keeps (settings : GlobalTooltipSettings) (ev : EditorEvent)
    (v : MapView) :
  named (app v) /\
  match tooltipTrigger settings with
  | Geometry.click =>
      active v = selection_effect edit settings (selectedRegionId (app v))
                   (annotations (customizationData (app v))) None
  | Geometry.hover =>
      forall a, active v = Some a -> is_Some (Geometry.at_event a)
  end ->
  named (app (editor_event settings ev v)) /\
  match tooltipTrigger settings with
  | Geometry.click =>
      active (editor_event settings ev v)
      = selection_effect edit settings
          (selectedRegionId (app (editor_event settings ev v)))
          (annotations (customizationData (app (editor_event settings ev v))))
          None
  | Geometry.hover =>
      forall a, active (editor_event settings ev v) = Some a ->
                is_Some (Geometry.at_event a)
  end.
Proof.
  intros [Hnamed Hact].
  assert (Hturn : forall a : Action,
    let st := step a (app v) in
    named st /\
    match tooltipTrigger settings with
    | Geometry.click =>
        rerender settings (app v) st (active v)
        = selection_effect edit settings (selectedRegionId st)
            (annotations (customizationData st)) None
    | Geometry.hover =>
        forall x, rerender settings (app v) st (active v) = Some x ->
                  is_Some (Geometry.at_event x)
    end).
  { intros a. cbv zeta. split.
    { now apply AppFacts.step_named. }
    unfold rerender. destruct (tooltipTrigger settings) eqn:Et.
    - intros x. case_decide as Hd; [apply Hact|].
      now apply selection_effect_hover.
    - case_decide as Hd.
      + unfold deps in Hd. injection Hd as <- <-. exact Hact.
      + now apply selection_effect_click. }
  destruct ev as [a | | i x y |]; cbn [editor_event app active].
  - apply Hturn.
  - apply Hturn.
  - destruct (dom (app v) !! i) as [target|]; [|split; eauto].
    destruct (clickable target); [|split; eauto].
    cbn [app active]. split; [eauto|].
    unfold handleMouseMove. destruct (tooltipTrigger settings) eqn:Et.
    + destruct (has_content _); [|exact Hact].
      intros a [= <-]. cbn. eauto.
    + exact Hact.
  - split; [eauto|]. unfold handleMouseLeave.
    destruct (tooltipTrigger settings) eqn:Et; [discriminate | exact Hact].
Qed.

(** X20. In the editor with the click trigger, the tooltip follows the
    selection.  After the component is mounted on the initial state of [App]
    and after any sequence of events (files loaded, clicks on regions and on
    the background, edits and renames in the panel, clicks on the close
    button, pointer moves), the active tooltip is the click tooltip of the
    selected region when what [customizationData] returns for that region
    is an annotation with a title, a description or an image, and there is
    no tooltip otherwise.  With the hover trigger every tooltip carries the
    pointer position. *)
Theorem editor_tooltip_follows_selection (settings : GlobalTooltipSettings)
    (evs : list EditorEvent) :
  let v := editor_run settings evs (mount settings initial) in
  match tooltipTrigger settings with
  | Geometry.click =>
      active v =
        match selectedRegionId (app v) with
        | Some sel =>
            if has_content (as_record (read (customizationData (app v)) sel))
            then Some (Geometry.mkActive sel None) else None
        | None => None
        end
  | Geometry.hover =>
      forall a, active v = Some a -> is_Some (Geometry.at_event a)
  end.
Proof.
  cbv zeta. unfold editor_run.
  pose proof (fold_left_invariant
    (fun v =>
       named (app v) /\
       match tooltipTrigger settings with
       | Geometry.click =>
           active v = selection_effect edit settings (selectedRegionId (app v))
                        (annotations (customizationData (app v))) None
       | Geometry.hover =>
           forall a, active v = Some a -> is_Some (Geometry.at_event a)
       end)
    (fun v ev => editor_event settings ev v) evs (mount settings initial)) as H.
  cbv beta in H. destruct H as [Hnamed Hact].
  - intros v ev. apply editor_event_keeps.
  - split; [apply AppFacts.named_initial|].
    unfold mount, selection_effect. cbn.
    destruct (tooltipTrigger settings); [intros a H; discriminate H | reflexivity].
  - destruct (tooltipTrigger settings) eqn:Et; [exact Hact|].
    rewrite Hact. unfold selection_effect. rewrite Et.
    destruct (selectedRegionId _) as [sel|] eqn:Hsel; [|reflexivity].
    rewrite (proj2 Hnamed sel Hsel). now rewrite annotations_read.
Qed.

End TooltipFacts.
(** ** The styling effect of MapDisplay over several runs *)

Module StyleLaws.
Import Js Dom App Interaction StyleState.

Local Open Scope string_scope.

(** One run, field by field. *)
Lemma style_region_fields (settings : GlobalTooltipSettings) (mode : Mode)
    (sel : option string) (e : Element) :
  style_region settings mode sel e
  = mkElement (tag e) (id e) (strokeAttr e)
      (mkStyle (defaultRegionColor settings)
         (if is_selected mode sel e then "#3b82f6" else recorded_stroke e)
         (if is_selected mode sel e then "2px" else "1") "pointer")
      (Some (recorded_stroke e)) (classList e)
      ((listeners e ++ [(ev_mouseenter, L_applyHover)])
       ++ [(ev_mouseleave, L_removeHover)])%list.
Proof.
  unfold style_region, recorded_stroke, is_selected.
  destruct e as [t i a st o cl ls]. cbn [originalStroke].
  destruct o as [r|];
    cbn [set_originalStroke set_style addEventListener tag id strokeAttr style
         originalStroke classList listeners];
    (destruct mode; [destruct sel as [s|]; [destruct (String.eqb i s)|]|]);
    reflexivity.
Qed.

(** X22. The inline style that the styling effect leaves on an element
    depends on its last run only, and the stroke to restore is recorded once:
    running the effect with one selection and settings and then with others
    leaves the style of a single run with the latter, and the recorded
    [originalStroke] is the one of the first run (the inline stroke the
    element had, else its stroke attribute, else [none]).  So a region that
    was highlighted gets its own stroke back when it is deselected. *)
Theorem style_region_last_run (s1 s2 : GlobalTooltipSettings) (m1 m2 : Mode)
    (sel1 sel2 : option string) (e : Element) :
  let once := style_region s1 m1 sel1 e in
  let twice := style_region s2 m2 sel2 once in
  style twice = style (style_region s2 m2 sel2 e) /\
  originalStroke twice = Some (recorded_stroke e) /\
  (is_selected m2 sel2 e = false -> stroke (style twice) = recorded_stroke e) /\
  id twice = id e.
Proof.
  cbv zeta. rewrite !style_region_fields.
  cbn [style originalStroke id]. unfold recorded_stroke at 1 2 3 4.
  unfold is_selected. cbn [originalStroke id stroke].
  repeat split. intros ->. reflexivity.
Qed.

(** X23. The styling effect never removes a listener: the closures
    [applyHover] and [removeHover] are created anew by each run, so each run
    appends one mouseenter and one mouseleave listener to the element, and
    after [n] runs the element carries [2 n] listeners more than before. *)
Theorem style_region_accumulates (settings : GlobalTooltipSettings)
    (mode : Mode) (sel : option string) (n : nat) (e : Element) :
  length (listeners (Nat.iter n (style_region settings mode sel) e))
  = (length (listeners e) + 2 * n)%nat.
Proof.
  induction n as [|n IH]; [cbn; lia|].
  rewrite Nat.iter_succ, style_region_fields.
  cbn [listeners]. rewrite !length_app, IH. cbn [length]. lia.
Qed.

End StyleLaws.
(** ** The region labels of the editor *)

Module LabelFacts.
Import Js Dom App Interaction Labels.

Local Open Scope string_scope.

Lemma label_of_is_label (store : gmap string RegionData) (n l : Node) :
  label_of store n = Some l -> is_label l = true.
Proof.
  destruct n as [e [bbox|]|]; cbn [label_of];
    repeat match goal with |- context [if ?b then _ else _] => destruct b end;
    try discriminate.
  now intros [= <-].
Qed.

Lemma filter_labels_omap (store : gmap string RegionData) (svg : list Node) :
  filter (fun n => is_label n = false) (omap (label_of store) svg) = [].
Proof.
  induction svg as [|n svg IH]; [reflexivity|]. cbn [omap list_omap].
  destruct (label_of store n) as [l|] eqn:El; [|exact IH].
  rewrite filter_cons_False; [exact IH|].
  rewrite (label_of_is_label store n l El). discriminate.
Qed.

Lemma filter_filter_same {A : Type} (P : A -> Prop) `{!forall x, Decision (P x)}
    (l : list A) :
  filter P (filter P l) = filter P l.
Proof.
  induction l as [|x l IH]; [reflexivity|].
  rewrite filter_cons. case_decide as Hx; [|exact IH].
  rewrite filter_cons_True by exact Hx. now rewrite IH.
Qed.

(** X24. Running the label effect again changes nothing: the labels of the
    previous run are removed before the new ones are appended, so the labels
    never pile up, whatever the mode and the setting. *)
Theorem labels_effect_idempotent (mode : Mode) (showRegionLabels : bool)
    (store : gmap string RegionData) (svg : list Node) :
  labels_effect mode showRegionLabels store
    (labels_effect mode showRegionLabels store svg)
  = labels_effect mode showRegionLabels store svg.
Proof.
  unfold labels_effect. cbv zeta.
  destruct mode; [destruct showRegionLabels|]; rewrite ?filter_app,
    ?filter_labels_omap, ?app_nil_r, ?filter_filter_same; reflexivity.
Qed.

(** X25. The labels that the effect leaves are exactly these: in edit mode
    with [showRegionLabels] set, one for each element of an addressable kind
    that is not itself marked as a label, has an identifier and a box of
    positive width or height, placed at the centre of the box, with the title
    of the element's record as its text, or the identifier when there is no
    record or no title; and none otherwise.  The text of a label is never
    empty. *)
Theorem labels_effect_labels (mode : Mode) (showRegionLabels : bool)
    (store : gmap string RegionData) (svg : list Node) (x y : Q)
    (text : string) :
  Label x y text ∈ labels_effect mode showRegionLabels store svg <->
  mode = edit /\ showRegionLabels = true /\
  exists (e : Element) (bbox : Geometry.SVGRect),
    Shape e (Some bbox) ∈ svg /\
    ~ ("editor-region-label" ∈ classList e) /\
    clickable e = true /\ id e <> "" /\
    ((0 < Geometry.bwidth bbox)%Q \/ (0 < Geometry.bheight bbox)%Q) /\
    x = (Geometry.bx bbox + Geometry.bwidth bbox / 2)%Q /\
    y = (Geometry.by_ bbox + Geometry.bheight bbox / 2)%Q /\
    text = labelText store (id e) /\ text <> "".
Proof.
  unfold labels_effect. cbv zeta.
  assert (Hkept : forall n, n ∈ filter (fun n => is_label n = false) svg ->
                            n <> Label x y text).
  { intros n [Hn _]%list_elem_of_filter ->. discriminate Hn. }
  split.
  - intros Hin.
    assert (Hnew : mode = edit /\ showRegionLabels = true /\
                   Label x y text
                   ∈ omap (label_of store) (filter (fun n => is_label n = false) svg)).
    { destruct mode; [destruct showRegionLabels|].
      - apply elem_of_app in Hin as [Hin | Hin]; [|auto].
        exfalso. now apply (Hkept _ Hin).
      - exfalso. now apply (Hkept _ Hin).
      - exfalso. now apply (Hkept _ Hin). }
    destruct Hnew as (-> & -> & Hl). split; [reflexivity|]. split; [reflexivity|].
    apply list_elem_of_omap in Hl as (n & Hn & Hlab).
    apply list_elem_of_filter in Hn as [Hnot Hn].
    destruct n as [e [bbox|]|]; cbn [label_of] in Hlab; try discriminate;
      [|destruct (clickable e); [destruct (falsy (id e))|]; discriminate].
    destruct (clickable e) eqn:Hc; [|discriminate].
    destruct (falsy (id e)) eqn:Hf; [discriminate|].
    destruct (_ || _)%bool eqn:Hpos; [|discriminate].
    injection Hlab as <- <- <-.
    exists e, bbox. cbn [is_label] in Hnot.
    apply bool_decide_eq_false in Hnot.
    assert (Hid : id e <> "") by (intros E; rewrite E in Hf; discriminate).
    repeat split; auto.
    + apply orb_prop in Hpos as [H | H];
        apply GeometryFacts.Qltb_lt in H; auto.
    + unfold labelText. destruct (store !! id e) as [d|]; [|exact Hid].
      unfold or_else. destruct (falsy (title d)) eqn:Ht; [exact Hid|].
      intros E. rewrite E in Ht. discriminate.
  - intros (-> & -> & e & bbox & Hin & Hclass & Hc & Hid & Hpos & -> & -> & -> & _).
    apply elem_of_app. right. apply list_elem_of_omap.
    exists (Shape e (Some bbox)). split.
    + apply list_elem_of_filter. split; [|exact Hin].
      cbn [is_label]. now apply bool_decide_eq_false.
    + cbn [label_of]. rewrite Hc.
      assert (Hf : falsy (id e) = false) by (destruct (id e); [congruence | reflexivity]).
      rewrite Hf.
      assert (Hp : ((Geometry.bwidth bbox >? JsNum.Fin 0)
                    || (Geometry.bheight bbox >? JsNum.Fin 0))%num = true).
      { apply orb_true_iff. destruct Hpos as [H | H]; [left | right];
          now apply GeometryFacts.Qltb_lt. }
      now rewrite Hp.
Qed.

End LabelFacts.
(** ** Region indexing: every region can be addressed *)

Module IndexLaws.
Import Js Dom App Identifiers RenameFacts.

Local Open Scope string_scope.

Lemma to_uint_not_Nil (n : nat) : Nat.to_uint n <> Decimal.Nil.
Proof.
  intros E. pose proof (DecimalNat.Unsigned.of_to n) as H. rewrite E in H.
  cbn in H. subst n. discriminate E.
Qed.

(** [String(n)] is injective. *)
Lemma of_nat_inj (n m : nat) : of_nat n = of_nat m -> n = m.
Proof.
  unfold of_nat. intros E.
  apply DecimalNat.Unsigned.to_uint_inj.
  pose proof (DecimalString.NilZero.usu _ (to_uint_not_Nil n)) as Hn.
  pose proof (DecimalString.NilZero.usu _ (to_uint_not_Nil m)) as Hm.
  rewrite E in Hn. rewrite Hn in Hm. now injection Hm.
Qed.

Lemma generated_inj (n m : nat) :
  "map-region-" ++ of_nat n = "map-region-" ++ of_nat m -> n = m.
Proof. intros [= E]. now apply of_nat_inj. Qed.

Lemma own_ids_cons (e : Element) (doc : Document) :
  own_ids (e :: doc)
  = if falsy (id e) then own_ids doc else id e :: own_ids doc.
Proof.
  unfold own_ids. cbn [map]. rewrite filter_cons.
  destruct (id e); cbn [falsy]; case_decide; congruence.
Qed.

(** The identifiers after the loop: those of the document, and generated
    ones whose numbers start at the counter. *)
Lemma assign_ids_own_ids (doc : Document) (c : nat) :
  NoDup (own_ids doc) ->
  Forall (fun e => looks_generated (id e) = false) doc ->
  NoDup (own_ids (assign_ids c doc)) /\
  forall x, x ∈ own_ids (assign_ids c doc) ->
            (x ∈ own_ids doc /\ looks_generated x = false) \/
            exists k, (c <= k)%nat /\ x = "map-region-" ++ of_nat k.
Proof.
  revert c. induction doc as [|e rest IH]; intros c Hdup Hgen.
  { split; [constructor | intros x Hx; inversion Hx]. }
  apply Forall_cons in Hgen as [He Hrest].
  rewrite own_ids_cons in Hdup.
  assert (Hdup' : NoDup (own_ids rest)).
  { destruct (falsy (id e)); [exact Hdup | now apply NoDup_cons in Hdup]. }
  cbn [assign_ids].
  assert (Hkeep :
    NoDup (own_ids (e :: assign_ids c rest)) /\
    forall x, x ∈ own_ids (e :: assign_ids c rest) ->
              (x ∈ own_ids (e :: rest) /\ looks_generated x = false) \/
              exists k, (c <= k)%nat /\ x = "map-region-" ++ of_nat k).
  { destruct (IH c Hdup' Hrest) as [Hnd Hall].
    rewrite !own_ids_cons. destruct (falsy (id e)) eqn:Hf.
    - split; [exact Hnd|]. intros x Hx. apply Hall, Hx.
    - apply NoDup_cons in Hdup as [Hnotin _]. split.
      + apply NoDup_cons. split; [|exact Hnd]. intros Hin.
        destruct (Hall _ Hin) as [[Hown _] | (k & _ & Ek)]; [contradiction|].
        rewrite Ek in He. discriminate He.
      + intros x [-> | Hx]%elem_of_cons.
        * left. split; [apply elem_of_cons; now left | exact He].
        * destruct (Hall x Hx) as [[Hown Hg] | Hk]; [|now right].
          left. split; [apply elem_of_cons; now right | exact Hg]. }
  destruct (clickable e); [|exact Hkeep].
  destruct (falsy (id e)) eqn:Hf; [|exact Hkeep].
  destruct (IH (S c) Hdup' Hrest) as [Hnd Hall].
  rewrite !own_ids_cons. cbn [id set_id]. rewrite Hf.
  change (falsy ("map-region-" ++ of_nat c)) with false. cbv iota. split.
  - apply NoDup_cons. split; [|exact Hnd]. intros Hin.
    destruct (Hall _ Hin) as [[_ Hg] | (k & Hk & Ek)].
    + discriminate Hg.
    + apply generated_inj in Ek. lia.
  - intros x [-> | Hx]%elem_of_cons.
    + right. exists c. split; [lia | reflexivity].
    + destruct (Hall x Hx) as [Hown | (k & Hk & Ek)]; [now left|].
      right. exists k. split; [lia | exact Ek].
Qed.

(** Among distinct identifiers, an identifier is found where it is. *)
Lemma find_id_unique (doc : Document) (i : nat) (e : Element) :
  NoDup (own_ids doc) -> doc !! i = Some e -> id e <> "" ->
  find_id (id e) doc = Some i.
Proof.
  revert i. induction doc as [|x rest IH]; intros i Hnd Hi Hid; [discriminate Hi|].
  rewrite own_ids_cons in Hnd. cbn [find_id].
  destruct i as [|i].
  - injection Hi as ->. now rewrite String.eqb_refl.
  - change (rest !! i = Some e) in Hi.
    assert (Hin : id e ∈ own_ids rest).
    { unfold own_ids. apply list_elem_of_filter. split; [exact Hid|].
      apply list_elem_of_In, in_map. apply list_elem_of_In.
      eapply list_elem_of_lookup_2; eauto. }
    destruct (String.eqb (id x) (id e)) eqn:Ex.
    + exfalso. apply String.eqb_eq in Ex.
      destruct (falsy (id x)) eqn:Hf.
      * rewrite Ex in Hf. destruct (id e); [congruence | discriminate].
      * apply NoDup_cons in Hnd as [Hnotin _]. rewrite Ex in Hnotin. contradiction.
    + assert (Hnd' : NoDup (own_ids rest)).
      { destruct (falsy (id x)); [exact Hnd | now apply NoDup_cons in Hnd]. }
      now rewrite (IH i Hnd' Hi Hid).
Qed.

Lemma string_of_uint_not_Nil (d : Decimal.uint) :
  d <> Decimal.Nil ->
  DecimalString.NilZero.string_of_uint d
  = DecimalString.NilEmpty.string_of_uint d.
Proof. destruct d; [congruence | reflexivity..]. Qed.

Lemma safe_chars_uint (d : Decimal.uint) :
  safe_chars (DecimalString.NilEmpty.string_of_uint d) = true.
Proof.
  induction d; cbn [DecimalString.NilEmpty.string_of_uint safe_chars];
    [reflexivity|..]; rewrite IHd; reflexivity.
Qed.

(** A generated identifier is one that the escaped lookup resolves. *)
Lemma selector_safe_generated (n : nat) :
  selector_safe ("map-region-" ++ of_nat n) = true.
Proof.
  unfold of_nat. rewrite (string_of_uint_not_Nil _ (to_uint_not_Nil n)).
  pose proof (safe_chars_uint (Nat.to_uint n)) as H.
  set (t := DecimalString.NilEmpty.string_of_uint (Nat.to_uint n)) in *.
  change (safe_chars t && true = true). now rewrite H.
Qed.

(** X2. After indexing, every region can be addressed by its identifier.
    For a document whose own identifiers are distinct and none of which
    starts with [map-region-], the identifiers of the indexed document are
    distinct, and each element of an addressable kind is the first (and only)
    element that carries its identifier.  The lookup the editor makes,
    [querySelector('#' + escaped identifier)], finds this element when the
    identifier is one that the escaped selector resolves ([selector_safe]:
    not starting with a digit, for one); the identifiers that the indexing
    generates are of this kind. *)
Theorem indexRegions_addressable (doc : Document) (i : nat) (e : Element) :
  NoDup (own_ids doc) ->
  Forall (fun x => looks_generated (id x) = false) doc ->
  indexRegions doc !! i = Some e ->
  clickable e = true ->
  NoDup (own_ids (indexRegions doc)) /\
  id e <> "" /\
  find_id (id e) (indexRegions doc) = Some i /\
  (selector_safe (id e) = true ->
   querySelector ("#" ++ escapeId (id e)) (indexRegions doc) = Some i) /\
  (forall x : Element,
      doc !! i = Some x -> id x = "" -> selector_safe (id e) = true).
Proof.
  intros Hnd Hgen Hi Hc.
  assert (Hgenerated :
    forall x : Element,
      doc !! i = Some x -> id x = "" -> selector_safe (id e) = true).
  { intros x Hx Hid. unfold indexRegions in Hi.
    rewrite IndexFacts.assign_ids_imap, list_lookup_imap, Hx in Hi.
    cbn [fmap option_fmap option_map] in Hi. injection Hi as <-.
    unfold lacks_id in *. rewrite Hid in *. cbn [falsy] in *.
    rewrite andb_true_r in *.
    destruct (clickable x) eqn:Ex.
    - cbn [id set_id]. apply selector_safe_generated.
    - rewrite Ex in Hc. discriminate Hc. }
  unfold indexRegions in *.
  destruct (assign_ids_own_ids doc 0 Hnd Hgen) as [Hnd' _].
  assert (Hid : id e <> "").
  { pose proof (IndexFacts.assign_ids_named doc 0) as Hnamed.
    rewrite Forall_forall in Hnamed.
    assert (Hf : falsy (id e) = false).
    { apply Hnamed; [|exact Hc]. eapply list_elem_of_lookup_2; eauto. }
    intros E. rewrite E in Hf. discriminate Hf. }
  pose proof (find_id_unique _ i e Hnd' Hi Hid) as Hfind.
  split; [exact Hnd'|]. split; [exact Hid|]. split; [exact Hfind|].
  split; [|exact Hgenerated].
  intros Hsafe. now rewrite (escaped_lookup_resolves _ _ Hsafe).
Qed.

(** Two shapes without an identifier around one named [x]. *)
Lemma indexRegions_addressable_witness :
  NoDup (own_ids (indexRegions [plain "g" ""; plain "path" "x"; plain "rect" ""])) /\
  id (plain "rect" "map-region-1") <> "" /\
  find_id (id (plain "rect" "map-region-1"))
    (indexRegions [plain "g" ""; plain "path" "x"; plain "rect" ""])
  = Some 2%nat /\
  (selector_safe (id (plain "rect" "map-region-1")) = true ->
   querySelector ("#" ++ escapeId (id (plain "rect" "map-region-1")))
     (indexRegions [plain "g" ""; plain "path" "x"; plain "rect" ""])
   = Some 2%nat) /\
  (forall x : Element,
      [plain "g" ""; plain "path" "x"; plain "rect" ""] !! 2%nat = Some x ->
      id x = "" ->
      selector_safe (id (plain "rect" "map-region-1")) = true).
Proof.
  apply (indexRegions_addressable
           [plain "g" ""; plain "path" "x"; plain "rect" ""] 2
           (plain "rect" "map-region-1")).
  - vm_compute. apply NoDup_cons. split; [inversion 1 | constructor].
  - repeat constructor.
  - reflexivity.
  - reflexivity.
Defined.

End IndexLaws.
(** ** The escaped text and the script block *)

Module ScriptBlockFacts.
Import Js ExportService ExportFacts ScriptBlock Tactics.

Local Open Scope string_scope.

#[local] Arguments String.append !_ _ / : simpl nomatch.

Lemma closes_cons (c : ascii) (s : string) :
  closes_script_block (String c s)
  = (starts_with true "</script" (String c s)
     && match drop 7 s with
        | String d _ => ends_tag_name d
        | EmptyString => false
        end)
    || closes_script_block s.
Proof. reflexivity. Qed.

Lemma loose_cons (c : ascii) (s : string) :
  loose_end_tag (String c s)
  = (starts_with true "</script" (String c s)
     && match drop 7 s with
        | String d _ => ends_tag_name d && negb (Ascii.eqb d ">"%char)
        | EmptyString => false
        end)
    || loose_end_tag s.
Proof. reflexivity. Qed.

Lemma lt_matches (c : ascii) :
  Ascii.eqb (lower "<") (lower c) = Ascii.eqb c "<"%char.
Proof. by_cases_on_char c. Qed.

Lemma open_tag_cons (c : ascii) (s : string) :
  starts_with true "</script" (String c s)
  = Ascii.eqb c "<"%char && starts_with true "/script" s.
Proof. rewrite starts_with_cons. now rewrite lt_matches. Qed.

Lemma closes_not_lt (c : ascii) (s : string) :
  Ascii.eqb c "<"%char = false ->
  closes_script_block (String c s) = closes_script_block s.
Proof. intros H. now rewrite closes_cons, open_tag_cons, H. Qed.

Lemma loose_not_lt (c : ascii) (s : string) :
  Ascii.eqb c "<"%char = false ->
  loose_end_tag (String c s) = loose_end_tag s.
Proof. intros H. now rewrite loose_cons, open_tag_cons, H. Qed.

(** A match of a pattern without [<] holds no start of an end tag. *)
Lemma loose_skip_match (pat s : string) :
  no_lt pat = true -> starts_with true pat s = true ->
  loose_end_tag s = loose_end_tag (drop (String.length pat) s).
Proof.
  revert s. induction pat as [|p pat IH]; intros s Hp Hm.
  { cbn [String.length]. now rewrite drop_0. }
  destruct s as [|c s]; [discriminate|].
  cbn [no_lt] in Hp. apply andb_prop in Hp as [Hp Hpat].
  rewrite starts_with_cons in Hm. apply andb_prop in Hm as [Hc Hm].
  apply Ascii.eqb_eq in Hc. apply negb_true_iff in Hp.
  assert (Hlt : Ascii.eqb c "<"%char = false).
  { rewrite <- lt_matches. rewrite <- Hc. exact Hp. }
  rewrite (loose_not_lt c s Hlt). cbn [String.length drop]. now apply IH.
Qed.

(** The replacement of [</script>] holds no end tag. *)
Lemma closes_escaped_tag (t : string) :
  closes_script_block (script_close_escaped ++ t) = closes_script_block t.
Proof.
  change (script_close_escaped ++ t)
    with (String "<" (String (ascii_of_nat 92) (String "/" (String "s"
            (String "c" (String "r" (String "i" (String "p" (String "t"
               (String ">" t)))))))))).
  rewrite closes_cons, open_tag_cons.
  change (starts_with true "/script" (String (ascii_of_nat 92) _)) with false.
  rewrite andb_false_r. cbn [andb orb].
  now rewrite !closes_not_lt by reflexivity.
Qed.

(** A character that matches a character of an inert pattern without [<] is
    copied by the escaping. *)
Lemma escape_pass_matched (p c : ascii) (s : string) :
  inert p = true -> Ascii.eqb (lower p) "<"%char = false ->
  Ascii.eqb (lower p) (lower c) = true ->
  escape_pass 0 (String c s) = String c (escape_pass 0 s).
Proof.
  intros Hp Hlt Hm. destruct (inert_match p c Hp Hm) as (H1 & H2 & H3).
  apply escape_pass_copy; auto.
  - apply not_script_close. rewrite <- lt_matches.
    apply Ascii.eqb_eq in Hm. rewrite <- Hm.
    destruct (Ascii.eqb (lower "<") (lower p)) eqn:E; [|reflexivity].
    apply Ascii.eqb_eq in E. rewrite <- E in Hlt. discriminate Hlt.
  - now rewrite H3.
Qed.

(** The escaped text starts with the first character of the text or with a
    backslash. *)
Lemma escape_pass_first (c : ascii) (s : string) :
  exists t, escape_pass 0 (String c s) = String c t \/
            escape_pass 0 (String c s) = String (ascii_of_nat 92) t.
Proof.
  destruct (starts_with true script_close (String c s)) eqn:Em.
  - assert (Hc : c = "<"%char).
    { unfold script_close in Em. rewrite starts_with_cons in Em.
      apply andb_prop in Em as [E _]. rewrite lt_matches in E.
      now apply Ascii.eqb_eq in E. }
    subst c. cbn [escape_pass]. fold script_close. rewrite Em.
    eexists. left. reflexivity.
  - destruct (first_char_cases c s)
      as [(-> & _) | [(-> & _) | [(-> & Hb & _) | (H1 & H2 & H3 & _)]]].
    + rewrite (escape_pass_backslash s Em). eauto.
    + rewrite (escape_pass_backtick s Em). eauto.
    + rewrite (escape_pass_dollar s Em Hb). eauto.
    + rewrite (escape_pass_copy c s Em H1 H2 H3). eauto.
Qed.

Lemma starts_with_escape_pass (pat s : string) :
  inert_pattern pat = true -> no_lt pat = true ->
  starts_with true pat (escape_pass 0 s) = starts_with true pat s.
Proof.
  revert s. induction pat as [|p pat IH]; intros s Hp Hn; [reflexivity|].
  cbn [inert_pattern no_lt] in Hp, Hn.
  apply andb_prop in Hp as [Hp Hpat]. apply andb_prop in Hn as [Hlt Hn].
  apply negb_true_iff in Hlt.
  destruct s as [|c s]; [reflexivity|].
  rewrite (starts_with_cons true p c pat s).
  destruct (Ascii.eqb (lower p) (lower c)) eqn:Em.
  - rewrite (escape_pass_matched p c s Hp Hlt Em), starts_with_cons, Em.
    cbn [andb]. now apply IH.
  - cbn [andb]. destruct (escape_pass_first c s) as [t [-> | ->]];
      rewrite starts_with_cons.
    + now rewrite Em.
    + now rewrite (inert_not_backslash p Hp).
Qed.

Lemma drop_escape_pass (pat s : string) :
  inert_pattern pat = true -> no_lt pat = true ->
  starts_with true pat s = true ->
  drop (String.length pat) (escape_pass 0 s)
  = escape_pass 0 (drop (String.length pat) s).
Proof.
  revert s. induction pat as [|p pat IH]; intros s Hp Hn Hm.
  { cbn [String.length]. now rewrite !drop_0. }
  cbn [inert_pattern no_lt] in Hp, Hn.
  apply andb_prop in Hp as [Hp Hpat]. apply andb_prop in Hn as [Hlt Hn].
  apply negb_true_iff in Hlt.
  destruct s as [|c s]; [discriminate|].
  rewrite starts_with_cons in Hm. apply andb_prop in Hm as [Em Hm].
  rewrite (escape_pass_matched p c s Hp Hlt Em).
  cbn [String.length drop]. now apply IH.
Qed.

Lemma special_not_tag_end (d : ascii) :
  Ascii.eqb d (ascii_of_nat 92) || Ascii.eqb d (ascii_of_nat 96)
  || Ascii.eqb d "$"%char = true ->
  ends_tag_name d = false.
Proof. by_cases_on_char d. Qed.

Lemma gt_matches (d : ascii) :
  Ascii.eqb (lower ">") (lower d) = Ascii.eqb d ">"%char.
Proof. by_cases_on_char d. Qed.

(** Where the text has [</script] that is not the start of [</script>], the
    escaped text has an end tag exactly when the text has one. *)
Lemma tag_end_after_escape (u : string) :
  starts_with true ">" u = false ->
  match escape_pass 0 u with
  | String d _ => ends_tag_name d
  | EmptyString => false
  end
  = match u with
    | String d _ => ends_tag_name d && negb (Ascii.eqb d ">"%char)
    | EmptyString => false
    end.
Proof.
  destruct u as [|d u]; [reflexivity|]. intros Hgt.
  rewrite starts_with_cons, gt_matches in Hgt. cbn [starts_with] in Hgt.
  rewrite andb_true_r in Hgt. rewrite Hgt. cbn [negb]. rewrite andb_true_r.
  destruct (starts_with true script_close (String d u)) eqn:Em.
  - assert (Hd : d = "<"%char).
    { unfold script_close in Em. rewrite starts_with_cons in Em.
      apply andb_prop in Em as [E _]. rewrite lt_matches in E.
      now apply Ascii.eqb_eq in E. }
    subst d. cbn [escape_pass]. fold script_close. rewrite Em. reflexivity.
  - destruct (first_char_cases d u)
      as [(-> & _) | [(-> & _) | [(-> & Hb & _) | (H1 & H2 & H3 & _)]]].
    + rewrite (escape_pass_backslash u Em). reflexivity.
    + rewrite (escape_pass_backtick u Em). reflexivity.
    + rewrite (escape_pass_dollar u Em Hb). reflexivity.
    + rewrite (escape_pass_copy d u Em H1 H2 H3). reflexivity.
Qed.

Lemma starts_with_app (ci : bool) (pat c s : string) :
  starts_with ci (pat ++ c) s
  = starts_with ci pat s && starts_with ci c (drop (String.length pat) s).
Proof.
  revert s. induction pat as [|p pat IH]; intros s.
  { cbn [append String.length starts_with]. now rewrite drop_0. }
  rewrite append_cons. destruct s as [|x s].
  { cbn [starts_with]. reflexivity. }
  rewrite !starts_with_cons, IH. cbn [String.length drop]. now rewrite andb_assoc.
Qed.

(** The escaped text, from the single pass. *)
Lemma closes_escape_pass (s : string) :
  closes_script_block (escape_pass 0 s) = loose_end_tag s.
Proof.
  remember (String.length s) as n eqn:Hn.
  assert (Hle : (String.length s <= n)%nat) by lia. clear Hn.
  revert s Hle. induction n as [|n IH]; intros s Hle.
  { destruct s; [reflexivity | cbn in Hle; lia]. }
  destruct s as [|c s]; [reflexivity|]. cbn [String.length] in Hle.
  destruct (starts_with true script_close (String c s)) eqn:Em.
  - (* [</script>]: replaced on one side, not an end tag of the loose kind on
       the other *)
    cbn [escape_pass]. fold script_close. rewrite Em.
    rewrite (escape_pass_skip 8 s).
    change ("<" ++ backslash ++ "/script>" ++ escape_pass 0 (drop 8 s))
      with (script_close_escaped ++ escape_pass 0 (drop 8 s)).
    rewrite closes_escaped_tag, IH by (pose proof (drop_length 8 s); lia).
    unfold script_close in Em. rewrite starts_with_cons in Em.
    apply andb_prop in Em as [Ec Em]. rewrite lt_matches in Ec.
    change "/script>" with ("/script" ++ ">") in Em.
    rewrite starts_with_app in Em. apply andb_prop in Em as [Em Egt].
    change (String.length "/script") with 7%nat in Egt.
    rewrite loose_cons, open_tag_cons, Ec, Em. cbn [andb].
    destruct (drop 7 s) as [|d u] eqn:Ed; [discriminate Egt|].
    rewrite starts_with_cons, gt_matches in Egt.
    apply andb_prop in Egt as [Egt _]. rewrite Egt. cbn [negb].
    rewrite andb_false_r. cbn [orb].
    rewrite (loose_skip_match "/script>" s); [reflexivity | reflexivity |].
    change "/script>" with ("/script" ++ ">").
    rewrite starts_with_app, Em. change (String.length "/script") with 7%nat.
    rewrite Ed, starts_with_cons, gt_matches, Egt. reflexivity.
  - destruct (first_char_cases c s)
      as [(-> & _) | [(-> & _) | [(-> & Hb & _) | (H1 & H2 & H3 & _)]]].
    + rewrite (escape_pass_backslash s Em).
      rewrite !closes_not_lt, loose_not_lt by reflexivity. apply IH; lia.
    + rewrite (escape_pass_backtick s Em).
      rewrite !closes_not_lt, loose_not_lt by reflexivity. apply IH; lia.
    + rewrite (escape_pass_dollar s Em Hb).
      rewrite !closes_not_lt, loose_not_lt by reflexivity. apply IH; lia.
    + rewrite (escape_pass_copy c s Em H1 H2 H3).
      rewrite closes_cons, loose_cons, IH by lia. f_equal.
      rewrite !open_tag_cons.
      destruct (Ascii.eqb c "<"%char) eqn:Ec; [|reflexivity]. cbn [andb].
      rewrite (starts_with_escape_pass "/script" s) by reflexivity.
      destruct (starts_with true "/script" s) eqn:Eo; [|reflexivity].
      cbn [andb].
      pose proof (drop_escape_pass "/script" s eq_refl eq_refl Eo) as Hd.
      change (String.length "/script") with 7%nat in Hd. rewrite Hd.
      apply tag_end_after_escape.
      (* the text does not go on with [>] *)
      unfold script_close in Em. rewrite starts_with_cons, lt_matches, Ec in Em.
      cbn [andb] in Em. change "/script>" with ("/script" ++ ">") in Em.
      rewrite starts_with_app, Eo in Em. exact Em.
Qed.

(** X26. The template literal that holds the escaped SVG text is never ended
    by the text: whatever the SVG contains (backticks, backslashes, [${]),
    the escaped text is read as one literal part, without substitution, and
    its value is [literal_value 0 svgContent]: the SVG text with each
    [</script>] written in lower case and each CR or CR LF read as LF.  For
    a text without carriage return whose [</script>] are in lower case, the
    value is the text itself. *)
Theorem escapeSvgContent_one_literal (svgContent : string) :
  template_value (escapeSvgContent svgContent)
  = Some (literal_value 0 svgContent) /\
  (plain_text svgContent = true -> literal_value 0 svgContent = svgContent).
Proof. split; [apply escapeSvgContent_literal | apply literal_value_plain]. Qed.

End ScriptBlockFacts.
(** ** The script block as the HTML tokenizer reads it *)

Module TokenizerFacts.
Import Js ExportService ExportFacts ScriptBlock ScriptBlockFacts Tokenizer.
Import Tactics.

Local Open Scope string_scope.

#[local] Arguments String.append !_ _ / : simpl nomatch.

(** *** Characters *)

Lemma alpha_not_end (c : ascii) :
  ascii_alpha c = true -> ends_tag_name c = false.
Proof. by_cases_on_char c. Qed.

Lemma alpha_not_lt (c : ascii) :
  ascii_alpha c = true -> Ascii.eqb c "<"%char = false.
Proof. by_cases_on_char c. Qed.

Lemma end_not_lt (c : ascii) :
  ends_tag_name c = true -> Ascii.eqb c "<"%char = false.
Proof. by_cases_on_char c. Qed.

Lemma alpha_lower (c : ascii) :
  ascii_alpha c = true ->
  ((97 <=? code (lower c)) && (code (lower c) <=? 122))%nat = true.
Proof. by_cases_on_char c. Qed.

Lemma lower_alpha (c : ascii) :
  ((97 <=? code (lower c)) && (code (lower c) <=? 122))%nat = true ->
  ascii_alpha c = true.
Proof. by_cases_on_char c. Qed.

Lemma lower_letter_fixed (c : ascii) :
  ((97 <=? code c) && (code c <=? 122))%nat = true -> lower c = c.
Proof. by_cases_on_char c. Qed.

Lemma lower_lower (c : ascii) : lower (lower c) = lower c.
Proof. by_cases_on_char c. Qed.

Lemma end_lower (c : ascii) : ends_tag_name (lower c) = ends_tag_name c.
Proof. by_cases_on_char c. Qed.

Lemma lower_letter_not_lt (c : ascii) :
  ((97 <=? code c) && (code c <=? 122))%nat = true ->
  Ascii.eqb (lower c) "<"%char = false.
Proof. by_cases_on_char c. Qed.

(** *** Texts that contain a tag *)

Definition tag_end (s : string) : bool :=
  match s with
  | String d _ => ends_tag_name d
  | EmptyString => false
  end.

Lemma has_tag_cons (pat : string) (c : ascii) (s : string) :
  has_tag pat (String c s)
  = (starts_with true pat (String c s)
     && tag_end (drop (String.length pat) (String c s)))
    || has_tag pat s.
Proof. reflexivity. Qed.

Lemma closes_has_tag (s : string) :
  closes_script_block s = has_tag "</script" s.
Proof. induction s as [|c s IH]; [reflexivity|]. cbn. now rewrite IH. Qed.

Lemma start_has_tag (s : string) :
  script_start_tag s = has_tag "<script" s.
Proof. induction s as [|c s IH]; [reflexivity|]. cbn. now rewrite IH. Qed.

Lemma has_tag_suffix (pat x y : string) :
  has_tag pat (x ++ y) = false -> has_tag pat y = false.
Proof.
  induction x as [|c x IH]; [auto|]. rewrite append_cons, has_tag_cons.
  intros [_ H]%orb_false_elim. auto.
Qed.

Lemma starts_with_lower (pat s : string) :
  starts_with true pat (lower_str s) = starts_with true pat s.
Proof.
  revert s. induction pat as [|p pat IH]; intros s; [reflexivity|].
  destruct s as [|c s]; [reflexivity|]. cbn [lower_str].
  now rewrite !starts_with_cons, lower_lower, IH.
Qed.

Lemma drop_lower (n : nat) (s : string) :
  drop n (lower_str s) = lower_str (drop n s).
Proof.
  revert s. induction n as [|n IH]; intros s; [now rewrite !drop_0|].
  destruct s as [|c s]; [reflexivity|]. cbn [lower_str drop]. apply IH.
Qed.

Lemma tag_end_lower (s : string) : tag_end (lower_str s) = tag_end s.
Proof. destruct s as [|c s]; [reflexivity|]. apply end_lower. Qed.

Lemma has_tag_lower (pat s : string) :
  has_tag pat (lower_str s) = has_tag pat s.
Proof.
  induction s as [|c s IH]; [reflexivity|].
  change (lower_str (String c s)) with (String (lower c) (lower_str s)).
  rewrite !has_tag_cons, IH. f_equal.
  change (String (lower c) (lower_str s)) with (lower_str (String c s)).
  now rewrite starts_with_lower, drop_lower, tag_end_lower.
Qed.

Lemma lower_str_app (x y : string) :
  lower_str (x ++ y) = lower_str x ++ lower_str y.
Proof.
  induction x as [|c x IH]; [reflexivity|].
  rewrite append_cons. cbn [lower_str]. now rewrite IH, append_cons.
Qed.

(** The case of a letter does not matter. *)
Lemma has_tag_lower_at (pat x : string) (c : ascii) (y : string) :
  has_tag pat (x ++ String c y) = has_tag pat (x ++ String (lower c) y).
Proof.
  rewrite <- (has_tag_lower pat (x ++ String c y)).
  rewrite <- (has_tag_lower pat (x ++ String (lower c) y)).
  rewrite !lower_str_app. cbn [lower_str]. now rewrite lower_lower.
Qed.

(** A tag starts with [<]. *)
Lemma has_tag_lt (p t : string) :
  has_tag (String "<" p) (String "<" t)
  = (starts_with true p t && tag_end (drop (String.length p) t))
    || has_tag (String "<" p) t.
Proof. reflexivity. Qed.

Lemma has_tag_not_lt (p : string) (c : ascii) (t : string) :
  Ascii.eqb c "<"%char = false ->
  has_tag (String "<" p) (String c t) = has_tag (String "<" p) t.
Proof.
  intros H. now rewrite has_tag_cons, starts_with_cons, lt_matches, H.
Qed.

Lemma has_tag_skip (p x t : string) :
  no_lt x = true -> has_tag (String "<" p) (x ++ t) = has_tag (String "<" p) t.
Proof.
  induction x as [|c x IH]; [reflexivity|]. cbn [no_lt].
  intros [Hc Hx]%andb_prop. apply negb_true_iff in Hc.
  rewrite append_cons, has_tag_not_lt; [now apply IH|].
  rewrite <- lt_matches. rewrite Ascii.eqb_sym. exact Hc.
Qed.

Lemma lower_letters_no_lt (n : string) : lower_letters n = true -> no_lt n = true.
Proof.
  induction n as [|a n IH]; [reflexivity|]. cbn [lower_letters no_lt].
  intros [Ha Hn]%andb_prop. rewrite (lower_letter_not_lt a Ha). cbn [negb andb].
  auto.
Qed.

Lemma lower_letters_app (a b : string) :
  lower_letters (a ++ b) = lower_letters a && lower_letters b.
Proof.
  induction a as [|c a IH]; [reflexivity|].
  rewrite append_cons. cbn [lower_letters]. now rewrite IH, andb_assoc.
Qed.

(** A name of lower case letters, followed by a character that is not a
    letter, goes on as the tag [p] exactly when it is [p] and the character
    ends the tag. *)
Lemma tag_tail (p n : string) (c : ascii) (t : string) :
  lower_letters p = true -> lower_letters n = true -> ascii_alpha c = false ->
  starts_with true p (n ++ String c t)
  && tag_end (drop (String.length p) (n ++ String c t))
  = String.eqb n p && ends_tag_name c.
Proof.
  revert n. induction p as [|x p IH]; intros n Hp Hn Hc.
  - destruct n as [|a n]; [reflexivity|].
    cbn [lower_letters] in Hn. apply andb_prop in Hn as [Ha _].
    cbn [String.length starts_with andb]. rewrite drop_0, append_cons.
    cbn [tag_end String.eqb]. apply alpha_not_end, lower_alpha.
    now rewrite (lower_letter_fixed a Ha).
  - cbn [lower_letters] in Hp. apply andb_prop in Hp as [Hx Hp].
    destruct n as [|a n].
    + cbn [append]. rewrite starts_with_cons.
      destruct (Ascii.eqb (lower x) (lower c)) eqn:E; [|reflexivity].
      apply Ascii.eqb_eq in E. rewrite (lower_letter_fixed x Hx) in E.
      rewrite E in Hx. apply lower_alpha in Hx. congruence.
    + cbn [lower_letters] in Hn. apply andb_prop in Hn as [Ha Hn].
      rewrite append_cons, starts_with_cons.
      rewrite (lower_letter_fixed x Hx), (lower_letter_fixed a Ha).
      cbn [String.length drop String.eqb]. rewrite <- andb_assoc, (IH n Hp Hn Hc).
      rewrite (Ascii.eqb_sym x a).
      destruct (Ascii.eqb a x); reflexivity.
Qed.

(** *** The tokenizer and the two tags *)

Abbreviation C := (has_tag "</script") (only parsing).
Abbreviation O := (has_tag "<script") (only parsing).

Lemma slash_matches (c : ascii) :
  Ascii.eqb (lower "/") (lower c) = Ascii.eqb c "/"%char.
Proof. by_cases_on_char c. Qed.

Lemma lower_letter_not_slash (c : ascii) :
  ((97 <=? code c) && (code c <=? 122))%nat = true ->
  Ascii.eqb c "/"%char = false.
Proof. by_cases_on_char c. Qed.

(** After [<], an end tag needs [/]. *)
Lemma closes_lt_other (c : ascii) (t : string) :
  Ascii.eqb c "/"%char = false ->
  C (String "<" (String c t)) = C (String c t).
Proof.
  intros H. now rewrite has_tag_lt, starts_with_cons, slash_matches, H.
Qed.

(** After [</] and a name of lower case letters, at a character that is not
    a letter. *)
Lemma closes_name (n : string) (c : ascii) (t : string) :
  lower_letters n = true -> ascii_alpha c = false ->
  C (String "<" (String "/" (n ++ String c t)))
  = (String.eqb n "script" && ends_tag_name c) || C (String c t).
Proof.
  intros Hn Hc. rewrite has_tag_lt, starts_with_cons.
  change (Ascii.eqb (lower "/") (lower "/")) with true. cbn [andb].
  change (drop (String.length "/script") (String "/" (n ++ String c t)))
    with (drop (String.length "script") (n ++ String c t)).
  rewrite (tag_tail "script" n c t eq_refl Hn Hc).
  rewrite has_tag_not_lt by reflexivity.
  now rewrite (has_tag_skip "/script" n _ (lower_letters_no_lt n Hn)).
Qed.

(** After [<] and a buffer of lower case letters that is not empty. *)
Lemma closes_buffer (b t : string) :
  lower_letters b = true -> String.eqb b "" = false ->
  C (String "<" (b ++ t)) = C t.
Proof.
  intros Hb He. destruct b as [|a b]; [discriminate He|].
  pose proof Hb as Hb'. cbn [lower_letters] in Hb'.
  apply andb_prop in Hb' as [Ha _].
  rewrite append_cons, closes_lt_other by (now apply lower_letter_not_slash).
  change (String a (b ++ t)) with (String a b ++ t).
  apply has_tag_skip. now apply lower_letters_no_lt.
Qed.

Lemma starts_buffer (b : string) (c : ascii) (t : string) :
  lower_letters b = true -> ascii_alpha c = false ->
  O (String "<" (b ++ String c t))
  = (String.eqb b "script" && ends_tag_name c) || O (b ++ String c t).
Proof.
  intros Hb Hc. rewrite has_tag_lt.
  now rewrite (tag_tail "script" b c t eq_refl Hb Hc).
Qed.

(** What a step has to keep: the end tag is in the text read so far and the
    text to come exactly when it is in what the next state has pending and
    the text to come. *)
Definition sound (w : string) (c : ascii) (t : string) (out : Outcome) : Prop :=
  match out with
  | EndTag => C (w ++ String c t) = true
  | Switch q' =>
      single q' = true /\ O (pending q' ++ t) = false /\
      C (w ++ String c t) = C (pending q' ++ t)
  end.

Lemma sound_data (w : string) (c : ascii) (t : string) :
  O (w ++ String c t) = false ->
  C (w ++ String c t) = C (String c t) ->
  sound w c t (script_data c).
Proof.
  intros Ho Hc. apply has_tag_suffix in Ho. unfold script_data, char_is.
  destruct (Ascii.eqb c "<"%char) eqn:E.
  - apply Ascii.eqb_eq in E. subst c. now repeat split.
  - rewrite has_tag_not_lt in Ho by exact E.
    rewrite has_tag_not_lt in Hc by exact E. now repeat split.
Qed.

Lemma sound_escaped (w : string) (c : ascii) (t : string) :
  O (w ++ String c t) = false ->
  C (w ++ String c t) = C (String c t) ->
  sound w c t (script_data_escaped c).
Proof.
  intros Ho Hc. apply has_tag_suffix in Ho. unfold script_data_escaped, char_is.
  destruct (Ascii.eqb c "-"%char) eqn:Ed.
  { apply Ascii.eqb_eq in Ed. subst c.
    rewrite has_tag_not_lt in Ho by reflexivity.
    rewrite has_tag_not_lt in Hc by reflexivity. now repeat split. }
  destruct (Ascii.eqb c "<"%char) eqn:E.
  - apply Ascii.eqb_eq in E. subst c. now repeat split.
  - rewrite has_tag_not_lt in Ho by exact E.
    rewrite has_tag_not_lt in Hc by exact E. now repeat split.
Qed.

(** A letter after a pending text [w0 ++ n]. *)
Lemma sound_letter (w0 n : string) (c : ascii) (t : string)
    (state : string -> State) :
  (forall x, pending (state x) = w0 ++ x) ->
  (forall x, single (state x) = lower_letters x && negb (String.eqb x "")) ->
  lower_letters n = true -> ascii_alpha c = true ->
  O ((w0 ++ n) ++ String c t) = false ->
  sound (w0 ++ n) c t (Switch (state (n ++ String (lower c) EmptyString))).
Proof.
  intros Hp Hs Hn Hc Ho. cbn [sound]. rewrite Hp, Hs.
  assert (Happ : (w0 ++ n ++ String (lower c) "") ++ t
                 = (w0 ++ n) ++ String (lower c) t).
  { now rewrite !append_assoc. }
  rewrite Happ. split; [|split].
  - rewrite lower_letters_app, Hn. cbn [lower_letters andb].
    rewrite (alpha_lower c Hc). cbn [andb negb].
    destruct n; reflexivity.
  - now rewrite <- has_tag_lower_at.
  - apply has_tag_lower_at.
Qed.

Lemma end_not_alpha (c : ascii) :
  ends_tag_name c = true -> ascii_alpha c = false.
Proof.
  intros H. destruct (ascii_alpha c) eqn:E; [|reflexivity].
  rewrite (alpha_not_end c E) in H. discriminate H.
Qed.

(** The end tag name states. *)
Lemma sound_end_tag_name (n : string) (c : ascii) (t : string)
    (anything_else : Outcome) (state : string -> State) :
  (forall x, pending (state x) = "</" ++ x) ->
  (forall x, single (state x) = lower_letters x && negb (String.eqb x "")) ->
  lower_letters n = true ->
  O (("</" ++ n) ++ String c t) = false ->
  (ascii_alpha c = false ->
   String.eqb n "script" && ends_tag_name c = false ->
   sound ("</" ++ n) c t anything_else) ->
  sound ("</" ++ n) c t (end_tag_name anything_else n c state).
Proof.
  intros Hp Hs Hn Ho Helse. unfold end_tag_name.
  destruct (ends_tag_name c) eqn:Ee.
  - pose proof (end_not_alpha c Ee) as Ha.
    destruct (String.eqb n "script") eqn:En.
    + cbn [sound].
      change (("</" ++ n) ++ String c t)
        with (String "<" (String "/" (n ++ String c t))).
      now rewrite (closes_name n c t Hn Ha), En, Ee.
    + apply Helse; [exact Ha | reflexivity].
  - destruct (ascii_alpha c) eqn:Ea.
    + now apply sound_letter.
    + apply Helse; [reflexivity | apply andb_false_r].
Qed.

(** Each step of a single state is sound. *)
Lemma step_sound (q : State) (c : ascii) (t : string) :
  single q = true -> O (pending q ++ String c t) = false ->
  sound (pending q) c t (step q c).
Proof.
  intros Hq Ho. destruct q; try discriminate Hq; cbn [step pending] in *.
  - (* script data *)
    now apply sound_data.
  - (* less-than sign *)
    unfold char_is. destruct (Ascii.eqb c "/"%char) eqn:Es.
    { apply Ascii.eqb_eq in Es. subst c. now repeat split. }
    destruct (Ascii.eqb c "!"%char) eqn:Eb.
    { apply Ascii.eqb_eq in Eb. subst c. now repeat split. }
    apply sound_data; [exact Ho|]. now apply closes_lt_other.
  - (* end tag open *)
    destruct (ascii_alpha c) eqn:Ea.
    + apply (sound_end_tag_name "" c t _ ScriptDataEndTagName); auto.
      intros Ha. congruence.
    + apply sound_data; [exact Ho|].
      change ("</" ++ String c t) with (String "<" (String "/" ("" ++ String c t))).
      now rewrite (closes_name "" c t eq_refl Ea).
  - (* end tag name *)
    cbn [single] in Hq. apply andb_prop in Hq as [Hn _].
    apply (sound_end_tag_name name c t _ ScriptDataEndTagName); auto.
    intros Ha Hm. apply sound_data; [exact Ho|].
    change (("</" ++ name) ++ String c t)
      with (String "<" (String "/" (name ++ String c t))).
    now rewrite (closes_name name c t Hn Ha), Hm.
  - (* escape start *)
    unfold char_is. destruct (Ascii.eqb c "-"%char) eqn:Ed.
    { apply Ascii.eqb_eq in Ed. subst c. now repeat split. }
    apply sound_data; [exact Ho|].
    change ("<!" ++ String c t) with (String "<" (String "!" (String c t))).
    rewrite closes_lt_other by reflexivity.
    now rewrite has_tag_not_lt by reflexivity.
  - (* escape start dash *)
    unfold char_is. destruct (Ascii.eqb c "-"%char) eqn:Ed.
    { apply Ascii.eqb_eq in Ed. subst c. cbn [sound pending].
      split; [reflexivity|]. split.
      - now apply (has_tag_suffix "<script" "<!--" t).
      - change ("<!-" ++ String "-" t)
          with (String "<" (String "!" (String "-" (String "-" t)))).
        rewrite closes_lt_other by reflexivity.
        now rewrite !has_tag_not_lt by reflexivity. }
    apply sound_data; [exact Ho|].
    change ("<!-" ++ String c t)
      with (String "<" (String "!" (String "-" (String c t)))).
    rewrite closes_lt_other by reflexivity.
    now rewrite !has_tag_not_lt by reflexivity.
  - (* escaped *)
    now apply sound_escaped.
  - (* escaped dash *)
    change (sound "" c t
              (if char_is "-" c then Switch ScriptDataEscapedDashDash
               else if char_is "<" c then Switch ScriptDataEscapedLessThanSign
               else Switch ScriptDataEscaped)).
    pose proof (sound_escaped "" c t Ho eq_refl) as H.
    unfold script_data_escaped in H.
    destruct (char_is "-" c); [|exact H].
    cbn [sound pending] in *. tauto.
  - (* escaped dash dash *)
    pose proof (sound_escaped "" c t Ho eq_refl) as H.
    unfold script_data_escaped in H.
    destruct (char_is "-" c); [cbn [sound pending] in *; tauto|].
    destruct (char_is "<" c); [exact H|].
    destruct (char_is ">" c); [|exact H].
    cbn [sound pending single] in *. tauto.
  - (* escaped less-than sign *)
    unfold char_is. destruct (Ascii.eqb c "/"%char) eqn:Es.
    { apply Ascii.eqb_eq in Es. subst c. now repeat split. }
    destruct (ascii_alpha c) eqn:Ea.
    + unfold double_escape. rewrite (alpha_not_end c Ea), Ea.
      apply (sound_letter "<" "" c t ScriptDataDoubleEscapeStart); auto.
    + apply sound_escaped; [exact Ho|]. now apply closes_lt_other.
  - (* escaped end tag open *)
    destruct (ascii_alpha c) eqn:Ea.
    + apply (sound_end_tag_name "" c t _ ScriptDataEscapedEndTagName); auto.
      intros Ha. congruence.
    + apply sound_escaped; [exact Ho|].
      change ("</" ++ String c t) with (String "<" (String "/" ("" ++ String c t))).
      now rewrite (closes_name "" c t eq_refl Ea).
  - (* escaped end tag name *)
    cbn [single] in Hq. apply andb_prop in Hq as [Hn _].
    apply (sound_end_tag_name name c t _ ScriptDataEscapedEndTagName); auto.
    intros Ha Hm. apply sound_escaped; [exact Ho|].
    change (("</" ++ name) ++ String c t)
      with (String "<" (String "/" (name ++ String c t))).
    now rewrite (closes_name name c t Hn Ha), Hm.
  - (* double escape start *)
    cbn [single] in Hq. apply andb_prop in Hq as [Hb Hne].
    apply negb_true_iff in Hne.
    assert (Hdead : C (("<" ++ buffer) ++ String c t) = C (String c t)).
    { change (("<" ++ buffer) ++ String c t)
        with (String "<" (buffer ++ String c t)).
      now apply closes_buffer. }
    unfold double_escape. destruct (ends_tag_name c) eqn:Ee.
    + pose proof (end_not_alpha c Ee) as Ha.
      change (("<" ++ buffer) ++ String c t)
        with (String "<" (buffer ++ String c t)) in Ho.
      rewrite (starts_buffer buffer c t Hb Ha), Ee in Ho.
      apply orb_false_elim in Ho as [Hm Ho]. rewrite andb_true_r in Hm.
      rewrite Hm. cbn [sound pending single].
      apply has_tag_suffix in Ho.
      pose proof (end_not_lt c Ee) as Hlt.
      rewrite has_tag_not_lt in Ho by exact Hlt.
      split; [reflexivity|]. split; [exact Ho|].
      rewrite Hdead. now apply has_tag_not_lt.
    + destruct (ascii_alpha c) eqn:Ea.
      * now apply (sound_letter "<" buffer c t ScriptDataDoubleEscapeStart).
      * now apply sound_escaped.
Qed.

Lemma tag_end_drop_letters (k : nat) (n : string) :
  lower_letters n = true -> tag_end (drop k n) = false.
Proof.
  revert n. induction k as [|k IH]; intros n Hn.
  - rewrite drop_0. destruct n as [|a n]; [reflexivity|].
    cbn [lower_letters] in Hn. apply andb_prop in Hn as [Ha _].
    apply alpha_not_end, lower_alpha. now rewrite (lower_letter_fixed a Ha).
  - destruct n as [|a n]; [reflexivity|].
    cbn [lower_letters] in Hn. apply andb_prop in Hn as [_ Hn].
    cbn [drop]. now apply IH.
Qed.

Lemma append_nil_r (w : string) : w ++ "" = w.
Proof.
  induction w as [|a w IH]; [reflexivity|]. now rewrite append_cons, IH.
Qed.

Lemma closes_letters (n : string) : lower_letters n = true -> C n = false.
Proof.
  intros Hn. rewrite <- (append_nil_r n).
  now rewrite (has_tag_skip "/script" n "" (lower_letters_no_lt n Hn)).
Qed.

Lemma closes_pending_name (n : string) :
  lower_letters n = true -> C ("</" ++ n) = false.
Proof.
  intros Hn. change ("</" ++ n) with (String "<" (String "/" n)).
  rewrite has_tag_lt, has_tag_not_lt by reflexivity.
  change (drop (String.length "/script") (String "/" n)) with (drop 6 n).
  now rewrite (tag_end_drop_letters 6 n Hn), andb_false_r, (closes_letters n Hn).
Qed.

(** What is pending holds no end tag by itself. *)
Lemma pending_open (q : State) :
  single q = true -> C (pending q) = false.
Proof.
  intros Hq. destruct q; try discriminate Hq; try reflexivity;
    cbn [single pending] in *; apply andb_prop in Hq as [Hn Hne].
  - now apply closes_pending_name.
  - now apply closes_pending_name.
  - apply negb_true_iff in Hne.
    change ("<" ++ buffer) with (String "<" buffer).
    rewrite <- (append_nil_r buffer). now apply closes_buffer.
Qed.

(** From a single state, on a text without a start tag of a script element,
    the tokenizer reads the end tag of the script element exactly when the
    pending text and the text hold [</script] followed by white space, [/]
    or [>]. *)
Lemma ends_script_single (s : string) (q : State) :
  single q = true -> O (pending q ++ s) = false ->
  ends_script q s = C (pending q ++ s).
Proof.
  revert q. induction s as [|c t IH]; intros q Hq Ho.
  - cbn [ends_script]. symmetry. rewrite append_nil_r. now apply pending_open.
  - cbn [ends_script]. pose proof (step_sound q c t Hq Ho) as H.
    destruct (step q c) as [q'|]; cbn [sound] in H.
    + destruct H as (Hq' & Ho' & ->). now apply IH.
    + now rewrite H.
Qed.

(** In the script data state and in the script data escaped state. *)
Lemma ends_script_closes (s : string) :
  script_start_tag s = false ->
  ends_script ScriptData s = closes_script_block s /\
  ends_script ScriptDataEscaped s = closes_script_block s.
Proof.
  rewrite start_has_tag, closes_has_tag. intros Ho.
  split; now apply ends_script_single.
Qed.

(** *** The escaped SVG text *)

Lemma has_tag_skip_match (p pat s : string) :
  no_lt pat = true -> starts_with true pat s = true ->
  has_tag (String "<" p) s
  = has_tag (String "<" p) (drop (String.length pat) s).
Proof.
  revert s. induction pat as [|x pat IH]; intros s Hp Hm.
  { cbn [String.length]. now rewrite drop_0. }
  destruct s as [|c s]; [discriminate|].
  cbn [no_lt] in Hp. apply andb_prop in Hp as [Hx Hpat].
  rewrite starts_with_cons in Hm. apply andb_prop in Hm as [Hc Hm].
  apply Ascii.eqb_eq in Hc. apply negb_true_iff in Hx.
  assert (Hlt : Ascii.eqb c "<"%char = false).
  { rewrite <- lt_matches. rewrite <- Hc. exact Hx. }
  rewrite (has_tag_not_lt p c s Hlt). cbn [String.length drop]. now apply IH.
Qed.

(** The escaping does not change whether the first character ends a tag. *)
Lemma tag_end_escape_pass (u : string) :
  tag_end (escape_pass 0 u) = tag_end u.
Proof.
  destruct u as [|d u]; [reflexivity|].
  destruct (starts_with true script_close (String d u)) eqn:Em.
  - assert (Hd : d = "<"%char).
    { unfold script_close in Em. rewrite starts_with_cons in Em.
      apply andb_prop in Em as [E _]. rewrite lt_matches in E.
      now apply Ascii.eqb_eq in E. }
    subst d. cbn [escape_pass]. fold script_close. rewrite Em. reflexivity.
  - destruct (first_char_cases d u)
      as [(-> & _) | [(-> & _) | [(-> & Hb & _) | (H1 & H2 & H3 & _)]]].
    + rewrite (escape_pass_backslash u Em). reflexivity.
    + rewrite (escape_pass_backtick u Em). reflexivity.
    + rewrite (escape_pass_dollar u Em Hb). reflexivity.
    + rewrite (escape_pass_copy d u Em H1 H2 H3). reflexivity.
Qed.

(** The escaped text holds a start tag of a script element exactly when the
    text does. *)
Lemma start_escape_pass (s : string) : O (escape_pass 0 s) = O s.
Proof.
  remember (String.length s) as n eqn:Hn.
  assert (Hle : (String.length s <= n)%nat) by lia. clear Hn.
  revert s Hle. induction n as [|n IH]; intros s Hle.
  { destruct s; [reflexivity | cbn in Hle; lia]. }
  destruct s as [|c s]; [reflexivity|]. cbn [String.length] in Hle.
  destruct (starts_with true script_close (String c s)) eqn:Em.
  - cbn [escape_pass]. fold script_close. rewrite Em.
    rewrite (escape_pass_skip 8 s).
    change ("<" ++ backslash ++ "/script>" ++ escape_pass 0 (drop 8 s))
      with (String "<" (String (ascii_of_nat 92)
              ("/script>" ++ escape_pass 0 (drop 8 s)))).
    rewrite has_tag_lt, starts_with_cons.
    change (Ascii.eqb (lower "s") (lower (ascii_of_nat 92))) with false.
    cbn [andb orb]. rewrite has_tag_not_lt by reflexivity.
    rewrite (has_tag_skip "script" "/script>" _ eq_refl).
    rewrite IH by (pose proof (drop_length 8 s); lia).
    unfold script_close in Em. rewrite starts_with_cons in Em.
    apply andb_prop in Em as [Ec Em]. rewrite lt_matches in Ec.
    apply Ascii.eqb_eq in Ec. subst c.
    rewrite has_tag_lt.
    assert (Hs : starts_with true "script" s = false).
    { destruct s as [|d s]; [reflexivity|].
      rewrite starts_with_cons in Em. apply andb_prop in Em as [Ed _].
      rewrite slash_matches in Ed. apply Ascii.eqb_eq in Ed. subst d.
      reflexivity. }
    rewrite Hs. cbn [andb orb].
    now rewrite (has_tag_skip_match "script" "/script>" s eq_refl Em).
  - destruct (first_char_cases c s)
      as [(-> & _) | [(-> & _) | [(-> & Hb & _) | (H1 & H2 & H3 & _)]]].
    + rewrite (escape_pass_backslash s Em).
      rewrite !has_tag_not_lt by reflexivity. apply IH; lia.
    + rewrite (escape_pass_backtick s Em).
      rewrite !has_tag_not_lt by reflexivity. apply IH; lia.
    + rewrite (escape_pass_dollar s Em Hb).
      rewrite !has_tag_not_lt by reflexivity. apply IH; lia.
    + rewrite (escape_pass_copy c s Em H1 H2 H3).
      rewrite !has_tag_cons, IH by lia. f_equal.
      rewrite !starts_with_cons.
      destruct (Ascii.eqb (lower "<") (lower c)); [|reflexivity]. cbn [andb].
      rewrite (starts_with_escape_pass "script" s) by reflexivity.
      destruct (starts_with true "script" s) eqn:Eo; [|reflexivity].
      cbn [andb].
      change (drop (String.length "<script") (String c ?x))
        with (drop (String.length "script") x).
      rewrite (drop_escape_pass "script" s eq_refl eq_refl Eo).
      apply tag_end_escape_pass.
Qed.

(** The tokenizer on the texts at which the escaping falls short: the end tag
    [</script >] ends the script block, inside a comment as well. *)
Example ends_script_loose_end_tag :
  ends_script ScriptData (escapeSvgContent "</script >") = true /\
  ends_script ScriptData (escapeSvgContent "<svg><!-- </script > --></svg>")
  = true.
Proof. split; vm_compute; reflexivity. Qed.

(** A comment that is closed leaves the tokenizer in the script data state:
    a start tag of a script element after it starts nothing, and the end tag
    ends the script block. *)
Example ends_script_after_comment :
  ends_script ScriptData "<!-- c --><script> </script >" = true /\
  ends_script ScriptData "<!-- c -- ><script> </script >" = false.
Proof. split; vm_compute; reflexivity. Qed.

(** A comment that holds a start tag of a script element hides the end tag
    from the tokenizer: [</script ] takes it from the double escaped state
    to the escaped state, and the script block does not end. *)
Example ends_script_double_escaped :
  let svgContent := "<svg><!-- <script> </script ></svg>" in
  script_start_tag svgContent = true /\
  loose_end_tag svgContent = true /\
  closes_script_block (escapeSvgContent svgContent) = true /\
  ends_script ScriptData (escapeSvgContent svgContent) = false.
Proof. repeat split; vm_compute; reflexivity. Qed.

(** X27. The escaped SVG text and the script block of the exported document,
    as the HTML tokenizer reads it.  The tokenizer is in the script data
    state where the text begins (the script before it holds no [<]).  For
    an SVG text without a start tag of a script element ([<script], in any
    case of its letters, followed by white space, [/] or [>]), the tokenizer
    reads the end tag of the script element inside the escaped text exactly
    when the SVG text contains [</script], in any case of its letters,
    followed by white space or by a slash, be it inside a comment or not.
    A text in which every [</script] is followed by [>] (or by a character
    that does not end a tag name) stays inside the script block. *)
Theorem escapeSvgContent_closes_script_block (svgContent : string) :
  script_start_tag svgContent = false ->
  ends_script ScriptData (escapeSvgContent svgContent)
  = loose_end_tag svgContent.
Proof.
  intros Ho. rewrite escapeSvgContent_pass.
  assert (Ho' : script_start_tag (escape_pass 0 svgContent) = false).
  { rewrite start_has_tag, start_escape_pass, <- start_has_tag. exact Ho. }
  destruct (ends_script_closes _ Ho') as [-> _]. apply closes_escape_pass.
Qed.

(** A comment with an end tag that is not written [</script>]. *)
Lemma escapeSvgContent_closes_script_block_witness :
  ends_script ScriptData
    (escapeSvgContent "<svg><!-- </script > --><path id=`a`/></svg>")
  = loose_end_tag "<svg><!-- </script > --><path id=`a`/></svg>".
Proof.
  apply (escapeSvgContent_closes_script_block
           "<svg><!-- </script > --><path id=`a`/></svg>").
  vm_compute. reflexivity.
Defined.

End TokenizerFacts.
(** ** The customization panel *)

Module PanelFacts.
Import Js Dom App Panel RenameFacts RenameLaws.

Local Open Scope string_scope.

Lemma merge_default_set_field (field : Field) (value : string) (d : RegionData) :
  merge_default (set_field field value (merge_default d))
  = set_field field value (merge_default d).
Proof.
  destruct d as [t de l [src|]], field; reflexivity.
Qed.

(** X9. An edit in the panel changes one field of one record.  When the
    panel shows the record of the selected region (its [data] is the record
    completed with the defaults), [handleChange(field, value)] followed by
    the panel's effect stores that record with [field] set to [value] under
    the selected identifier, every other record and the DOM and the
    selection are unchanged, and the panel shows the new record; the effect
    also puts the selected identifier back into the identifier field and
    clears its error. *)
Theorem edit_field_spec (sel : string) (field : Field) (value : string)
    (p : PanelState) (st : AppState) (d : RegionData) :
  own (customizationData st) !! sel = Some (Rec d) ->
  data p = merge_default d ->
  let p' := fst (edit_field sel field value p st) in
  let st' := snd (edit_field sel field value p st) in
  own (customizationData st') !! sel
  = Some (Rec (set_field field value (merge_default d))) /\
  (forall k, k <> sel ->
     own (customizationData st') !! k = own (customizationData st) !! k) /\
  dom st' = dom st /\ selectedRegionId st' = selectedRegionId st /\
  data p' = set_field field value (merge_default d) /\
  currentId p' = sel /\ shownError p' = None.
Proof.
  intros Hd Hp. cbv zeta.
  unfold edit_field, handleChange, panel_init, selectedData, read.
  cbn [customizationData handleDataChange own spread]. rewrite lookup_insert_eq.
  cbn [truthy spread_over_default fst snd customizationData dom
       selectedRegionId data currentId shownError own].
  rewrite Hp. split; [apply lookup_insert_eq|].
  split; [intros k Hk; now apply lookup_insert_ne|].
  repeat split. apply merge_default_set_field.
Qed.

(** The title of region [c] of [sample_state] is edited. *)
Lemma edit_field_spec_witness :
  own (customizationData
         (snd (edit_field "c" f_title "Sea"
                 (mkPanel (merge_default (mkRegionData "C" "" "" None)) "c" None)
                 sample_state))) !! "c"
  = Some (Rec (mkRegionData "Sea" "" "" (Some ""))).
Proof.
  apply (edit_field_spec "c" f_title "Sea"
           (mkPanel (merge_default (mkRegionData "C" "" "" None)) "c" None)
           sample_state (mkRegionData "C" "" "" None)); reflexivity.
Defined.

(** X8. The identifier field of the panel either shows an error or renames.
    In a plain store, when the selected and the typed identifier name no
    property of [Object.prototype] and differ, leaving the field after
    typing either leaves a message under the field and the state of [App]
    untouched, or renames the region: the typed identifier becomes the
    selection and holds the record of the region.  The message for a failed
    rename is never shown. *)
Theorem type_id_spec (sel typed : string) (p : PanelState) (st : AppState) :
  plain_store (customizationData st) ->
  inherited sel = false ->
  inherited typed = false ->
  typed <> sel ->
  let p' := fst (type_id sel typed p st) in
  let st' := snd (type_id sel typed p st) in
  currentId p' = typed /\
  ((is_Some (shownError p') /\ st' = st /\
    shownError p' <> Some "An error occurred. The ID might already be in use.")
   \/
   (shownError p' = None /\
    selectedRegionId st' = Some typed /\
    own (customizationData st') !! typed = own (customizationData st) !! sel)).
Proof.
  intros Hplain Hsel Htyped Hdiff. cbv zeta.
  unfold type_id, handleIdInputBlur, handleIdInputChange.
  cbn [shownError currentId data].
  pose proof (panel_check_complete st sel typed Hplain Hsel Htyped) as Hcomplete.
  unfold idError in Hcomplete.
  destruct (falsy (trim typed)) eqn:E1.
  { cbn. split; [reflexivity|]. left. repeat split; eauto; discriminate. }
  destruct (has_space typed) eqn:E2.
  { cbn. split; [reflexivity|]. left. repeat split; eauto; discriminate. }
  destruct (bool_decide (typed ∈ existingIds st)
            && negb (String.eqb typed sel)) eqn:E3.
  { cbn. split; [reflexivity|]. left. repeat split; eauto; discriminate. }
  cbn [orb] in Hcomplete. destruct (Hcomplete eq_refl Hdiff) as (Hok & Hs & Hrec).
  assert (Hne : String.eqb typed sel = false) by now apply String.eqb_neq.
  rewrite bool_decide_eq_false_2 by (intros [? H]; discriminate H).
  rewrite Hne. cbn [orb].
  destruct (renameRegion sel (trim typed) st) as [ok st'] eqn:Er.
  cbn [fst snd] in *. subst ok. cbn [fst snd currentId shownError].
  split; [reflexivity|]. right. repeat split; assumption.
Qed.

(** The identifier [d] is typed for region [c] of [sample_state]. *)
Lemma type_id_spec_witness :
  selectedRegionId
    (snd (type_id "c" "d" (mkPanel (mkRegionData "C" "" "" (Some "")) "c" None)
            sample_state))
  = Some "d".
Proof.
  destruct (type_id_spec "c" "d"
              (mkPanel (mkRegionData "C" "" "" (Some "")) "c" None) sample_state)
    as (_ & [(Herr & _) | (_ & Hsel & _)]);
    [apply plain_store_sample | reflexivity | reflexivity | discriminate | |
     exact Hsel].
  exfalso. vm_compute in Herr. destruct Herr as [x Hx]. discriminate Hx.
Defined.

End PanelFacts.
(** ** The font size fields of the settings dialog *)

Module SettingsFacts.
Import Js SettingsInput Tactics.

Local Open Scope string_scope.
Local Open Scope Z_scope.

Lemma dec_prefix_uint (d : Decimal.uint) (a : nat) :
  dec_prefix (Some (Z.of_nat a)) (DecimalString.NilEmpty.string_of_uint d)
  = Some (Z.of_nat (Nat.of_uint_acc d a)).
Proof.
  revert a. induction d as [|d IH|d IH|d IH|d IH|d IH|d IH|d IH|d IH|d IH|d IH];
    intros a; [reflexivity|..];
    cbn [DecimalString.NilEmpty.string_of_uint dec_prefix Nat.of_uint_acc];
    match goal with
    | |- context [dec_value ?c] =>
        let v := eval vm_compute in (dec_value c) in
        change (dec_value c) with v
    end;
    cbv iota beta; change (default 0 (Some (Z.of_nat a))) with (Z.of_nat a);
    rewrite <- IH; do 2 f_equal; rewrite Nat.tail_mul_spec; lia.
Qed.

Lemma digit_head (d : Decimal.uint) :
  d <> Decimal.Nil ->
  exists c t, DecimalString.NilEmpty.string_of_uint d = String c t /\
              is_Some (dec_value c) /\ is_space c = false /\
              Ascii.eqb c "-"%char = false /\ Ascii.eqb c "+"%char = false.
Proof.
  destruct d; [congruence|..]; intros _; eexists _, _;
    (split; [reflexivity|]); vm_compute; eauto.
Qed.

Lemma dec_prefix_start (c : ascii) (t : string) :
  is_Some (dec_value c) ->
  dec_prefix None (String c t) = dec_prefix (Some 0) (String c t).
Proof. intros [v Hv]. cbn [dec_prefix]. now rewrite Hv. Qed.

(** Below 2^53 an integer is its own Number value. *)
Lemma to_number_small (z : Z) : Z.abs z < 2 ^ 53 -> to_number z = Int z.
Proof.
  intros H. unfold to_number, round_magnitude.
  destruct (Z.ltb_spec (Z.abs z) (2 ^ 53)) as [_|?]; [|lia].
  assert (Hbig : 2 ^ 53 < 2 ^ 1024) by reflexivity.
  destruct (Z.leb_spec (2 ^ 1024) (Z.abs z)) as [?|_]; [lia|].
  f_equal. lia.
Qed.

(** [parseInt(String(n), 10)] is [n], for [n] below 2^53. *)
Lemma parseInt10_of_nat (n : nat) :
  Z.of_nat n < 2 ^ 53 -> parseInt10 (of_nat n) = Some (Int (Z.of_nat n)).
Proof.
  intros Hn. unfold of_nat.
  pose proof (IndexLaws.to_uint_not_Nil n) as Hnil.
  rewrite (IndexLaws.string_of_uint_not_Nil _ Hnil).
  destruct (digit_head (Nat.to_uint n) Hnil) as (c & t & Es & Hc & Hs & Hm & Hp).
  unfold parseInt10. rewrite Es. cbn [trimStart]. rewrite Hs, Hm, Hp.
  rewrite (dec_prefix_start c t Hc), <- Es.
  change 0 with (Z.of_nat 0). rewrite dec_prefix_uint.
  cbn [option_map]. f_equal.
  change (Nat.of_uint_acc (Nat.to_uint n) 0) with (Nat.of_uint (Nat.to_uint n)).
  rewrite DecimalNat.Unsigned.of_to. rewrite Z.mul_1_l.
  apply to_number_small. lia.
Qed.

(** Beyond 2^53 the field does not read back what was typed: 2^53 + 1 is
    read as 2^53, 2^53 + 3 as 2^53 + 4. *)
Example parseInt10_rounds :
  parseInt10 "9007199254740993" = Some (Int 9007199254740992) /\
  parseInt10 "9007199254740995" = Some (Int 9007199254740996) /\
  parseInt10 "-9007199254740993" = Some (Int (-9007199254740992)).
Proof. repeat split; vm_compute; reflexivity. Qed.

Lemma dec_prefix_none (c : ascii) (t : string) :
  dec_value c = None -> dec_prefix None (String c t) = None.
Proof. intros H. cbn [dec_prefix]. now rewrite H. Qed.

Lemma sign_not_digit (c : ascii) :
  Ascii.eqb c "-"%char || Ascii.eqb c "+"%char = true -> dec_value c = None.
Proof. by_cases_on_char c. Qed.

(** X13. The font size fields read back what they display and fall back on
    everything else: for a size [n] below 2^53 that the field displays as
    [String(n)], the handler computes [n] again, or the fallback when [n] is
    0; for an empty field, and for a text whose first character after white
    space is neither a digit nor a sign, it computes the fallback; and it
    never hands 0 to the settings unless the fallback is 0.  (From 2^53 on
    [parseInt] rounds to binary64 and the size read back can differ from the
    digits typed.) *)
Theorem fontSizeInput_spec (fallback : Z) :
  (forall n : nat,
      Z.of_nat n < 2 ^ 53 ->
      fontSizeInput (of_nat n) fallback
      = Int (if (n =? 0)%nat then fallback else Z.of_nat n)) /\
  (forall value : string,
      match first_solid value with
      | Some c => dec_value c = None /\ Ascii.eqb c "-"%char = false /\
                  Ascii.eqb c "+"%char = false
      | None => True
      end ->
      fontSizeInput value fallback = Int fallback) /\
  (forall value : string, fontSizeInput value fallback = Int 0 -> fallback = 0).
Proof.
  split; [|split].
  - intros n Hn. unfold fontSizeInput. rewrite (parseInt10_of_nat n Hn).
    cbn [or_number]. destruct n; [reflexivity|].
    now destruct (Z.eqb_spec (Z.of_nat (S n)) 0); [lia|].
  - intros value. unfold fontSizeInput, parseInt10, first_solid.
    destruct (trimStart value) as [|c t]; [reflexivity|].
    intros (Hd & Hm & Hp). rewrite Hm, Hp.
    now rewrite (dec_prefix_none c t Hd).
  - intros value. unfold fontSizeInput, or_number.
    destruct (parseInt10 value) as [[n|neg]|]; [| discriminate | congruence].
    destruct (Z.eqb_spec n 0); congruence.
Qed.

End SettingsFacts.
(** ** The event loop: what the store and the DOM never hold *)

Module AppLaws.
Import Js Dom App TrimFacts RenameFacts AppFacts.

Local Open Scope string_scope.

(** The panel's effect adds a key for the selected region only. *)
Lemma panel_effect_keys (st : AppState) (k : string) :
  is_Some (own (customizationData (panel_effect st)) !! k) ->
  is_Some (own (customizationData st) !! k) \/ selectedRegionId st = Some k.
Proof.
  unfold panel_effect. destruct (selectedRegionId st) as [sel|]; [|auto].
  destruct (falsy sel); [auto|].
  destruct (truthy _); [auto|].
  unfold handleDataChange, spread. cbn [customizationData own].
  destruct (decide (sel = k)) as [->|Hne]; [auto|].
  rewrite lookup_insert_ne by exact Hne. auto.
Qed.

Lemma move_record_keys (oldId new k : string) (store : Store) :
  plain_store store -> inherited oldId = false -> inherited new = false ->
  new <> oldId -> own store !! new = None ->
  is_Some (own (move_record oldId new store) !! k) ->
  k = new \/ (k <> oldId /\ is_Some (own store !! k)).
Proof.
  intros Hplain Hold Hnew Hne Hfree.
  destruct (move_record_others oldId new store Hne) as (H2 & H3).
  destruct (decide (k = new)) as [->|Hn]; [auto|].
  destruct (decide (k = oldId)) as [->|Ho].
  - rewrite H2. intros [? H]. discriminate H.
  - rewrite H3 by assumption. auto.
Qed.

(** The keys that an ordinary handler leaves belong to identifiers that are
    tracked after the turn. *)
Lemma handle_keys (a : Action) (st : AppState) (seen : gset string) :
  ordinary_action a ->
  invariant st seen ->
  (forall k, is_Some (own (customizationData st) !! k) -> k ∈ seen) ->
  forall k,
    is_Some (own (customizationData (handle a st)) !! k) \/
    selectedRegionId (handle a st) = Some k ->
    k ∈ track a st (handle a st) seen.
Proof.
  intros Hord Hinv Hkeys k.
  assert (Hsel : forall sel, selectedRegionId st = Some sel -> sel ∈ seen).
  { intros sel H. apply Hkeys. now destruct (inv_selected _ _ Hinv sel H). }
  destruct a as [content | i | | data | typed]; cbn [handle track].
  - unfold handleFileLoad. cbn [customizationData selectedRegionId empty_store own].
    rewrite lookup_empty. intros [[? H] | H]; discriminate H.
  - destruct (dom st !! i) as [target|].
    + destruct (clickable target); cbn [handleRegionSelect selectedRegionId
                                          customizationData].
      * intros [H | [= <-]]; [apply Hkeys in H|]; set_solver.
      * destruct (selectedRegionId st) as [sel|] eqn:Es.
        -- intros [H | [= <-]]; [apply Hkeys in H|]; set_solver.
        -- intros [H | H]; [now apply Hkeys | discriminate H].
    + destruct (selectedRegionId st) as [sel|] eqn:Es.
      * intros [H | [= <-]]; [apply Hkeys in H|]; set_solver.
      * intros [H | H]; [now apply Hkeys | discriminate H].
  - cbn [handleRegionSelect selectedRegionId customizationData].
    intros [H | H]; [now apply Hkeys | discriminate H].
  - destruct (selectedRegionId st) as [sel|] eqn:Es.
    + destruct (falsy sel).
      * rewrite Es. intros [H | [= <-]]; [apply Hkeys in H|]; set_solver.
      * unfold handleDataChange, spread.
        cbn [selectedRegionId customizationData own]. rewrite Es.
        intros [H | [= <-]]; [|set_solver].
        destruct (decide (sel = k)) as [->|Hne]; [set_solver|].
        rewrite lookup_insert_ne in H by exact Hne. apply Hkeys in H. set_solver.
    + rewrite Es. intros [H | H]; [now apply Hkeys | discriminate H].
  - cbn [ordinary_action] in Hord.
    destruct (selectedRegionId st) as [sel|] eqn:Es.
    2:{ rewrite Es. intros [H | H]; [now apply Hkeys | discriminate H]. }
    assert (Hidle :
      is_Some (own (customizationData st) !! k) \/ selectedRegionId st = Some k ->
      k ∈ match selectedRegionId st with
          | Some new => if String.eqb sel new then seen
                        else {[new]} ∪ seen ∖ {[sel]}
          | None => seen
          end).
    { rewrite Es, String.eqb_refl. intros [H | [= <-]]; auto. }
    destruct (falsy sel); [exact Hidle|].
    destruct (idError _ sel typed || String.eqb typed sel); [exact Hidle|].
    destruct (renameRegion_frame sel (trim typed) st)
      as [E | (Hn & Ed & Es' & Ec & Hdiff & Hhas)].
    { rewrite E. exact Hidle. }
    pose proof (inv_plain _ _ Hinv) as Hplain.
    assert (Hsord : inherited sel = false).
    { destruct (inv_selected _ _ Hinv sel); [congruence | assumption]. }
    set (new := trim (trim typed)) in *.
    assert (Hnew : inherited new = false).
    { subst new. now rewrite trim_idempotent. }
    rewrite (hasOwnProperty_own _ _ (plain_store_check _ Hplain)) in Hhas.
    injection Hhas as Hhas. apply bool_decide_eq_false in Hhas.
    assert (Hfree : own (customizationData st) !! new = None).
    { destruct (own (customizationData st) !! new); [|reflexivity].
      exfalso. apply Hhas. eauto. }
    assert (E : String.eqb sel new = false)
      by (apply String.eqb_neq; congruence).
    rewrite Es', E, Ec. intros [H | [= <-]]; [|set_solver].
    apply (move_record_keys sel new k _ Hplain Hsord Hnew Hdiff Hfree) in H
      as [-> | [Hne H]]; [set_solver|].
    apply Hkeys in H. set_solver.
Qed.

Lemma step_keys (a : Action) (st : AppState) (seen : gset string) :
  ordinary_action a ->
  invariant st seen ->
  (forall k, is_Some (own (customizationData st) !! k) -> k ∈ seen) ->
  forall k, is_Some (own (customizationData (step a st)) !! k) ->
            k ∈ track a st (step a st) seen.
Proof.
  intros Hord Hinv Hkeys k Hk. unfold step in *. rewrite track_panel_effect.
  apply (handle_keys a st seen Hord Hinv Hkeys). now apply panel_effect_keys.
Qed.

Lemma run_keys (acts : list Action) (st : AppState) (seen : gset string) :
  Forall ordinary_action acts ->
  invariant st seen ->
  (forall k, is_Some (own (customizationData st) !! k) -> k ∈ seen) ->
  forall k, is_Some (own (customizationData (fst (run acts st seen))) !! k) ->
            k ∈ snd (run acts st seen).
Proof.
  intros Hord. revert st seen.
  induction Hord as [|a rest Ha _ IH]; intros st seen Hinv Hkeys;
    [exact Hkeys|].
  cbn [run]. apply IH; [now apply step_invariant | now apply step_keys].
Qed.



(** X11. Every addressable shape keeps an identifier: after any sequence of
    actions (files loaded, selections, edits, renames), every element of an
    addressable kind in the DOM has an identifier that is not empty, and so
    has the selection. *)
Theorem shapes_always_named (acts : list Action) :
  Forall (fun e => clickable e = true -> id e <> "")
    (dom (fst (run acts initial ∅))) /\
  (forall sel, selectedRegionId (fst (run acts initial ∅)) = Some sel ->
               sel <> "").
Proof.
  destruct (run_named acts initial ∅ named_initial) as [Hnamed Hsel].
  split.
  - eapply Forall_impl; [exact Hnamed|]. cbn. intros e He Hc E.
    specialize (He Hc). rewrite E in He. discriminate He.
  - intros sel H E. specialize (Hsel sel H). rewrite E in Hsel.
    discriminate Hsel.
Qed.

End AppLaws.
(** ** The annotation data in the script block *)

Module ExportDataFacts.
Import Js Dom App ExportService ExportFacts ScriptBlock ScriptBlockFacts.
Import Tokenizer TokenizerFacts ExportData Tactics.

Local Open Scope string_scope.

#[local] Arguments String.append !_ _ / : simpl nomatch.

Lemma printable_cons (c : ascii) (s : string) :
  printable_end_tag (String c s)
  = (starts_with true "</script" (String c s)
     && match drop 7 s with
        | String d _ => ((code d =? 32) || (code d =? 47) || (code d =? 62))%nat
        | EmptyString => false
        end)
    || printable_end_tag s.
Proof. reflexivity. Qed.

Lemma printable_not_lt (c : ascii) (s : string) :
  Ascii.eqb c "<"%char = false ->
  printable_end_tag (String c s) = printable_end_tag s.
Proof. intros H. now rewrite printable_cons, open_tag_cons, H. Qed.

(** What [JSON.stringify] writes for a character: the character, or an
    escape that starts with a backslash and holds no [<]. *)
Lemma json_char_cases (c : ascii) :
  json_char c = String c EmptyString \/
  (Ascii.eqb c "<"%char = false /\
   ((code c =? 32) || (code c =? 47) || (code c =? 62))%nat = false /\
   exists t, json_char c = String (ascii_of_nat 92) t /\ no_lt t = true).
Proof.
  destruct c as [[] [] [] [] [] [] [] []];
    first [left; reflexivity
          | right; split; [reflexivity|]; split; [reflexivity|];
            eexists; split; reflexivity].
Qed.

Lemma closes_skip (x rest : string) :
  no_lt x = true ->
  closes_script_block (x ++ rest) = closes_script_block rest.
Proof.
  induction x as [|c x IH]; [reflexivity|]. cbn [no_lt].
  intros [Hc Hx]%andb_prop. apply negb_true_iff in Hc.
  rewrite append_cons, closes_not_lt; [now apply IH|].
  rewrite <- lt_matches. rewrite Ascii.eqb_sym. exact Hc.
Qed.

Lemma json_quiet_spec (p c : ascii) :
  json_quiet p = true -> Ascii.eqb (lower p) (lower c) = true ->
  json_char c = String c EmptyString /\ Ascii.eqb c (ascii_of_nat 34) = false.
Proof.
  unfold json_quiet. rewrite forallb_forall. intros H Hm.
  specialize (H (nat_of_ascii c)). rewrite ascii_nat_embedding in H.
  cbv zeta in H. rewrite Hm in H. cbn [implb] in H.
  assert (Hin : In (nat_of_ascii c) (seq 0 256)).
  { apply in_seq. pose proof (nat_ascii_bounded c). lia. }
  apply H in Hin. apply andb_prop in Hin as [H1 H2].
  apply String.eqb_eq in H1. apply negb_true_iff in H2. now split.
Qed.

(** The text between the quotes, followed by anything that starts with the
    closing quote. *)
Lemma starts_with_json (pat s rest : string) :
  inert_pattern pat = true -> json_quiet_pattern pat = true ->
  starts_with true pat (map_chars json_char s ++ dquote ++ rest)
  = starts_with true pat s.
Proof.
  revert s. induction pat as [|p pat IH]; intros s Hi Hq; [now destruct s|].
  cbn [inert_pattern json_quiet_pattern] in Hi, Hq.
  apply andb_prop in Hi as [Hp Hi]. apply andb_prop in Hq as [Hqp Hq].
  destruct s as [|c s].
  - cbn [map_chars]. change ("" ++ dquote ++ rest)
      with (String (ascii_of_nat 34) rest).
    rewrite starts_with_cons.
    destruct (Ascii.eqb (lower p) (lower (ascii_of_nat 34))) eqn:E; [|reflexivity].
    destruct (json_quiet_spec p _ Hqp E) as [_ H]. discriminate H.
  - rewrite map_chars_cons, append_assoc, (starts_with_cons true p c pat s).
    destruct (Ascii.eqb (lower p) (lower c)) eqn:Em.
    + destruct (json_quiet_spec p c Hqp Em) as [-> _].
      rewrite append_cons, starts_with_cons, Em. cbn [andb append].
      now apply IH.
    + cbn [andb]. destruct (json_char_cases c) as [-> | (_ & _ & t & -> & _)];
        rewrite append_cons, starts_with_cons.
      * now rewrite Em.
      * now rewrite (inert_not_backslash p Hp).
Qed.

Lemma drop_json (pat s rest : string) :
  json_quiet_pattern pat = true -> starts_with true pat s = true ->
  drop (String.length pat) (map_chars json_char s ++ rest)
  = map_chars json_char (drop (String.length pat) s) ++ rest.
Proof.
  revert s. induction pat as [|p pat IH]; intros s Hq Hm.
  { cbn [String.length]. now rewrite !drop_0. }
  cbn [json_quiet_pattern] in Hq. apply andb_prop in Hq as [Hqp Hq].
  destruct s as [|c s]; [discriminate|].
  rewrite starts_with_cons in Hm. apply andb_prop in Hm as [Em Hm].
  rewrite map_chars_cons. destruct (json_quiet_spec p c Hqp Em) as [-> _].
  cbn [append String.length drop]. now apply IH.
Qed.

Lemma copied_tag_end (d : ascii) :
  json_char d = String d EmptyString ->
  ends_tag_name d = ((code d =? 32) || (code d =? 47) || (code d =? 62))%nat.
Proof. by_cases_on_char d. Qed.

Lemma closes_json_tail (s rest : string) :
  closes_script_block (map_chars json_char s ++ dquote ++ rest)
  = printable_end_tag s || closes_script_block (dquote ++ rest).
Proof.
  induction s as [|c s IH]; [reflexivity|].
  rewrite map_chars_cons, append_assoc.
  destruct (json_char_cases c) as [Hc | (Hlt & Hend & t & Hc & Ht)]; rewrite Hc.
  - rewrite append_cons. cbn [append].
    rewrite closes_cons, printable_cons, IH, !open_tag_cons, <- orb_assoc.
    f_equal.
    destruct (Ascii.eqb c "<"%char); [|reflexivity]. cbn [andb].
    rewrite (starts_with_json "/script" s rest) by reflexivity.
    destruct (starts_with true "/script" s) eqn:Eo; [|reflexivity].
    cbn [andb].
    pose proof (drop_json "/script" s (dquote ++ rest) eq_refl Eo) as Hd.
    change (String.length "/script") with 7%nat in Hd. rewrite Hd.
    destruct (drop 7 s) as [|d u]; [reflexivity|].
    rewrite map_chars_cons, append_assoc.
    destruct (json_char_cases d) as [Hcopy | (_ & Hend & t & -> & _)].
    + rewrite Hcopy, append_cons. now apply copied_tag_end.
    + rewrite append_cons, Hend. reflexivity.
  - rewrite append_cons, closes_not_lt by reflexivity.
    rewrite (closes_skip t _ Ht), IH, (printable_not_lt c s Hlt). reflexivity.
Qed.

(** The text that [JSON.stringify] writes for a string ends the script block
    exactly when the string contains [</script] followed by a space, a slash
    or [>]. *)
Lemma json_quote_closes_inner (s : string) :
  closes_script_block (json_quote s) = printable_end_tag s.
Proof.
  unfold json_quote.
  change (dquote ++ map_chars json_char s ++ dquote)
    with (String (ascii_of_nat 34) (map_chars json_char s ++ dquote)).
  rewrite closes_not_lt by reflexivity.
  replace (map_chars json_char s ++ dquote)
    with (map_chars json_char s ++ dquote ++ "")
    by (f_equal).
  rewrite closes_json_tail. apply orb_false_r.
Qed.

(** *** The data line *)

Lemma occurs_refl (a : string) : occurs_in a a.
Proof. exists "", "". cbn [append]. induction a as [|c a IH]; [reflexivity|].
  rewrite append_cons. now rewrite <- IH. Qed.

Lemma occurs_app_l (a b x : string) : occurs_in a b -> occurs_in a (x ++ b).
Proof.
  intros (pre & post & ->). exists (x ++ pre), post. now rewrite append_assoc.
Qed.

Lemma occurs_app_r (a b x : string) : occurs_in a b -> occurs_in a (b ++ x).
Proof.
  intros (pre & post & ->). exists pre, (post ++ x).
  now rewrite !append_assoc.
Qed.

Lemma occurs_trans (a b c : string) :
  occurs_in a b -> occurs_in b c -> occurs_in a c.
Proof.
  intros (p1 & q1 & ->) (p2 & q2 & ->). exists (p2 ++ p1), (q1 ++ q2).
  now rewrite !append_assoc.
Qed.

Lemma occurs_join (sep x : string) (parts : list string) :
  x ∈ parts -> occurs_in x (join sep parts).
Proof.
  induction parts as [|p rest IH]; [inversion 1|].
  intros [-> | Hin]%elem_of_cons.
  - destruct rest; [apply occurs_refl|]. cbn [join].
    apply occurs_app_r, occurs_refl.
  - destruct rest as [|q rest]; [inversion Hin|].
    change (join sep (p :: q :: rest)) with (p ++ sep ++ join sep (q :: rest)).
    now apply occurs_app_l, occurs_app_l, IH.
Qed.

Lemma occurs_member (indent stepback key value : string)
    (members : list (string * string)) :
  (key, value) ∈ members ->
  occurs_in (json_quote key) (json_object indent stepback members) /\
  occurs_in value (json_object indent stepback members).
Proof.
  intros Hin.
  assert (Hm : occurs_in (json_quote key ++ ": " ++ value)
                 (json_object indent stepback members)).
  { destruct members as [|m members]; [inversion Hin|].
    unfold json_object.
    do 3 apply occurs_app_l. apply occurs_app_r.
    apply occurs_join.
    apply list_elem_of_In, in_map_iff. exists (key, value).
    split; [reflexivity | now apply list_elem_of_In]. }
  split; (eapply occurs_trans; [|exact Hm]).
  - apply occurs_app_r, occurs_refl.
  - apply occurs_app_l, occurs_app_l, occurs_refl.
Qed.

Lemma occurs_region_string (indent stepback str : string) (d : RegionData) :
  str ∈ region_strings d ->
  occurs_in (json_quote str) (json_object indent stepback (region_members d)).
Proof.
  unfold region_strings, region_members. intros Hin.
  assert (Hm : exists key, (key, json_quote str)
                 ∈ ([("title", json_quote (title d));
                     ("description", json_quote (description d));
                     ("link", json_quote (link d))]
                    ++ match tooltipImageSrc d with
                       | Some src => [("tooltipImageSrc", json_quote src)]
                       | None => []
                       end)%list).
  { apply elem_of_app in Hin as [Hin | Hin].
    - apply elem_of_cons in Hin as [-> | Hin];
        [exists "title"; apply elem_of_app; left; set_solver|].
      apply elem_of_cons in Hin as [-> | Hin];
        [exists "description"; apply elem_of_app; left; set_solver|].
      apply elem_of_cons in Hin as [-> | Hin];
        [exists "link"; apply elem_of_app; left; set_solver | inversion Hin].
    - destruct (tooltipImageSrc d) as [src|]; [|inversion Hin].
      apply elem_of_cons in Hin as [-> | Hin]; [|inversion Hin].
      exists "tooltipImageSrc". apply elem_of_app. right. set_solver. }
  destruct Hm as [key Hm].
  now destruct (occurs_member indent stepback key (json_quote str) _ Hm).
Qed.

Lemma starts_with_app_r (ci : bool) (pat a b : string) :
  starts_with ci pat a = true -> starts_with ci pat (a ++ b) = true.
Proof.
  revert a. induction pat as [|p pat IH]; intros a; [reflexivity|].
  destruct a as [|c a]; [discriminate|].
  rewrite append_cons, !starts_with_cons.
  intros [-> H]%andb_prop. cbn [andb]. now apply IH.
Qed.

Lemma drop_app_head (n : nat) (a b : string) (d : ascii) (x : string) :
  drop n a = String d x -> drop n (a ++ b) = String d (x ++ b).
Proof.
  revert a. induction n as [|n IH]; intros a.
  { rewrite !drop_0. now intros ->. }
  destruct a as [|c a]; [discriminate|]. rewrite append_cons. cbn [drop].
  apply IH.
Qed.

Lemma closes_app_l (a b : string) :
  closes_script_block b = true -> closes_script_block (a ++ b) = true.
Proof.
  intros H. induction a as [|c a IH]; [exact H|].
  rewrite append_cons, closes_cons, IH. apply orb_true_r.
Qed.

Lemma closes_app_r (a b : string) :
  closes_script_block a = true -> closes_script_block (a ++ b) = true.
Proof.
  induction a as [|c a IH]; [discriminate|].
  rewrite append_cons, !closes_cons.
  intros [Hhere | Hlater]%orb_prop; [|rewrite (IH Hlater); apply orb_true_r].
  apply andb_prop in Hhere as [Hs Hd].
  change (String c (a ++ b)) with (String c a ++ b).
  rewrite (starts_with_app_r true _ (String c a) b Hs). cbn [andb].
  destruct (drop 7 a) as [|d x] eqn:Ed; [discriminate|].
  rewrite (drop_app_head 7 a b d x Ed), Hd. reflexivity.
Qed.

Lemma closes_occurs (a b : string) :
  closes_script_block a = true -> occurs_in a b ->
  closes_script_block b = true.
Proof.
  intros H (pre & post & ->). now apply closes_app_l, closes_app_r.
Qed.

Lemma data_line_closes (entries : list (string * RegionData))
    (k : string) (d : RegionData) (str : string) :
  (k, d) ∈ entries ->
  str ∈ k :: region_strings d ->
  printable_end_tag str = true ->
  closes_script_block (data_line entries) = true.
Proof.
  intros Hentry Hstr Hend.
  apply (closes_occurs (json_quote str)).
  { now rewrite json_quote_closes_inner. }
  unfold data_line. apply occurs_app_l, occurs_app_r.
  unfold cleanCustomizationData.
  assert (Hm : (k, json_object "    " "  " (region_members d))
               ∈ map (fun e => (fst e, json_object "    " "  "
                                        (region_members (snd e)))) entries).
  { apply list_elem_of_In, in_map_iff. exists (k, d).
    split; [reflexivity | now apply list_elem_of_In]. }
  destruct (occurs_member "  " "" _ _ _ Hm) as [Hkey Hval].
  apply elem_of_cons in Hstr as [-> | Hstr]; [exact Hkey|].
  eapply occurs_trans; [|exact Hval]. now apply occurs_region_string.
Qed.

(** X28. The annotation data is not protected against the end tag.  The
    HTML tokenizer reads the data line in the script data state, or in the
    script data escaped state when the SVG text before it has left a comment
    open.  In both states, for data without a start tag of a script element
    ([<script], in any case of its letters, followed by white space, [/] or
    [>]): the text that [JSON.stringify] writes for a string holds the end
    tag of the script element exactly when the string contains [</script],
    in any case of its letters, followed by a space, a slash or [>]; and the
    data is interpolated into the script as [JSON.stringify] wrote it: when
    a key of the store or a title, a description, a link or an image source
    of a record contains such an end tag, the line of the script that holds
    the data ends the script block of the exported document, whatever the
    order of the entries. *)
Theorem data_line_closes_script_block :
  (forall s : string,
      script_start_tag (json_quote s) = false ->
      ends_script ScriptData (json_quote s) = printable_end_tag s /\
      ends_script ScriptDataEscaped (json_quote s) = printable_end_tag s) /\
  (forall (entries : list (string * RegionData)) (k : string)
          (d : RegionData) (str : string),
      script_start_tag (data_line entries) = false ->
      (k, d) ∈ entries ->
      str ∈ k :: region_strings d ->
      printable_end_tag str = true ->
      ends_script ScriptData (data_line entries) = true /\
      ends_script ScriptDataEscaped (data_line entries) = true) /\
  ends_script ScriptData
    (data_line [("a", mkRegionData "</script>" "" "" None)]) = true /\
  ends_script ScriptDataEscaped
    (data_line [("a", mkRegionData "</script>" "" "" None)]) = true.
Proof.
  split; [|split].
  - intros s Ho. destruct (ends_script_closes _ Ho) as [-> ->].
    now rewrite json_quote_closes_inner.
  - intros entries k d str Ho Hentry Hstr Hend.
    destruct (ends_script_closes _ Ho) as [-> ->].
    now rewrite (data_line_closes entries k d str Hentry Hstr Hend).
  - split; vm_compute; reflexivity.
Qed.

End ExportDataFacts.
